(** * Percent-variance transform and dimension selector of the PCA notebook

    Shallow embedding of the two functions defined in
    [Activity-dr-1-sol.ipynb]:

    - [percvar v]: sort the absolute values, reverse, L1-normalise, and
      return the percents together with their prefix sums;
    - [perck s p]: first 1-based index whose prefix value reaches [p].

    ** Number model

    The notebook computes on NumPy [float64] arrays.  An array element is
    either a finite number, written as the rational it denotes ([Qc],
    canonical fractions, so that equality of values is Leibniz equality), or
    one of the three special values that NumPy's arithmetic produces
    instead of raising: [+inf], [-inf] and [nan].  A signed zero is not
    distinguished from zero.

    Two arithmetics are defined on these elements.  [F] leaves finite
    results unrounded.  Comparisons, absolute values, sorting and the
    special-value cases ([0/0], [x/inf], [nan] absorbing) do not involve
    rounding, and the statements proved with [F] are those that rest on
    nothing else: the loop of [perck], lengths, the order and the signs of
    the input, empty, all-zero and non-finite inputs, a single value, and
    the worked example, whose comparisons are decided with margins far
    above rounding.  [F64] rounds every finite result to the nearest
    binary64 number (ties to even, overflow to an infinity, gradual
    underflow), [np_sum64] adds in the order of NumPy's pairwise summation,
    and [percvar64] is [percvar] over this arithmetic.  The statements
    about the values of the percents and of the cumulative vector are
    statements about [percvar64]. *)

From Stdlib Require Import String Ascii.
From Stdlib Require Import List Arith Lia Bool.
From Stdlib Require Import ZArith QArith Qcanon Qcabs Qround Qpower Lqa.
From Stdlib Require Import SpecFloat.
From Stdlib Require Import Permutation Sorted ListSet.
Import ListNotations.

Local Open Scope Qc_scope.

(** ** Array elements *)

Inductive float : Type :=
| Fin (q : Qc)          (* a finite value *)
| PInf                  (* +inf *)
| NInf                  (* -inf *)
| NaN.                  (* nan  *)

(** Sign of a finite value, as a [comparison] with zero. *)
Definition Qcsgn (q : Qc) : comparison := q ?= 0.

(** Boolean order on rationals. *)
Definition Qcleb (a b : Qc) : bool := Qle_bool a b.

Module F.

(** [abs(x)] *)
Definition abs (x : float) : float :=
  match x with
  | Fin q => Fin (Qcabs q)
  | PInf | NInf => PInf
  | NaN => NaN
  end.

(** [x + y]: [inf + -inf] is [nan], [nan] is absorbing. *)
Definition add (x y : float) : float :=
  match x, y with
  | NaN, _ | _, NaN => NaN
  | Fin a, Fin b => Fin (a + b)
  | PInf, NInf | NInf, PInf => NaN
  | PInf, _ | _, PInf => PInf
  | NInf, _ | _, NInf => NInf
  end.

Definition neg (x : float) : float :=
  match x with
  | Fin q => Fin (- q)
  | PInf => NInf
  | NInf => PInf
  | NaN => NaN
  end.

(** An infinity with the sign given by a comparison with zero;
    [nan] when the sign is that of zero. *)
Definition inf_of_sign (c : comparison) : float :=
  match c with
  | Gt => PInf
  | Lt => NInf
  | Eq => NaN
  end.

(** [x * y]: [0 * inf] is [nan]. *)
Definition mul (x y : float) : float :=
  match x, y with
  | NaN, _ | _, NaN => NaN
  | Fin a, Fin b => Fin (a * b)
  | Fin a, PInf | PInf, Fin a => inf_of_sign (Qcsgn a)
  | Fin a, NInf | NInf, Fin a => neg (inf_of_sign (Qcsgn a))
  | PInf, PInf | NInf, NInf => PInf
  | PInf, NInf | NInf, PInf => NInf
  end.

(** [x / y] as NumPy's true division on floats computes it under the
    default error state: a zero divisor does not raise, it yields [nan]
    for [0/0] and a signed infinity otherwise (with a RuntimeWarning). *)
Definition div (x y : float) : float :=
  match x, y with
  | NaN, _ | _, NaN => NaN
  | Fin a, Fin b =>
      match Qcsgn b with
      | Eq => inf_of_sign (Qcsgn a)
      | _ => Fin (a / b)
      end
  | Fin _, (PInf | NInf) => Fin 0
  | (PInf | NInf), (PInf | NInf) => NaN
  | PInf, Fin b => match Qcsgn b with Lt => NInf | _ => PInf end
  | NInf, Fin b => match Qcsgn b with Lt => PInf | _ => NInf end
  end.

(** [x <= y]: false as soon as one side is [nan]. *)
Definition leb (x y : float) : bool :=
  match x, y with
  | NaN, _ | _, NaN => false
  | NInf, _ => true
  | _, PInf => true
  | Fin a, Fin b => Qcleb a b
  | _, _ => false
  end.

(** [x >= y] *)
Definition geb (x y : float) : bool := leb y x.

End F.

(** ** NumPy array operations used by the notebook

    A one-dimensional array is a [list float]. *)

(** The order [np.sort] arranges floats in: ascending, [nan] last. *)
Definition sort_leb (x y : float) : bool :=
  match x, y with
  | _, NaN => true
  | NaN, _ => false
  | _, _ => F.leb x y
  end.

(** [np.abs(v)] *)
Definition np_abs (v : list float) : list float := map F.abs v.

(** [np.sort(v)]: a sorted copy.  The values of the result do not depend on
    the sorting algorithm (see [np_sort_unique] below); insertion sort is
    the executable stand-in. *)
Fixpoint sort_insert (x : float) (l : list float) : list float :=
  match l with
  | [] => [x]
  | y :: r => if sort_leb x y then x :: l else y :: sort_insert x r
  end.

Definition np_sort (v : list float) : list float := fold_right sort_insert [] v.

(** [np.sum(s)]: the sum of the elements, [0.0] for an empty array. *)
Definition np_sum (s : list float) : float := fold_left F.add s (Fin 0).

(** [s / t], array by scalar, elementwise. *)
Definition np_div (s : list float) (t : float) : list float :=
  map (fun x => F.div x t) s.

(** [np.cumsum(s)]: running sums, left to right. *)
Fixpoint cumsum_from (acc : float) (s : list float) : list float :=
  match s with
  | [] => []
  | x :: r => let acc' := F.add acc x in acc' :: cumsum_from acc' r
  end.

Definition np_cumsum (s : list float) : list float := cumsum_from (Fin 0) s.

(** ** The notebook's functions *)

(** [def percvar(v)]:
<<
    s = np.sort(np.abs(v))
    s = s[::-1]
    s = s/np.sum(s)
    return s, np.cumsum(s)
>> *)
Definition percvar (v : list float) : list float * list float :=
  let s := np_sort (np_abs v) in
  let s := rev s in
  let s := np_div s (np_sum s) in
  (s, np_cumsum s).

(** [def perck(s, p)]:
<<
    for i in range(len(s)):
        if s[i] >= p:
            return i+1
    return len(s)
>>
    [perck_for] is the loop over the remaining indices of [range(len(s))];
    it yields [Some (i+1)] when the body returns and [None] when the range
    is exhausted.  Every index taken from the range is below [len(s)], so
    the read [s[i]] is always in range and the default of [nth] is never
    used. *)
Fixpoint perck_for (s : list float) (p : float) (range : list nat) : option nat :=
  match range with
  | [] => None
  | i :: rest =>
      if F.geb (nth i s NaN) p then Some (i + 1)%nat
      else perck_for s p rest
  end.

Definition perck (s : list float) (p : float) : nat :=
  match perck_for s p (seq 0 (length s)) with
  | Some k => k
  | None => length s
  end.

(** ** Outcome of a call

    A Python call either returns a value or raises.  The body of [percvar]
    consists of NumPy array operations that are all total on float arrays
    (absolute value, sort, reversal, sum, true division, cumulative sum) and
    contains no [raise], no [assert] and no check of its argument, so a call
    on a float array always returns. *)
Inductive exn : Type :=
| ValueError            (* invalid input *)
| ZeroDivisionError     (* ArithmeticError subclass *)
| FloatingPointError    (* ArithmeticError subclass *)
| IndexError.

Inductive outcome (A : Type) : Type :=
| Returns (a : A)
| Raises (e : exn).
Arguments Returns {A} a.
Arguments Raises {A} e.

Definition call_percvar (v : list float) : outcome (list float * list float) :=
  Returns (percvar v).

(** ** Decimal literals *)

(** [dec n] is the value written [n/100] in the source, e.g. [dec 473] for
    [4.73]. *)
Definition dec (n : Z) : float := Fin (Q2Qc (n # 100)).

(** ** Vocabulary of the statements *)

(** Finite arrays: the numeric vectors of the claims. *)
Definition fin (qs : list Qc) : list float := map Fin qs.

Definition finite (x : float) : bool :=
  match x with Fin _ => true | _ => false end.

(** Exact sum of rationals. *)
Definition qsum (qs : list Qc) : Qc := fold_left Qcplus qs 0.

(** Running sums of rationals, as [cumsum_from] computes them on finite
    values. *)
Fixpoint qcumsum_from (acc : Qc) (l : list Qc) : list Qc :=
  match l with
  | [] => []
  | x :: r => let acc' := acc + x in acc' :: qcumsum_from acc' r
  end.

Definition qcumsum (l : list Qc) : list Qc := qcumsum_from 0 l.

(** Division of every entry by [t]. *)
Definition normalise (d : list Qc) (t : Qc) : list Qc :=
  map (fun q => q / t) d.

(** Ascending in the order of [np.sort]. *)
Definition ascending (l : list float) : Prop :=
  StronglySorted (fun x y => sort_leb x y = true) l.

(** Sorted from largest to smallest. *)
Definition descending (d : list Qc) : Prop :=
  StronglySorted (fun x y => y <= x) d.

(** The test of the loop body of [perck] at index [i]. *)
Definition reaches (s : list float) (p : float) (i : nat) : bool :=
  F.geb (nth i s NaN) p.

(** The vector of the worked example in the notebook (eigenvalues rounded
    to two decimals). *)
Definition wine_v : list float :=
  map dec [473; 251; 145; 92; 86; 65; 55; 10; 35; 17; 29; 23; 25]%Z.

(** ** The caller of [perck]

    The notebook reports the number of dimensions for five percentages:
<<
    for p in [40, 60, 80, 90, 95]:
        print("... %d%% of the variance: %d" % (p, perck(pv, p*0.01)))
>>
    [report pv] is the list of the pairs printed, in order. *)
Definition report_percentages : list Z := [40; 60; 80; 90; 95]%Z.

(** [p*0.01] *)
Definition target (p : Z) : float := F.mul (Fin (Q2Qc (inject_Z p))) (dec 1).

Definition report (pv : list float) : list (Z * nat) :=
  map (fun p => (p, perck pv (target p))) report_percentages.

(** ** Further vocabulary *)

(** An entry that is neither [nan] nor [-inf]: what [np_abs] leaves when the
    input has no [nan]. *)
Definition upper (x : float) : Prop := x <> NaN /\ x <> NInf.

(** * Binary64 arithmetic

    The arithmetic of [F] is exact on finite operands.  NumPy computes in
    IEEE 754 binary64 with round-to-nearest, ties to even: every finite
    result is replaced by the nearest representable number, a result whose
    rounded magnitude reaches [2^1024] becomes an infinity, and below
    [2^-1022] the spacing of the representable numbers stays [2^-1074]
    (subnormal numbers), so that small results lose precision and
    eventually become zero.  [F64] is [F] with this rounding applied to
    every finite result; a representable number is still written as the
    rational it denotes.  The sign of a zero is not recorded: [percvar]
    takes absolute values first and divides by a sum that starts from
    [0.0], so it never divides by a negative zero. *)

(** [2^k] *)
Definition pow2 (k : Z) : Q := Qpower 2 k.

(** The exponent [e] with [2^e <= q < 2^(e+1)], for [q > 0]. *)
Definition ilog2 (q : Q) : Z :=
  let e0 := (Z.log2 (Qnum q) - Z.log2 (Zpos (Qden q)))%Z in
  if Qle_bool (pow2 e0) q then e0 else (e0 - 1)%Z.

(** Nearest integer, a tie going to the even one. *)
Definition rhe (m : Q) : Z :=
  let f := Qfloor m in
  match Qcompare (m - inject_Z f)%Q (1 # 2)%Q with
  | Lt => f
  | Gt => (f + 1)%Z
  | Eq => if Z.even f then f else (f + 1)%Z
  end.

(** Exponent of the binade [q] is rounded in: that of [q], but not below
    the smallest normal exponent. *)
Definition rp_exp (q : Q) : Z := Z.max (ilog2 q) (-1022).

(** [q > 0] rounded to a multiple of [2^(e-52)], 53 significant bits. *)
Definition rp_val (q : Q) : Q :=
  (inject_Z (rhe (q / pow2 (rp_exp q - 52))) * pow2 (rp_exp q - 52))%Q.

Definition round_pos (q : Q) : float :=
  if Qle_bool (pow2 1024) (rp_val q) then PInf else Fin (Q2Qc (rp_val q)).

(** The binary64 number nearest to [q]. *)
Definition rnd64 (q : Qc) : float :=
  match q ?= 0 with
  | Eq => Fin 0
  | Gt => round_pos q
  | Lt => F.neg (round_pos (- q))
  end.

(** A rational that is a binary64 number. *)
Definition b64 (q : Qc) : Prop := rnd64 q = Fin q.

(** The value of a decimal literal [n/d] of the source, e.g. [lit 1 10]
    for [0.1]. *)
Definition lit (n : Z) (d : positive) : float := rnd64 (Q2Qc (n # d)).

Module F64.

(** [x + y] *)
Definition add (x y : float) : float :=
  match x, y with
  | Fin a, Fin b => rnd64 (a + b)
  | _, _ => F.add x y
  end.

(** [x * y] *)
Definition mul (x y : float) : float :=
  match x, y with
  | Fin a, Fin b => rnd64 (a * b)
  | _, _ => F.mul x y
  end.

(** [x / y], a zero divisor yielding [nan] or an infinity as in [F.div]. *)
Definition div (x y : float) : float :=
  match x, y with
  | Fin a, Fin b =>
      match Qcsgn b with
      | Eq => F.inf_of_sign (Qcsgn a)
      | _ => rnd64 (a / b)
      end
  | _, _ => F.div x y
  end.

End F64.

(** ** NumPy array operations in binary64 *)

(** [res += a[i]] over the elements of [a], left to right. *)
Definition sum_loop (res : float) (a : list float) : float :=
  fold_left F64.add a res.

(** [r[j] += a[i + j]] for the eight accumulators. *)
Fixpoint add_lanes (r a : list float) : list float :=
  match r, a with
  | x :: r', y :: a' => F64.add x y :: add_lanes r' a'
  | _, _ => r
  end.

(** The loop over the blocks of eight elements that follow the first
    block: it returns the accumulators and the elements left over. *)
Fixpoint block_loop (fuel : nat) (r a : list float) : list float * list float :=
  match fuel with
  | O => (r, a)
  | S f =>
      if (8 <=? length a)%nat
      then block_loop f (add_lanes r (firstn 8 a)) (skipn 8 a)
      else (r, a)
  end.

(** [((r0 + r1) + (r2 + r3)) + ((r4 + r5) + (r6 + r7))] *)
Definition lane_tree (r : list float) : float :=
  match r with
  | [r0; r1; r2; r3; r4; r5; r6; r7] =>
      F64.add (F64.add (F64.add r0 r1) (F64.add r2 r3))
              (F64.add (F64.add r4 r5) (F64.add r6 r7))
  | _ => NaN
  end.

(** The summation routine behind [np.sum] on a float array (pairwise
    summation):
<<
    if (n < 8) {
        res = 0.;
        for (i = 0; i < n; i++) res += a[i];
        return res;
    }
    else if (n <= 128) {
        r[0..7] = a[0..7];
        for (i = 8; i < n - (n % 8); i += 8)
            r[j] += a[i + j];                      (j = 0..7)
        res = ((r[0] + r[1]) + (r[2] + r[3])) +
              ((r[4] + r[5]) + (r[6] + r[7]));
        for (; i < n; i++) res += a[i];
        return res;
    }
    else {
        n2 = n / 2;  n2 -= n2 % 8;
        return pairwise_sum(a, n2) + pairwise_sum(a + n2, n - n2);
    }
>>
    The recursion is on a strictly shorter array; [fuel] bounds its depth
    and the length of the array is always enough. *)
Fixpoint pairwise_sum (fuel : nat) (a : list float) : float :=
  let n := length a in
  if (n <? 8)%nat then sum_loop (Fin 0) a
  else if (n <=? 128)%nat then
    let (r, rest) := block_loop n (firstn 8 a) (skipn 8 a) in
    sum_loop (lane_tree r) rest
  else
    match fuel with
    | O => NaN
    | S f =>
        let n2 := (n / 2 - (n / 2) mod 8)%nat in
        F64.add (pairwise_sum f (firstn n2 a)) (pairwise_sum f (skipn n2 a))
    end.

(** [np.sum(s)]: the reduction starts from [0.0] and adds the pairwise sum
    of the elements, taken in the order of the array. *)
Definition np_sum64 (s : list float) : float :=
  F64.add (Fin 0) (pairwise_sum (length s) s).

(** [s / t] *)
Definition np_div64 (s : list float) (t : float) : list float :=
  map (fun x => F64.div x t) s.

(** [c * v] *)
Definition np_scale64 (c : float) (v : list float) : list float :=
  map (fun x => F64.mul c x) v.

(** [np.cumsum(s)]: the first element is copied, every later entry is the
    previous entry plus the next element. *)
Fixpoint cumsum64_from (acc : float) (s : list float) : list float :=
  match s with
  | [] => []
  | x :: r => let acc' := F64.add acc x in acc' :: cumsum64_from acc' r
  end.

Definition np_cumsum64 (s : list float) : list float :=
  match s with
  | [] => []
  | x :: r => x :: cumsum64_from x r
  end.

(** [percvar] with the arithmetic of [F64]. *)
Definition percvar64 (v : list float) : list float * list float :=
  let s := np_sort (np_abs v) in
  let s := rev s in
  let s := np_div64 s (np_sum64 s) in
  (s, np_cumsum64 s).

(** Decidable equality of array elements and of arrays, to evaluate
    closed scenarios. *)
Definition feqb (x y : float) : bool :=
  match x, y with
  | Fin a, Fin b => Qeq_bool a b
  | PInf, PInf | NInf, NInf | NaN, NaN => true
  | _, _ => false
  end.

Fixpoint list_feqb (l1 l2 : list float) : bool :=
  match l1, l2 with
  | [], [] => true
  | x :: r1, y :: r2 => feqb x y && list_feqb r1 r2
  | _, _ => false
  end.

(** ** The IEEE 754 operations of the standard library

    [SpecFloat] defines the binary formats by sign, mantissa and exponent
    and their operations by shifting and rounding of mantissas.  For
    [prec = 53] and [emax = 1024] these are the binary64 operations;
    [of_spec] reads such a value as an array element, so that the two
    definitions of an operation can be compared on given operands. *)
Definition of_spec (x : spec_float) : float :=
  match x with
  | S754_zero _ => Fin 0
  | S754_infinity false => PInf
  | S754_infinity true => NInf
  | S754_nan => NaN
  | S754_finite s m e =>
      Fin (Q2Qc ((if s then inject_Z (Zneg m) else inject_Z (Zpos m)) * pow2 e)%Q)
  end.

(** The binary64 number nearest to [m * 2^e]. *)
Definition spec64 (m e : Z) : spec_float := binary_normalize 53 1024 m e false.

(** Do [op] and the library operation [sop] agree on a pair of operands,
    each given as [(m, e)] for [m * 2^e]? *)
Definition agree (op : float -> float -> float)
           (sop : spec_float -> spec_float -> spec_float)
           (p : (Z * Z) * (Z * Z)) : bool :=
  let x := spec64 (fst (fst p)) (snd (fst p)) in
  let y := spec64 (fst (snd p)) (snd (snd p)) in
  feqb (of_spec (sop x y)) (op (of_spec x) (of_spec y)).

(** Operands that exercise rounding up and down, ties, subnormal numbers,
    underflow to zero, the overflow threshold, signs, and the operations
    that occur in the scenarios below ([2/6], [1/6], [0.1 * 3]). *)
Definition operands : list ((Z * Z) * (Z * Z)) :=
  [((1, 0), (3, 0)); ((2, 0), (6, 0)); ((1, 0), (6, 0)); ((3, 0), (6, 0));
   ((1, 1023), (1, 1023)); ((1, 1023), (1, 1024));
   ((3602879701896397, -55), (3, 0)); ((3602879701896397, -55), (1, 0));
   ((1, 0), (10, 0)); ((3, 0), (4, 0)); ((1, 0), (4, 0));
   ((1, -1), (6004799503160661, -54)); ((3752999689475413, -52), (6004799503160661, -55));
   ((1, -1074), (3, 0)); ((1, -1074), (1, -1074)); ((3, -1074), (2, 0));
   ((9007199254740991, 971), (1, 970)); ((9007199254740991, 971), (1, 969));
   ((9007199254740993, 0), (1, 0)); ((5, -1075), (7, -3)); ((-7, 0), (3, 0));
   ((-1, -1074), (-3, 0)); ((1, -1022), (1, -1023)); ((1, 0), (1, -53));
   ((1, 0), (1, -54)); ((1, 0), (3, -54)); ((123456789, -20), (987654321, 30));
   ((0, 0), (1, 0)); ((1, 0), (0, 0)); ((0, 0), (0, 0))]%Z.

(** ** Vocabulary of the binary64 statements *)

(** A non-negative binary64 number or [+inf]: what sums of absolute
    values range over. *)
Definition magnitude (x : float) : Prop :=
  x = PInf \/ exists q, x = Fin q /\ 0 <= q /\ b64 q.

(** A positive binary64 number or [+inf]. *)
Definition positive64 (x : float) : Prop :=
  x = PInf \/ exists q, x = Fin q /\ 0 < q /\ b64 q.

(** Every element of [l] is below some element of [r]. *)
Definition covered (l r : list float) : Prop :=
  Forall (fun y => Exists (fun x => F.leb y x = true) r) l.

(** Running sums of floats, as [np.cumsum] computes them. *)
Definition running (c s : list float) : Prop :=
  length c = length s /\
  nth 0 c NaN = nth 0 s NaN /\
  forall i, (S i < length s)%nat ->
            nth (S i) c NaN = F64.add (nth i c NaN) (nth (S i) s NaN).

(** ** Error bounds *)

(** The largest relative error of a rounding in the normal range,
    [2^-53]. *)
Definition u64 : Qc := Q2Qc (pow2 (-53)).

(** The largest error of a rounding below the normal range, [2^-1075]. *)
Definition eta64 : Qc := Q2Qc (pow2 (-1075)).

(** [r] is [s] up to [k] relative errors of a rounding. *)
Definition within (k : nat) (s r : Qc) : Prop :=
  (1 - u64) ^ k * s <= r /\ r <= (1 + u64) ^ k * s.

(** A number that every sum that overflows has reached, [2^1023]. *)
Definition big64 : Qc := Q2Qc (pow2 1023).

(** The result of a float64 computation whose exact value is [s >= 0] and
    that rounded at most [k] times on the way to any of its operands: a
    binary64 number within [k] relative errors of [s], or [+inf] after an
    overflow, which takes a large [s].  With [k = 0] nothing has been
    added yet. *)
Definition approx (x : float) (s : Qc) (k : nat) : Prop :=
  (k = 0%nat -> s = 0) /\
  ((x = PInf /\ big64 <= (1 + u64) ^ k * s) \/
   exists r, x = Fin r /\ b64 r /\ 0 <= r /\ within k s r).

(** The accumulators of the blocked loop: each one approximates a sum of
    its own, and together these sums have the exact value [s] and took
    [k] elements. *)
Definition approx_lanes (r : list float) (s : Qc) (k : nat) : Prop :=
  exists sks : list (Qc * nat),
    Forall2 (fun x sk => 0 <= fst sk /\ approx x (fst sk) (snd sk)) r sks /\
    qsum (map fst sks) = s /\ list_sum (map snd sks) = k.

(** A non-negative binary64 number. *)
Definition summand (d : Qc) : Prop := 0 <= d /\ b64 d.

(** A count as a rational. *)
Definition count (n : nat) : Qc := Q2Qc (inject_Z (Z.of_nat n)).

(** The tolerance of the normalisation of [n] values, [n * 2^-50]. *)
Definition tolerance (n : nat) : Qc := count n * Q2Qc (pow2 (-50)).

(** * The text-classification notebook

    Its helper functions and the cells that prepare the data.  Text is a
    [string]; a Python [set] of strings is a duplicate-free list, built with
    [set_add] for [set.add] and [set_inter] for [set.intersection]; the
    lines of a file are the list of strings that iterating over the open
    file yields. *)

(** [def select_feature(data)]:
<<
    feature=set()
    for rows in data:
        for f in rows:
            feature.add(f)
    return feature
>> *)
Fixpoint select_feature_row (rows : list string) (feature : set string)
  : set string :=
  match rows with
  | [] => feature
  | f :: rest => select_feature_row rest (set_add string_dec f feature)
  end.

Fixpoint select_feature_rows (data : list (list string)) (feature : set string)
  : set string :=
  match data with
  | [] => feature
  | rows :: rest => select_feature_rows rest (select_feature_row rows feature)
  end.

Definition select_feature (data : list (list string)) : set string :=
  select_feature_rows data (empty_set string).

(** [def countValues(output)]:
<<
    one=0
    zero=0
    for i in output:
        if i=='1':
            one+=1
        else:
            zero+=1
    print one
    print zero
>>
    The result is the list of the two numbers printed. *)
Fixpoint countValues_loop (output : list string) (one zero : nat) : nat * nat :=
  match output with
  | [] => (one, zero)
  | i :: rest =>
      if String.eqb i "1"%string then countValues_loop rest (one + 1) zero
      else countValues_loop rest one (zero + 1)
  end.

Definition countValues (output : list string) : list nat :=
  let (one, zero) := countValues_loop output 0 0 in [one; zero].

(** [def outputToFile(output)]:
<<
    with open('data/result_final.dat', 'w') as log:
        for x in output:
            log.write(x+'\n')
>>
    The result is the content of the file, which mode ['w'] starts empty. *)
Definition newline : ascii := "010"%char.

Fixpoint outputToFile_loop (output : list string) (log : string) : string :=
  match output with
  | [] => log
  | x :: rest =>
      outputToFile_loop rest
        (String.append log (String.append x (String newline EmptyString)))
  end.

Definition outputToFile (output : list string) : string :=
  outputToFile_loop output EmptyString.

(** [s.split(sep)] for a one-character separator: the pieces between the
    occurrences of [sep], empty pieces included; never an empty list. *)
Fixpoint py_split (sep : ascii) (s : string) : list string :=
  match s with
  | EmptyString => [EmptyString]
  | String c r =>
      if ascii_dec c sep then EmptyString :: py_split sep r
      else match py_split sep r with
           | [] => [String c EmptyString]
           | w :: ws => String c w :: ws
           end
  end.

Definition tab : ascii := "009"%char.
Definition space : ascii := " "%char.

(** The cell that reads the two files:
<<
    training_data=[]
    for line in open('data/train.dat','r'):
        print(line)
        #training_data.append(line.split('\t'))

    testing_data=[]
    for line in open('data/test.dat','r'):
        testing_data.append(line.split('\t'))
>>
    [read_train] threads the lines printed and [training_data], which the
    loop body leaves alone. *)
Fixpoint read_train (lines : list string) (printed : list string)
    (training_data : list (list string)) : list string * list (list string) :=
  match lines with
  | [] => (printed, training_data)
  | line :: rest => read_train rest (printed ++ [line]) training_data
  end.

Fixpoint read_test (lines : list string) (testing_data : list (list string))
  : list (list string) :=
  match lines with
  | [] => testing_data
  | line :: rest => read_test rest (testing_data ++ [py_split tab line])
  end.

(** The cell that builds the lists:
<<
    train_list = []
    training_list = []
    given_class = []
    for td in training_data:
        given_class.append(td[0])
        training_list.append(td[1].split(' '))
        train_list.append(td[1])

    test_list = []
    testing_list = []
    for td in testing_data:
        test_list.append(td[0])
        testing_list.append(td[0].split(' '))
>>
    A loop returns the lists as they are when it stops, together with the
    exception that stopped it, if any: [td[i]] raises [IndexError] when the
    record has no field [i]. *)
Record train_lists : Type := {
  given_class : list string;
  training_list : list (list string);
  train_list : list string
}.

Record test_lists : Type := {
  test_list : list string;
  testing_list : list (list string)
}.

Fixpoint training_loop (training_data : list (list string)) (st : train_lists)
  : train_lists * option exn :=
  match training_data with
  | [] => (st, None)
  | td :: rest =>
      match nth_error td 0 with
      | None => (st, Some IndexError)
      | Some td0 =>
          let st1 := {| given_class := given_class st ++ [td0];
                        training_list := training_list st;
                        train_list := train_list st |} in
          match nth_error td 1 with
          | None => (st1, Some IndexError)
          | Some td1 =>
              training_loop rest
                {| given_class := given_class st1;
                   training_list := training_list st1 ++ [py_split space td1];
                   train_list := train_list st1 ++ [td1] |}
          end
      end
  end.

Fixpoint testing_loop (testing_data : list (list string)) (st : test_lists)
  : test_lists * option exn :=
  match testing_data with
  | [] => (st, None)
  | td :: rest =>
      match nth_error td 0 with
      | None => (st, Some IndexError)
      | Some td0 =>
          testing_loop rest
            {| test_list := test_list st ++ [td0];
               testing_list := testing_list st ++ [py_split space td0] |}
      end
  end.

Definition no_train_lists : train_lists :=
  {| given_class := []; training_list := []; train_list := [] |}.

Definition no_test_lists : test_lists :=
  {| test_list := []; testing_list := [] |}.

(** The cells up to [features=train_features.intersection(test_features)],
    run in order on the lines of the two files: the value of [features], or
    the exception that stops the notebook before. *)
Definition notebook_features (train_lines test_lines : list string)
  : outcome (set string) :=
  let (printed, training_data) := read_train train_lines [] [] in
  let testing_data := read_test test_lines [] in
  match training_loop training_data no_train_lists with
  | (_, Some e) => Raises e
  | (tr, None) =>
      match testing_loop testing_data no_test_lists with
      | (_, Some e) => Raises e
      | (te, None) =>
          let train_features := select_feature (training_list tr) in
          let test_features := select_feature (testing_list te) in
          Returns (set_inter string_dec train_features test_features)
      end
  end.

(** Occurrences of a character in a text. *)
Fixpoint count_char (c : ascii) (s : string) : nat :=
  match s with
  | EmptyString => 0
  | String a r => (if ascii_dec a c then 1 else 0) + count_char c r
  end.

(** * Properties *)

(** ** Order facts on array elements *)

Lemma Qcleb_le (a b : Qc) : Qcleb a b = true <-> a <= b.
Proof. unfold Qcleb, Qcle. apply Qle_bool_iff. Qed.

Lemma Qcleb_refl (a : Qc) : Qcleb a a = true.
Proof. apply Qcleb_le, Qcle_refl. Qed.

Lemma Qcleb_trans (a b c : Qc) :
  Qcleb a b = true -> Qcleb b c = true -> Qcleb a c = true.
Proof. rewrite !Qcleb_le. apply Qcle_trans. Qed.

Lemma Qcleb_antisym (a b : Qc) :
  Qcleb a b = true -> Qcleb b a = true -> a = b.
Proof. rewrite !Qcleb_le. apply Qcle_antisym. Qed.

Lemma F_leb_trans (x y z : float) :
  F.leb x y = true -> F.leb y z = true -> F.leb x z = true.
Proof.
  destruct x as [a| | |], y as [b| | |], z as [c| | |]; cbn;
    try discriminate; try reflexivity.
  apply Qcleb_trans.
Qed.

Lemma F_leb_fin (a b : Qc) : F.leb (Fin a) (Fin b) = true <-> a <= b.
Proof. cbn. apply Qcleb_le. Qed.

(** ** The loop of [perck] *)

Section PerckLoop.

Variables (s : list float) (p : float).

Lemma perck_for_None (a n : nat) :
  perck_for s p (seq a n) = None <->
  forall i, (a <= i < a + n)%nat -> reaches s p i = false.
Proof.
  revert a. induction n as [|n IH]; intros a; cbn [seq perck_for].
  - split; [intros _ i Hi; lia | reflexivity].
  - change (F.geb (nth a s NaN) p) with (reaches s p a).
    destruct (reaches s p a) eqn:Ha.
    + split; [discriminate|]. intros H.
      rewrite (H a) in Ha by lia. discriminate.
    + rewrite IH. split; intros H i Hi.
      * destruct (Nat.eq_dec i a) as [->|Hne]; [exact Ha|apply H; lia].
      * apply H; lia.
Qed.

Lemma perck_for_Some (a n k : nat) :
  perck_for s p (seq a n) = Some k ->
  (a + 1 <= k <= a + n)%nat /\ reaches s p (k - 1) = true /\
  forall j, (a <= j < k - 1)%nat -> reaches s p j = false.
Proof.
  revert a. induction n as [|n IH]; intros a; cbn [seq perck_for].
  - discriminate.
  - change (F.geb (nth a s NaN) p) with (reaches s p a).
    destruct (reaches s p a) eqn:Ha.
    + intros [= <-]. replace (a + 1 - 1)%nat with a by lia.
      repeat split; try lia. exact Ha.
    + intros H. destruct (IH _ H) as (Hk & Hr & Hb).
      repeat split; try lia; [exact Hr|].
      intros j Hj. destruct (Nat.eq_dec j a) as [->|Hne]; [exact Ha|apply Hb; lia].
Qed.

Lemma perck_le_length : (perck s p <= length s)%nat.
Proof.
  unfold perck. destruct (perck_for s p (seq 0 (length s))) as [k|] eqn:E.
  - apply perck_for_Some in E. lia.
  - lia.
Qed.

(** [perck] returns [k] as soon as index [k-1] passes the test and no
    earlier index does. *)
Lemma perck_first (k : nat) :
  (1 <= k <= length s)%nat -> reaches s p (k - 1) = true ->
  (forall j, (j < k - 1)%nat -> reaches s p j = false) ->
  perck s p = k.
Proof.
  intros Hk Hr Hb. unfold perck.
  destruct (perck_for s p (seq 0 (length s))) as [k'|] eqn:E.
  - apply perck_for_Some in E. destruct E as (Hk' & Hr' & Hb').
    destruct (Nat.lt_trichotomy k k') as [Hlt|[Heq|Hgt]]; [|exact (eq_sym Heq)|].
    + rewrite (Hb' (k - 1)%nat) in Hr by lia. discriminate.
    + rewrite (Hb (k' - 1)%nat) in Hr' by lia. discriminate.
  - rewrite perck_for_None in E. rewrite (E (k - 1)%nat) in Hr by lia.
    discriminate.
Qed.

End PerckLoop.

(** ** Exact sums *)

Lemma fold_plus_acc (l : list Qc) (a : Qc) :
  fold_left Qcplus l a = a + qsum l.
Proof.
  unfold qsum. revert a. induction l as [|x l IH]; intros a; cbn.
  - ring.
  - rewrite IH, (IH (0 + x)). ring.
Qed.

Lemma qsum_nil : qsum [] = 0.
Proof. reflexivity. Qed.

Lemma qsum_cons (x : Qc) (l : list Qc) : qsum (x :: l) = x + qsum l.
Proof. unfold qsum at 1. cbn. rewrite fold_plus_acc. ring. Qed.

Lemma qsum_perm (l1 l2 : list Qc) : Permutation l1 l2 -> qsum l1 = qsum l2.
Proof.
  induction 1 as [|x l1 l2 _ IH|x y l|l1 l2 l3 _ IH1 _ IH2].
  - reflexivity.
  - rewrite !qsum_cons, IH. reflexivity.
  - rewrite !qsum_cons. ring.
  - congruence.
Qed.

Lemma qsum_scale (c : Qc) (l : list Qc) :
  qsum (map (fun q => q * c) l) = qsum l * c.
Proof.
  induction l as [|x l IH]; cbn [map].
  - rewrite qsum_nil. ring.
  - rewrite !qsum_cons, IH. ring.
Qed.

Lemma Qcplus_nonneg (a b : Qc) : 0 <= a -> 0 <= b -> 0 <= a + b.
Proof.
  intros Ha Hb. replace 0 with (0 + 0) by ring.
  apply Qcplus_le_compat; assumption.
Qed.

Lemma qsum_nonneg (l : list Qc) : Forall (fun q => 0 <= q) l -> 0 <= qsum l.
Proof.
  induction 1 as [|x l Hx _ IH].
  - apply Qcle_refl.
  - rewrite qsum_cons. apply Qcplus_nonneg; assumption.
Qed.

Lemma Qcplus_nonneg_zero (a b : Qc) :
  0 <= a -> 0 <= b -> a + b = 0 -> a = 0 /\ b = 0.
Proof.
  intros Ha Hb E.
  assert (Hle : a + 0 <= a + b)
    by (apply Qcplus_le_compat; [apply Qcle_refl|exact Hb]).
  rewrite E, Qcplus_0_r in Hle.
  assert (Ea : a = 0) by (apply Qcle_antisym; assumption).
  split; [exact Ea|]. rewrite Ea, Qcplus_0_l in E. exact E.
Qed.

Lemma qsum_zero (l : list Qc) :
  Forall (fun q => 0 <= q) l -> qsum l = 0 -> Forall (fun q => q = 0) l.
Proof.
  induction 1 as [|x l Hx Hl IH]; intros E.
  - constructor.
  - rewrite qsum_cons in E.
    destruct (Qcplus_nonneg_zero _ _ Hx (qsum_nonneg _ Hl) E) as [E1 E2].
    constructor; auto.
Qed.

Lemma Forall_abs_nonneg (qs : list Qc) :
  Forall (fun q => 0 <= q) (map Qcabs qs).
Proof. apply Forall_forall. intros x Hx. apply in_map_iff in Hx.
  destruct Hx as (q & <- & _). apply Qcabs_nonneg. Qed.

(** The sum of absolute values vanishes exactly when every entry is zero. *)
Lemma abs_sum_zero_iff (qs : list Qc) :
  qsum (map Qcabs qs) = 0 <-> Forall (fun q => q = 0) qs.
Proof.
  split.
  - intros E. apply qsum_zero in E; [|apply Forall_abs_nonneg].
    rewrite Forall_map in E. revert E. apply Forall_impl.
    intros q. apply Qcabs_null.
  - induction 1 as [|x l -> _ IH]; cbn [map]; [reflexivity|].
    rewrite qsum_cons, IH. reflexivity.
Qed.

Lemma abs_sum_nonzero_iff (qs : list Qc) :
  qsum (map Qcabs qs) <> 0 <-> Exists (fun q => q <> 0) qs.
Proof.
  rewrite abs_sum_zero_iff. split.
  - intros H. apply neg_Forall_Exists_neg in H; [exact H|].
    intros q. apply Qc_eq_dec.
  - intros H1 H2. apply Exists_exists in H1. destruct H1 as (q & Hin & Hq).
    rewrite Forall_forall in H2. auto.
Qed.

(** ** Sorted arrangements *)

Lemma StronglySorted_snoc {A : Type} (R : A -> A -> Prop) (l : list A) (x : A) :
  StronglySorted R l -> Forall (fun y => R y x) l ->
  StronglySorted R (l ++ [x]).
Proof.
  induction 1 as [|a l Hs IH Ha]; intros Hx; cbn.
  - repeat constructor.
  - inversion_clear Hx as [|? ? Hax Hlx]. constructor; [auto|].
    apply Forall_app. split; [exact Ha|]. repeat constructor. exact Hax.
Qed.

Section SortedFacts.

Context {A : Type} (R : A -> A -> Prop).

Lemma StronglySorted_rev (l : list A) :
  StronglySorted R l -> StronglySorted (fun x y => R y x) (rev l).
Proof.
  induction 1 as [|a l Hs IH Ha]; cbn.
  - constructor.
  - apply StronglySorted_snoc; [exact IH|]. apply Forall_rev. exact Ha.
Qed.

Hypothesis R_antisym : forall x y, R x y -> R y x -> x = y.

(** A multiset has at most one sorted arrangement. *)
Lemma sorted_perm_unique (l1 l2 : list A) :
  StronglySorted R l1 -> StronglySorted R l2 -> Permutation l1 l2 ->
  l1 = l2.
Proof.
  revert l2. induction l1 as [|a l1 IH]; intros l2 H1 H2 HP.
  - apply Permutation_nil in HP. congruence.
  - destruct l2 as [|b l2].
    { apply Permutation_sym, Permutation_nil in HP. discriminate. }
    apply StronglySorted_inv in H1. destruct H1 as [H1 Ha].
    apply StronglySorted_inv in H2. destruct H2 as [H2 Hb].
    rewrite Forall_forall in Ha, Hb.
    assert (E : a = b).
    { assert (Ia : In a (b :: l2))
        by (eapply Permutation_in; [exact HP|left; reflexivity]).
      assert (Ib : In b (a :: l1))
        by (eapply Permutation_in;
            [apply Permutation_sym; exact HP|left; reflexivity]).
      destruct Ia as [Ia|Ia]; [congruence|].
      destruct Ib as [Ib|Ib]; [congruence|].
      apply R_antisym; auto. }
    subst b. f_equal. apply IH; auto.
    eapply Permutation_cons_inv; exact HP.
Qed.

End SortedFacts.

Lemma sort_leb_total (x y : float) :
  sort_leb x y = true \/ sort_leb y x = true.
Proof.
  destruct x as [a| | |], y as [b| | |]; cbn; auto.
  rewrite !Qcleb_le.
  destruct (Qclt_le_dec a b) as [H|H]; [left; apply Qclt_le_weak|right]; exact H.
Qed.

Lemma sort_leb_trans (x y z : float) :
  sort_leb x y = true -> sort_leb y z = true -> sort_leb x z = true.
Proof.
  destruct x as [a| | |], y as [b| | |], z as [c| | |]; cbn;
    try discriminate; try reflexivity.
  apply Qcleb_trans.
Qed.

Lemma sort_leb_antisym (x y : float) :
  sort_leb x y = true -> sort_leb y x = true -> x = y.
Proof.
  destruct x as [a| | |], y as [b| | |]; cbn;
    try discriminate; try reflexivity.
  intros H1 H2. f_equal. apply Qcleb_antisym; assumption.
Qed.

Lemma sort_insert_perm (x : float) (l : list float) :
  Permutation (x :: l) (sort_insert x l).
Proof.
  induction l as [|y r IH]; cbn; [apply Permutation_refl|].
  destruct (sort_leb x y); [apply Permutation_refl|].
  eapply Permutation_trans; [apply perm_swap|]. apply perm_skip, IH.
Qed.

Lemma sort_insert_ascending (x : float) (l : list float) :
  ascending l -> ascending (sort_insert x l).
Proof.
  unfold ascending. induction 1 as [|y r Hs IH Hy]; cbn.
  - repeat constructor.
  - destruct (sort_leb x y) eqn:E.
    + constructor; [constructor; assumption|].
      constructor; [exact E|]. revert Hy. apply Forall_impl.
      intros z. apply sort_leb_trans, E.
    + constructor; [exact IH|].
      eapply Permutation_Forall; [apply sort_insert_perm|].
      constructor; [|exact Hy].
      destruct (sort_leb_total x y) as [H|H]; [congruence|exact H].
Qed.

Lemma np_sort_sorted (v : list float) : ascending (np_sort v).
Proof.
  induction v as [|x v IH]; cbn; [constructor|].
  apply sort_insert_ascending, IH.
Qed.

Lemma np_sort_perm (v : list float) : Permutation v (np_sort v).
Proof.
  induction v as [|x v IH]; cbn; [constructor|].
  eapply Permutation_trans; [apply perm_skip, IH|apply sort_insert_perm].
Qed.

(** [np_sort v] is the only ascending arrangement of the values of [v]:
    whichever algorithm NumPy runs, the array it returns is this one. *)
Lemma np_sort_unique (v w : list float) :
  Permutation v w ->
  ascending w ->
  np_sort v = w.
Proof.
  intros HP Hw.
  apply (sorted_perm_unique _ sort_leb_antisym);
    [apply np_sort_sorted|exact Hw|].
  eapply Permutation_trans; [apply Permutation_sym, np_sort_perm|exact HP].
Qed.

Lemma ascending_fin (a : list Qc) :
  ascending (fin a) <->
  StronglySorted Qcle a.
Proof.
  unfold fin. induction a as [|x a IH]; cbn [map].
  - split; constructor.
  - split; intros H; apply StronglySorted_inv in H; destruct H as [Hs Hx];
      constructor; try (apply IH; exact Hs).
    + rewrite Forall_map in Hx. revert Hx. apply Forall_impl.
      intros y. cbn. apply Qcleb_le.
    + rewrite Forall_map. revert Hx. apply Forall_impl.
      intros y. cbn. apply Qcleb_le.
Qed.

(** Sorting a finite array: the ascending arrangement of its values. *)
Lemma np_sort_fin (qs : list Qc) :
  exists a, np_sort (fin qs) = fin a /\ Permutation a qs /\
            StronglySorted Qcle a.
Proof.
  destruct (Permutation_map_inv Fin qs (Permutation_sym (np_sort_perm (fin qs))))
    as (a & Ea & Pa).
  exists a. split; [exact Ea|]. split; [apply Permutation_sym, Pa|].
  apply ascending_fin. unfold fin at 1. rewrite <- Ea. apply np_sort_sorted.
Qed.

(** ** The array operations on finite arrays *)

Lemma np_abs_fin (qs : list Qc) : np_abs (fin qs) = fin (map Qcabs qs).
Proof. unfold np_abs, fin. rewrite !map_map. reflexivity. Qed.

Lemma rev_fin (qs : list Qc) : rev (fin qs) = fin (rev qs).
Proof. unfold fin. symmetry. apply map_rev. Qed.

Lemma fold_add_fin (qs : list Qc) (a : Qc) :
  fold_left F.add (fin qs) (Fin a) = Fin (fold_left Qcplus qs a).
Proof.
  revert a. induction qs as [|x qs IH]; intros a; cbn; [reflexivity|apply IH].
Qed.

Lemma np_sum_fin (qs : list Qc) : np_sum (fin qs) = Fin (qsum qs).
Proof. apply fold_add_fin. Qed.

Lemma Qcsgn_nonzero (t : Qc) : t <> 0 -> Qcsgn t <> Eq.
Proof. intros H E. apply H. apply Qceq_alt. exact E. Qed.

Lemma F_div_fin (a t : Qc) : t <> 0 -> F.div (Fin a) (Fin t) = Fin (a / t).
Proof.
  intros H. cbn. apply Qcsgn_nonzero in H.
  destruct (Qcsgn t); [contradiction| |]; reflexivity.
Qed.

Lemma np_div_fin (qs : list Qc) (t : Qc) :
  t <> 0 -> np_div (fin qs) (Fin t) = fin (map (fun q => q / t) qs).
Proof.
  intros H. unfold np_div, fin. rewrite !map_map.
  apply map_ext. intros a. apply F_div_fin, H.
Qed.

Lemma cumsum_from_fin (qs : list Qc) (a : Qc) :
  cumsum_from (Fin a) (fin qs) = fin (qcumsum_from a qs).
Proof.
  revert a. induction qs as [|x qs IH]; intros a; cbn; [reflexivity|].
  f_equal. apply IH.
Qed.

Lemma np_cumsum_fin (qs : list Qc) : np_cumsum (fin qs) = fin (qcumsum qs).
Proof. apply cumsum_from_fin. Qed.

(** ** [percvar] on a finite array with a non-zero sum of absolute values *)

(** The percents are the descending arrangement [d] of the absolute values,
    each divided by their sum; the second component is the running sum of
    the percents. *)
Lemma percvar_fin (qs : list Qc) :
  qsum (map Qcabs qs) <> 0 ->
  exists d,
    Permutation d (map Qcabs qs) /\ descending d /\
    percvar (fin qs) =
      (fin (normalise d (qsum (map Qcabs qs))),
       fin (qcumsum (normalise d (qsum (map Qcabs qs))))).
Proof.
  intros Ht. unfold percvar. rewrite np_abs_fin.
  destruct (np_sort_fin (map Qcabs qs)) as (a & Ea & Pa & Sa).
  exists (rev a). split; [|split].
  - eapply Permutation_trans; [apply Permutation_sym, Permutation_rev|exact Pa].
  - apply (StronglySorted_rev Qcle). exact Sa.
  - rewrite Ea, rev_fin, np_sum_fin.
    assert (Es : qsum (rev a) = qsum (map Qcabs qs)).
    { apply qsum_perm. eapply Permutation_trans;
        [apply Permutation_sym, Permutation_rev|exact Pa]. }
    rewrite Es, (np_div_fin _ _ Ht), np_cumsum_fin. reflexivity.
Qed.

(** ** Order and arithmetic of rationals *)

Lemma Qcle_plus_nonneg (a x : Qc) : 0 <= x -> a <= a + x.
Proof.
  intros Hx. rewrite <- (Qcplus_0_r a) at 1.
  apply Qcplus_le_compat; [apply Qcle_refl|exact Hx].
Qed.

Lemma Qcinv_pos (t : Qc) : 0 < t -> 0 < / t.
Proof.
  unfold Qclt. cbn. rewrite Qred_correct. apply Qinv_lt_0_compat.
Qed.

Lemma Qclt_nonneg_nonzero (t : Qc) : 0 <= t -> t <> 0 -> 0 < t.
Proof.
  intros H0 Hn. destruct (Qcle_lt_or_eq _ _ H0) as [H|H]; [exact H|].
  congruence.
Qed.

Lemma Qcdiv_le_compat (a b t : Qc) : 0 < t -> a <= b -> a / t <= b / t.
Proof.
  intros Ht Hab. unfold Qcdiv. apply Qcmult_le_compat_r; [exact Hab|].
  apply Qclt_le_weak, Qcinv_pos, Ht.
Qed.

Lemma Qcdiv_nonneg (a t : Qc) : 0 < t -> 0 <= a -> 0 <= a / t.
Proof.
  intros Ht Ha. replace 0 with (0 / t) by (unfold Qcdiv; ring).
  apply Qcdiv_le_compat; assumption.
Qed.

Section Normalise.

Variables (d : list Qc) (t : Qc).
Hypothesis t_pos : 0 < t.

Lemma length_normalise : length (normalise d t) = length d.
Proof. apply length_map. Qed.

Lemma normalise_nonneg :
  Forall (fun q => 0 <= q) d -> Forall (fun q => 0 <= q) (normalise d t).
Proof.
  intros H. unfold normalise. rewrite Forall_map. revert H.
  apply Forall_impl. intros q. apply Qcdiv_nonneg, t_pos.
Qed.

Lemma normalise_descending : descending d -> descending (normalise d t).
Proof.
  unfold descending, normalise.
  induction 1 as [|x l Hs IH Hx]; cbn; constructor; [exact IH|].
  rewrite Forall_map. revert Hx. apply Forall_impl.
  intros y. apply Qcdiv_le_compat, t_pos.
Qed.

Lemma qsum_normalise : qsum (normalise d t) = qsum d / t.
Proof. apply (qsum_scale (/ t)). Qed.

Lemma qsum_normalise_one : qsum d = t -> qsum (normalise d t) = 1.
Proof.
  intros E. rewrite qsum_normalise, E. unfold Qcdiv.
  apply Qcmult_inv_r. apply not_eq_sym, Qclt_not_eq, t_pos.
Qed.

End Normalise.

Lemma abs_sum_pos (qs : list Qc) :
  qsum (map Qcabs qs) <> 0 -> 0 < qsum (map Qcabs qs).
Proof.
  apply Qclt_nonneg_nonzero, qsum_nonneg, Forall_abs_nonneg.
Qed.

Lemma descending_perm_unique (d1 d2 : list Qc) :
  descending d1 -> descending d2 -> Permutation d1 d2 -> d1 = d2.
Proof.
  apply sorted_perm_unique. intros x y H1 H2. apply Qcle_antisym; assumption.
Qed.

(** ** Reading finite arrays *)

(** An array is of the form [fin qs] exactly when it holds no infinity and
    no [nan]. *)
Lemma finite_fin (v : list float) :
  Forall (fun x => finite x = true) v <-> exists qs, v = fin qs.
Proof.
  split.
  - induction 1 as [|x v Hx _ (qs & ->)]; [exists []; reflexivity|].
    destruct x as [q| | |]; try discriminate Hx. exists (q :: qs). reflexivity.
  - intros (qs & ->). apply Forall_map, Forall_forall. reflexivity.
Qed.

Lemma length_fin (l : list Qc) : length (fin l) = length l.
Proof. apply length_map. Qed.

(** ** Degenerate inputs *)

Lemma np_sort_repeat (x : float) (n : nat) :
  np_sort (repeat x n) = repeat x n.
Proof.
  apply np_sort_unique; [apply Permutation_refl|].
  assert (Hx : sort_leb x x = true)
    by (destruct x as [a| | |]; cbn; auto using Qcleb_refl).
  induction n as [|n IH]; cbn; constructor; [exact IH|].
  apply Forall_forall. intros y Hy. apply repeat_spec in Hy. subst y. exact Hx.
Qed.

Lemma np_sum_zeros (n : nat) : np_sum (repeat (Fin 0) n) = Fin 0.
Proof.
  unfold np_sum. induction n as [|n IH]; cbn [repeat fold_left]; [reflexivity|].
  cbn [F.add]. rewrite Qcplus_0_l. exact IH.
Qed.

Lemma cumsum_from_nans (a : float) (n : nat) :
  cumsum_from a (repeat NaN n) = repeat NaN n.
Proof.
  revert a. induction n as [|n IH]; intros a; cbn [repeat cumsum_from]; [reflexivity|].
  assert (E : F.add a NaN = NaN) by (destruct a; reflexivity).
  rewrite E, IH. reflexivity.
Qed.

Lemma percvar_zeros (n : nat) :
  percvar (repeat (Fin 0) n) = (repeat NaN n, repeat NaN n).
Proof.
  unfold percvar, np_abs. rewrite map_repeat.
  assert (E : F.abs (Fin 0) = Fin 0)
    by (cbn; f_equal; apply Qcabs_pos, Qcle_refl).
  rewrite E, np_sort_repeat, rev_repeat, np_sum_zeros.
  unfold np_div. rewrite map_repeat.
  change (F.div (Fin 0) (Fin 0)) with NaN.
  unfold np_cumsum. rewrite cumsum_from_nans. reflexivity.
Qed.

Lemma StronglySorted_fin (R' : float -> float -> Prop) (R : Qc -> Qc -> Prop) :
  (forall a b, R a b -> R' (Fin a) (Fin b)) ->
  forall l, StronglySorted R l -> StronglySorted R' (fin l).
Proof.
  intros HR l. induction 1 as [|x l Hs IH Hx]; cbn; constructor; [exact IH|].
  apply Forall_map. revert Hx. apply Forall_impl. intros y. apply HR.
Qed.

(** What [percvar] returns on a finite array with a non-zero sum of
    absolute values, with the facts the claims below rest on. *)
Lemma percvar_fin_shape (qs : list Qc) :
  qsum (map Qcabs qs) <> 0 ->
  exists d P,
    Permutation d (map Qcabs qs) /\ descending d /\
    P = normalise d (qsum (map Qcabs qs)) /\
    percvar (fin qs) = (fin P, fin (qcumsum P)) /\
    length P = length qs /\
    Forall (fun q => 0 <= q) P /\ descending P /\ qsum P = 1.
Proof.
  intros Ht. destruct (percvar_fin qs Ht) as (d & Pd & Sd & E).
  pose proof (abs_sum_pos qs Ht) as Hpos.
  exists d, (normalise d (qsum (map Qcabs qs))).
  repeat split; auto.
  - rewrite length_normalise, (Permutation_length Pd). apply length_map.
  - apply normalise_nonneg; [exact Hpos|].
    eapply Permutation_Forall; [apply Permutation_sym, Pd|].
    apply Forall_abs_nonneg.
  - apply normalise_descending; assumption.
  - apply qsum_normalise_one; [exact Hpos|]. apply qsum_perm, Pd.
Qed.

(** ** Scaling *)

Lemma Qcabs_pos_nonzero (c : Qc) : c <> 0 -> 0 < Qcabs c.
Proof.
  intros Hc. apply Qclt_nonneg_nonzero; [apply Qcabs_nonneg|].
  intros H. apply Hc, Qcabs_null, H.
Qed.

Lemma abs_scale (c : Qc) (qs : list Qc) :
  map Qcabs (map (Qcmult c) qs) = map (Qcmult (Qcabs c)) (map Qcabs qs).
Proof. rewrite !map_map. apply map_ext. intros q. apply Qcabs_Qcmult. Qed.

Lemma descending_scale (k : Qc) (d : list Qc) :
  0 <= k -> descending d -> descending (map (Qcmult k) d).
Proof.
  intros Hk. unfold descending.
  induction 1 as [|x l Hs IH Hx]; cbn; constructor; [exact IH|].
  rewrite Forall_map. revert Hx. apply Forall_impl. intros y Hy.
  rewrite (Qcmult_comm k y), (Qcmult_comm k x).
  apply Qcmult_le_compat_r; assumption.
Qed.

Lemma abs_nonneg_id (l : list Qc) :
  Forall (fun q => 0 <= q) l -> map Qcabs l = l.
Proof.
  intros H. rewrite <- (map_id l) at 2. apply map_ext_Forall.
  revert H. apply Forall_impl. intros q. apply Qcabs_pos.
Qed.

(** * The claims *)

(** C2: for every vector [s] and every target [p] (in particular every
    fraction in [0,1]), if some index passes the inclusive test
    [s[i] >= p] then [perck s p] is the smallest 1-based index [k] with
    [s[k-1] >= p]; and if no index passes it, [perck s p] is the length of
    [s]. *)
Theorem perck_smallest_index (s : list float) (p : float) :
  ((exists i, (i < length s)%nat /\ F.geb (nth i s NaN) p = true) ->
   (1 <= perck s p <= length s)%nat /\
   F.geb (nth (perck s p - 1) s NaN) p = true /\
   forall k, (1 <= k < perck s p)%nat -> F.geb (nth (k - 1) s NaN) p = false)
  /\
  ((forall i, (i < length s)%nat -> F.geb (nth i s NaN) p = false) ->
   perck s p = length s).
Proof.
  unfold perck. destruct (perck_for s p (seq 0 (length s))) as [k|] eqn:E.
  - apply perck_for_Some in E. destruct E as (Hk & Hr & Hb). split.
    + intros _. repeat split; try lia; [exact Hr|].
      intros j Hj. apply (Hb (j - 1)%nat). lia.
    + intros Hnone. unfold reaches in Hr.
      rewrite (Hnone (k - 1)%nat) in Hr by lia. discriminate.
  - rewrite perck_for_None in E. split.
    + intros (i & Hi & Hr). unfold reaches in E.
      rewrite (E i) in Hr by lia. discriminate.
    + reflexivity.
Qed.

Lemma perck_smallest_index_witness :
  (let s := [dec 50; dec 100; dec 100] in
   (1 <= perck s (dec 100) <= length s)%nat /\
   F.geb (nth (perck s (dec 100) - 1) s NaN) (dec 100) = true /\
   forall k, (1 <= k < perck s (dec 100))%nat ->
             F.geb (nth (k - 1) s NaN) (dec 100) = false)
  /\ perck [dec 50; dec 60] (dec 100) = 2%nat.
Proof.
  split.
  - apply (proj1 (perck_smallest_index [dec 50; dec 100; dec 100] (dec 100))).
    exists 1%nat. split; [cbn; lia|vm_compute; reflexivity].
  - apply (proj2 (perck_smallest_index [dec 50; dec 60] (dec 100))).
    intros [|[|i]] Hi; [vm_compute; reflexivity..|cbn in Hi; lia].
Defined.

(** C5 (as stated, refuted): a call of [percvar] on the empty vector does
    not raise. *)
Lemma percvar_empty_does_not_raise :
  ~ exists e, call_percvar [] = Raises e.
Proof. intros [e H]. discriminate H. Qed.

(** C5 (amended): on the empty vector [percvar] raises nothing and returns
    the pair of empty vectors. *)
Theorem percvar_empty : call_percvar [] = Returns ([], []).
Proof. reflexivity. Qed.

(** C6 (as stated, refuted): a call of [percvar] on the all-zero vector
    [[0.0, 0.0]] does not raise. *)
Lemma percvar_zeros_does_not_raise :
  ~ exists e, call_percvar [Fin 0; Fin 0] = Raises e.
Proof. intros [e H]. discriminate H. Qed.

(** C6 (amended): on an all-zero vector of any length [n], [percvar] raises
    nothing; both vectors it returns have length [n] and every entry is
    [nan], the value of [0.0/0.0]. *)
Theorem percvar_all_zero (n : nat) :
  call_percvar (repeat (Fin 0) n) = Returns (repeat NaN n, repeat NaN n).
Proof. unfold call_percvar. rewrite percvar_zeros. reflexivity. Qed.

(** C7 (as stated, refuted): [v = [1.0, 0.0]] is non-empty and has a
    non-zero entry; its cumulative vector is [[1.0, 1.0]], of length 2, and
    [perck] at target 1 returns 1, not that length. *)
Lemma perck_one_short_of_length :
  fin [1; 0] <> [] /\ Exists (fun x => x <> Fin 0) (fin [1; 0]) /\
  perck (snd (percvar (fin [1; 0]))) (Fin 1) = 1%nat /\
  perck (snd (percvar (fin [1; 0]))) (Fin 1)
    <> length (snd (percvar (fin [1; 0]))).
Proof.
  split; [discriminate|]. split; [left; discriminate|].
  split; [vm_compute; reflexivity|]. vm_compute. discriminate.
Qed.

(** C9: on the thirteen values of the worked example, 5 dimensions account
    for 80% of the variance and 10 dimensions for 95%. *)
Theorem wine_scenario :
  perck (snd (percvar wine_v)) (dec 80) = 5%nat /\
  perck (snd (percvar wine_v)) (dec 95) = 10%nat.
Proof. split; vm_compute; reflexivity. Qed.

(** C10: [perck s p] never exceeds the length of [s], the value it falls
    back to when no index qualifies, and [perck] is monotone in its target:
    [p1 <= p2] implies [perck s p1 <= perck s p2]. *)
Theorem perck_monotone (s : list float) :
  (forall p, (perck s p <= length s)%nat) /\
  (forall p1 p2, F.leb p1 p2 = true -> (perck s p1 <= perck s p2)%nat).
Proof.
  split; [apply perck_le_length|]. intros p1 p2 Hp.
  pose proof (perck_le_length s p1) as Hlen.
  unfold perck at 2.
  destruct (perck_for s p2 (seq 0 (length s))) as [k2|] eqn:E2; [|exact Hlen].
  apply perck_for_Some in E2. destruct E2 as (Hk2 & Hr2 & _).
  assert (Hr1 : reaches s p1 (k2 - 1) = true).
  { unfold reaches, F.geb in *. eapply F_leb_trans; [exact Hp|exact Hr2]. }
  unfold perck.
  destruct (perck_for s p1 (seq 0 (length s))) as [k1|] eqn:E1.
  - apply perck_for_Some in E1. destruct E1 as (Hk1 & _ & Hb1).
    destruct (Nat.le_gt_cases k1 k2) as [Hle|Hgt]; [exact Hle|].
    rewrite (Hb1 (k2 - 1)%nat) in Hr1 by lia. discriminate.
  - rewrite perck_for_None in E1.
    rewrite (E1 (k2 - 1)%nat) in Hr1 by lia. discriminate.
Qed.

Lemma perck_monotone_witness :
  F.leb (dec 80) (dec 95) = true /\
  (perck (snd (percvar wine_v)) (dec 80)
   <= perck (snd (percvar wine_v)) (dec 95))%nat /\
  (perck (snd (percvar wine_v)) (dec 95) <= length (snd (percvar wine_v)))%nat.
Proof.
  split; [vm_compute; reflexivity|]. split.
  - apply (proj2 (perck_monotone (snd (percvar wine_v))) (dec 80) (dec 95)).
    vm_compute; reflexivity.
  - apply (proj1 (perck_monotone (snd (percvar wine_v))) (dec 95)).
Defined.

(** * Further properties of [percvar] and [perck] *)

(** ** Lengths, order of the input and signs *)

Lemma length_np_sort (v : list float) : length (np_sort v) = length v.
Proof. symmetry. apply Permutation_length, np_sort_perm. Qed.

Lemma length_cumsum_from (s : list float) (a : float) :
  length (cumsum_from a s) = length s.
Proof.
  revert a. induction s as [|x s IH]; intros a; cbn; [|rewrite IH]; reflexivity.
Qed.

Lemma np_sort_permutation (v w : list float) :
  Permutation v w -> np_sort v = np_sort w.
Proof.
  intros H. apply np_sort_unique; [|apply np_sort_sorted].
  eapply Permutation_trans; [exact H|apply np_sort_perm].
Qed.

Lemma F_abs_idem (x : float) : F.abs (F.abs x) = F.abs x.
Proof.
  destruct x as [q| | |]; cbn; try reflexivity.
  f_equal. apply Qcabs_pos, Qcabs_nonneg.
Qed.

Lemma F_abs_neg (x : float) : F.abs (F.neg x) = F.abs x.
Proof.
  destruct x as [q| | |]; cbn; try reflexivity.
  f_equal. apply Qcabs_opp.
Qed.

(** X1: for every array, special values included, both vectors
    returned by [percvar] have the length of the input. *)
Theorem percvar_length (v : list float) :
  length (fst (percvar v)) = length v /\ length (snd (percvar v)) = length v.
Proof.
  assert (H : length (fst (percvar v)) = length v).
  { unfold percvar, np_div, np_abs. cbn [fst].
    rewrite length_map, length_rev, length_np_sort. apply length_map. }
  split; [exact H|]. unfold percvar in *. cbn [fst snd] in *.
  unfold np_cumsum. rewrite length_cumsum_from. exact H.
Qed.

(** X2: [percvar] does not depend on the order of its input: two
    arrays that are rearrangements of one another give the same percents
    and the same cumulative vector. *)
Theorem percvar_permutation (v w : list float) :
  Permutation v w -> percvar v = percvar w.
Proof.
  intros H. unfold percvar.
  rewrite (np_sort_permutation (np_abs v) (np_abs w)); [reflexivity|].
  apply Permutation_map, H.
Qed.

Lemma percvar_permutation_witness :
  Permutation [dec 145; dec 473; NaN; dec 251] [dec 473; dec 251; dec 145; NaN] /\
  percvar [dec 145; dec 473; NaN; dec 251]
  = percvar [dec 473; dec 251; dec 145; NaN].
Proof.
  assert (H : Permutation [dec 145; dec 473; NaN; dec 251]
                          [dec 473; dec 251; dec 145; NaN]).
  { apply (perm_trans (l' := [dec 473; dec 145; NaN; dec 251]));
      [apply perm_swap|]. apply perm_skip.
    apply (perm_trans (l' := [dec 145; dec 251; NaN]));
      [apply perm_skip, perm_swap|apply perm_swap]. }
  split; [exact H|]. exact (percvar_permutation _ _ H).
Defined.

(** X3: [percvar] looks at absolute values only: taking absolute values
    first, or flipping the sign of every entry, changes neither vector it
    returns. *)
Theorem percvar_sign_blind (v : list float) :
  percvar (np_abs v) = percvar v /\ percvar (map F.neg v) = percvar v.
Proof.
  unfold percvar, np_abs. rewrite !map_map.
  rewrite (map_ext _ _ F_abs_idem), (map_ext _ _ F_abs_neg).
  split; reflexivity.
Qed.

(** ** Bounds of [perck] *)

Lemma perck_nonempty_pos (s : list float) (p : float) :
  s <> [] -> (1 <= perck s p)%nat.
Proof.
  intros Hs. unfold perck.
  destruct (perck_for s p (seq 0 (length s))) as [k|] eqn:E.
  - apply perck_for_Some in E. lia.
  - destruct s; [congruence|cbn; lia].
Qed.

(** X4: [perck] returns 0 exactly on the empty vector; on a non-empty
    vector its result is a valid 1-based position, between 1 and the
    length. *)
Theorem perck_range (s : list float) (p : float) :
  (perck s p = 0%nat <-> s = []) /\
  (s <> [] -> (1 <= perck s p <= length s)%nat).
Proof.
  split; [split|].
  - intros H0. destruct s as [|x s]; [reflexivity|].
    assert (Hx : x :: s <> []) by discriminate.
    pose proof (perck_nonempty_pos (x :: s) p Hx). lia.
  - intros ->. reflexivity.
  - intros Hs. split; [apply perck_nonempty_pos, Hs|apply perck_le_length].
Qed.

Lemma perck_range_witness :
  [dec 50; dec 100] <> [] /\
  (1 <= perck [dec 50; dec 100] (dec 80) <= length [dec 50; dec 100])%nat.
Proof.
  assert (H : [dec 50; dec 100] <> []) by discriminate.
  split; [exact H|].
  exact (proj2 (perck_range [dec 50; dec 100] (dec 80)) H).
Defined.

(** ** Arrays with [nan], infinities or only zeros *)

Lemma map_const_repeat {A B : Type} (c : B) (f : A -> B) (l : list A) :
  (forall x, f x = c) -> map f l = repeat c (length l).
Proof.
  intros Hf. induction l as [|x l IH]; cbn; [reflexivity|].
  rewrite Hf, IH. reflexivity.
Qed.

Lemma fold_add_from_nan (l : list float) : fold_left F.add l NaN = NaN.
Proof. induction l as [|x l IH]; cbn; [reflexivity|exact IH]. Qed.

Lemma fold_add_with_nan (l : list float) (a : float) :
  In NaN l -> fold_left F.add l a = NaN.
Proof.
  revert a. induction l as [|x l IH]; intros a Hin; [destruct Hin|].
  cbn [fold_left]. destruct Hin as [->|Hin].
  - assert (E : F.add a NaN = NaN) by (destruct a; reflexivity).
    rewrite E. apply fold_add_from_nan.
  - apply IH, Hin.
Qed.

Lemma cumsum_from_nan (s : list float) :
  cumsum_from NaN s = repeat NaN (length s).
Proof.
  induction s as [|x s IH]; cbn [cumsum_from]; [reflexivity|].
  change (F.add NaN x) with NaN. cbn [length repeat]. rewrite IH. reflexivity.
Qed.

Lemma fold_add_from_inf (l : list float) :
  Forall upper l -> fold_left F.add l PInf = PInf.
Proof.
  induction 1 as [|x l [Hx1 Hx2] _ IH]; cbn [fold_left]; [reflexivity|].
  destruct x as [q| | |]; try congruence; exact IH.
Qed.

Lemma fold_add_with_inf (l : list float) (q : Qc) :
  Forall upper l -> In PInf l -> fold_left F.add l (Fin q) = PInf.
Proof.
  intros Hl. revert q. induction Hl as [|x l [Hx1 Hx2] Hl IH]; intros q Hin;
    [destruct Hin|].
  cbn [fold_left]. destruct x as [a| | |]; try congruence.
  - destruct Hin as [E|Hin]; [discriminate E|]. apply IH, Hin.
  - apply fold_add_from_inf, Hl.
Qed.

(** The largest entry comes first after sorting and reversing. *)
Lemma sorted_rev_head_inf (a : list float) :
  Forall upper a -> In PInf a ->
  exists t, rev (np_sort a) = PInf :: t.
Proof.
  intros Ha Hin.
  pose proof (StronglySorted_rev _ _ (np_sort_sorted a)) as Hs.
  assert (Hp : Permutation a (rev (np_sort a)))
    by (eapply Permutation_trans; [apply np_sort_perm|apply Permutation_rev]).
  pose proof (Permutation_in _ Hp Hin) as Hin'.
  pose proof (Permutation_Forall Hp Ha) as Ha'.
  destruct (rev (np_sort a)) as [|h t]; [destruct Hin'|].
  exists t. f_equal. apply StronglySorted_inv in Hs. destruct Hs as [_ Hh].
  inversion_clear Ha' as [|? ? [Hh1 Hh2] _].
  destruct Hin' as [E|Hin']; [exact E|].
  rewrite Forall_forall in Hh. specialize (Hh _ Hin').
  destruct h as [q| | |]; try reflexivity; try congruence; discriminate Hh.
Qed.

Lemma np_abs_upper (v : list float) :
  ~ In NaN v -> Forall upper (np_abs v).
Proof.
  intros Hn. unfold np_abs. apply Forall_map, Forall_forall.
  intros x Hx. split; destruct x as [q| | |]; cbn; try discriminate.
  intros _. exact (Hn Hx).
Qed.

Lemma np_abs_inf (v : list float) :
  Exists (fun x => finite x = false) v -> ~ In NaN v -> In PInf (np_abs v).
Proof.
  intros Hex Hn. apply Exists_exists in Hex. destruct Hex as (x & Hx & Hf).
  unfold np_abs. apply in_map_iff. exists x. split; [|exact Hx].
  destruct x as [q| | |]; cbn in *; try reflexivity; try discriminate.
  contradiction.
Qed.

Lemma In_NaN_dec (v : list float) : {In NaN v} + {~ In NaN v}.
Proof.
  induction v as [|x v [IH|IH]].
  - right. intros [].
  - left. right. exact IH.
  - destruct x as [q| | |];
      try (right; intros [E|H]; [discriminate E|exact (IH H)]).
    left. left. reflexivity.
Qed.

(** With a [nan] in the input every entry of both results is [nan]. *)
Lemma percvar_with_nan (v : list float) :
  In NaN v ->
  percvar v = (repeat NaN (length v), repeat NaN (length v)).
Proof.
  intros Hin. unfold percvar.
  assert (Hs : In NaN (rev (np_sort (np_abs v)))).
  { apply in_rev. rewrite rev_involutive.
    eapply Permutation_in; [apply np_sort_perm|].
    unfold np_abs. apply (in_map F.abs _ _ Hin). }
  unfold np_sum. rewrite (fold_add_with_nan _ _ Hs).
  unfold np_div.
  rewrite (map_const_repeat NaN (fun x => F.div x NaN))
    by (intros x; destruct x; reflexivity).
  rewrite length_rev, length_np_sort. unfold np_abs at 1 2. rewrite length_map.
  unfold np_cumsum. rewrite cumsum_from_nans. reflexivity.
Qed.

(** With an infinity and no [nan] in the input, the first percent is
    [inf/inf = nan], and the running sum never recovers. *)
Lemma cumulative_with_inf (v : list float) :
  Exists (fun x => finite x = false) v -> ~ In NaN v ->
  snd (percvar v) = repeat NaN (length v).
Proof.
  intros Hex Hn.
  pose proof (np_abs_upper v Hn) as Hu.
  pose proof (np_abs_inf v Hex Hn) as Hi.
  destruct (sorted_rev_head_inf _ Hu Hi) as (t & Et).
  assert (Hlen : length (PInf :: t) = length v).
  { rewrite <- Et, length_rev, length_np_sort. apply length_map. }
  assert (Hsum : np_sum (PInf :: t) = PInf).
  { apply (fold_add_with_inf (PInf :: t) 0); [|left; reflexivity].
    rewrite <- Et. eapply Permutation_Forall; [|exact Hu].
    eapply Permutation_trans; [apply np_sort_perm|apply Permutation_rev]. }
  unfold percvar. cbn [snd]. rewrite Et, Hsum.
  unfold np_cumsum, np_div. cbn [map cumsum_from F.div F.add].
  rewrite cumsum_from_nan, length_map. cbn [length] in Hlen.
  rewrite <- Hlen. reflexivity.
Qed.

Lemma nth_repeat_nan (n i : nat) : nth i (repeat NaN n) NaN = NaN.
Proof.
  revert i. induction n as [|n IH]; intros [|i]; cbn; auto.
Qed.

Lemma perck_all_nan (n : nat) (p : float) : perck (repeat NaN n) p = n.
Proof.
  unfold perck.
  destruct (perck_for (repeat NaN n) p (seq 0 (length (repeat NaN n))))
    as [k|] eqn:E; [|apply repeat_length].
  apply perck_for_Some in E. destruct E as (_ & Hr & _).
  unfold reaches in Hr. rewrite nth_repeat_nan in Hr.
  destruct p; discriminate Hr.
Qed.

(** X5: if the input holds a [nan], an infinity, or nothing but zeros,
    every entry of the cumulative vector is [nan]; [perck] then finds no
    index for any target and returns the full length of the input. *)
Theorem perck_degenerate_input (v : list float) (p : float) :
  Exists (fun x => finite x = false) v \/ Forall (fun x => x = Fin 0) v ->
  snd (percvar v) = repeat NaN (length v) /\
  perck (snd (percvar v)) p = length v.
Proof.
  intros H.
  assert (E : snd (percvar v) = repeat NaN (length v)).
  { destruct H as [H|H].
    - destruct (In_NaN_dec v) as [Hn|Hn].
      + rewrite (percvar_with_nan v Hn). reflexivity.
      + apply cumulative_with_inf; assumption.
    - assert (H' : Forall (eq (Fin 0)) v)
        by (revert H; apply Forall_impl; intros x Hx; symmetry; exact Hx).
      apply Forall_eq_repeat in H'. rewrite H' at 1.
      rewrite percvar_zeros. reflexivity. }
  split; [exact E|]. rewrite E. apply perck_all_nan.
Qed.

Lemma perck_degenerate_input_witness :
  (Exists (fun x => finite x = false) [dec 473; PInf; dec 251] \/
   Forall (fun x => x = Fin 0) [dec 473; PInf; dec 251]) /\
  snd (percvar [dec 473; PInf; dec 251]) = repeat NaN 3 /\
  perck (snd (percvar [dec 473; PInf; dec 251])) (dec 80) = 3%nat.
Proof.
  assert (H : Exists (fun x => finite x = false) [dec 473; PInf; dec 251] \/
              Forall (fun x => x = Fin 0) [dec 473; PInf; dec 251])
    by (left; right; left; reflexivity).
  split; [exact H|].
  exact (perck_degenerate_input [dec 473; PInf; dec 251] (dec 80) H).
Defined.

(** X6: a [nan] target is reached by no entry: [perck s nan] is the
    length of [s], whatever [s] holds; and a [nan] anywhere in the input of
    [percvar] makes every percent and every cumulative entry [nan]. *)
Theorem nan_propagates (s v : list float) :
  perck s NaN = length s /\
  (In NaN v -> percvar v = (repeat NaN (length v), repeat NaN (length v))).
Proof.
  split; [|apply percvar_with_nan].
  unfold perck.
  destruct (perck_for s NaN (seq 0 (length s))) as [k|] eqn:E; [|reflexivity].
  apply perck_for_Some in E. destruct E as (_ & Hr & _).
  unfold reaches, F.geb in Hr. discriminate Hr.
Qed.

Lemma nan_propagates_witness :
  In NaN [dec 473; NaN] /\
  percvar [dec 473; NaN] = (repeat NaN 2, repeat NaN 2).
Proof.
  assert (H : In NaN [dec 473; NaN]) by (right; left; reflexivity).
  split; [exact H|].
  exact (proj2 (nan_propagates [] [dec 473; NaN]) H).
Defined.

(** ** What the result of [perck] means on a cumulative vector *)

Lemma perck_reached (s : list float) (p : float) (i : nat) :
  (i < length s)%nat -> reaches s p i = true ->
  (1 <= perck s p <= i + 1)%nat /\
  reaches s p (perck s p - 1) = true /\
  forall j, (j < perck s p - 1)%nat -> reaches s p j = false.
Proof.
  intros Hi Hr. unfold perck.
  destruct (perck_for s p (seq 0 (length s))) as [k|] eqn:E.
  - apply perck_for_Some in E. destruct E as (Hk & Hrk & Hb).
    repeat split; try lia; [|exact Hrk|intros j Hj; apply Hb; lia].
    destruct (Nat.le_gt_cases k (i + 1)) as [H|H]; [exact H|].
    rewrite (Hb i) in Hr by lia. discriminate.
  - rewrite perck_for_None in E. rewrite (E i) in Hr by lia. discriminate.
Qed.

Lemma perck_unreached (s : list float) (p : float) :
  (forall i, (i < length s)%nat -> reaches s p i = false) ->
  perck s p = length s.
Proof.
  intros H. unfold perck.
  destruct (perck_for s p (seq 0 (length s))) as [k|] eqn:E; [|reflexivity].
  apply perck_for_Some in E. destruct E as (Hk & Hr & _).
  rewrite H in Hr by lia. discriminate.
Qed.

Lemma perck_mono (s : list float) (p1 p2 : float) :
  F.leb p1 p2 = true -> (perck s p1 <= perck s p2)%nat.
Proof.
  intros Hp. unfold perck at 2.
  destruct (perck_for s p2 (seq 0 (length s))) as [k2|] eqn:E2;
    [|apply perck_le_length].
  apply perck_for_Some in E2. destruct E2 as (Hk2 & Hr2 & _).
  assert (Hr1 : reaches s p1 (k2 - 1) = true).
  { unfold reaches, F.geb in *. eapply F_leb_trans; [exact Hp|exact Hr2]. }
  pose proof (perck_reached s p1 (k2 - 1)%nat ltac:(lia) Hr1). lia.
Qed.

(** ** The report of the caller *)


(** ** A single value *)

(** X12: a vector with a single non-zero finite value gets the whole
    variance: [percvar] returns [[1.0]] twice, whatever the value and its
    sign. *)
Theorem percvar_singleton (x : Qc) :
  x <> 0 -> percvar [Fin x] = ([Fin 1]%list, [Fin 1]%list).
Proof.
  intros Hx.
  assert (Ht : qsum (map Qcabs [x]) <> 0).
  { apply abs_sum_nonzero_iff. left. exact Hx. }
  destruct (percvar_fin_shape [x]%list Ht)
    as (d & P & _ & _ & _ & E & HL & _ & _ & Hsum).
  change [Fin x]%list with (fin [x]%list). rewrite E.
  destruct P as [|a [|b P]]; try discriminate HL.
  rewrite qsum_cons, qsum_nil, Qcplus_0_r in Hsum. subst a.
  unfold qcumsum. cbn [qcumsum_from fin map]. rewrite Qcplus_0_l. reflexivity.
Qed.

Lemma percvar_singleton_witness :
  Q2Qc (-473 # 100) <> 0 /\
  percvar [Fin (Q2Qc (-473 # 100))] = ([Fin 1]%list, [Fin 1]%list).
Proof.
  assert (H : Q2Qc (-473 # 100) <> 0)
    by (intros H; apply (f_equal this) in H; vm_compute in H; discriminate H).
  split; [exact H|]. exact (percvar_singleton _ H).
Defined.

(** * Properties of the binary64 arithmetic *)

(** ** Rounding to binary64 *)

Section Rounding.

Local Open Scope Q_scope.


Lemma pow2_pos (k : Z) : 0 < pow2 k.
Proof. apply Qpower_0_lt. reflexivity. Qed.

Lemma pow2_add (a b : Z) : pow2 (a + b) == pow2 a * pow2 b.
Proof. apply Qpower_plus. discriminate. Qed.

Lemma pow2_le (a b : Z) : (a <= b)%Z -> pow2 a <= pow2 b.
Proof. intros H. apply Qpower_le_compat_l; [exact H|discriminate]. Qed.

Lemma pow2_lt (a b : Z) : (a < b)%Z -> pow2 a < pow2 b.
Proof. intros H. apply Qpower_lt_compat_l; [exact H|reflexivity]. Qed.

Lemma pow2_lt_inv (a b : Z) : pow2 a < pow2 b -> (a < b)%Z.
Proof. intros H. apply (Qpower_lt_compat_l_inv 2); [exact H|reflexivity]. Qed.

Lemma pow2_Z (k : Z) : (0 <= k)%Z -> pow2 k == inject_Z (2 ^ k).
Proof. intros H. unfold pow2. rewrite Zpower_Qpower by exact H. reflexivity. Qed.

(** Bounds of a positive integer by powers of two. *)
Lemma Zlog2_pow2 (a : Z) : (0 < a)%Z ->
  pow2 (Z.log2 a) <= inject_Z a /\ inject_Z a < pow2 (Z.log2 a + 1).
Proof.
  intros Ha. pose proof (Z.log2_spec a Ha) as [H1 H2].
  pose proof (Z.log2_nonneg a) as Hn.
  rewrite !pow2_Z by lia. split.
  - rewrite <- Zle_Qle. exact H1.
  - rewrite <- Zlt_Qlt. replace (Z.log2 a + 1)%Z with (Z.succ (Z.log2 a)) by lia.
    exact H2.
Qed.

Lemma ilog2_spec (q : Q) : 0 < q ->
  pow2 (ilog2 q) <= q /\ q < pow2 (ilog2 q + 1).
Proof.
  intros Hq. destruct q as [a b].
  assert (Ha : (0 < a)%Z).
  { unfold Qlt in Hq. cbn in Hq. lia. }
  pose proof (Zlog2_pow2 a Ha) as [A1 A2].
  pose proof (Zlog2_pow2 (Zpos b) eq_refl) as [B1 B2].
  assert (Hb : 0 < inject_Z (Zpos b)) by reflexivity.
  assert (Eq : (a # b) * inject_Z (Zpos b) == inject_Z a).
  { rewrite (Qmake_Qdiv a b). field. discriminate. }
  unfold ilog2. cbn [Qnum Qden].
  set (la := Z.log2 a) in *. set (lb := Z.log2 (Zpos b)) in *.
  set (q := a # b) in *. set (B := inject_Z (Zpos b)) in *.
  set (A := inject_Z a) in *.
  pose proof (pow2_pos (la - lb)) as P0.
  pose proof (pow2_pos lb) as Plb.
  assert (U : q < pow2 (la - lb + 1)).
  { apply (Qmult_lt_r _ _ B Hb). rewrite Eq.
    eapply Qlt_le_trans; [exact A2|].
    assert (E : pow2 (la + 1) == pow2 (la - lb + 1) * pow2 lb).
    { rewrite <- pow2_add. replace (la - lb + 1 + lb)%Z with (la + 1)%Z by ring.
      reflexivity. }
    rewrite E. apply Qmult_le_l; [apply pow2_pos|exact B1]. }
  destruct (Qle_bool (pow2 (la - lb)) q) eqn:T.
  - apply Qle_bool_iff in T. split; assumption.
  - assert (T' : q < pow2 (la - lb)).
    { apply Qnot_le_lt. intros H. apply Qle_bool_iff in H. congruence. }
    split.
    + apply Qlt_le_weak. apply (Qmult_lt_r _ _ B Hb). rewrite Eq.
      eapply Qlt_le_trans; [|exact A1].
      assert (E : pow2 la == pow2 (la - lb - 1) * pow2 (lb + 1)).
      { rewrite <- pow2_add. replace (la - lb - 1 + (lb + 1))%Z with la by ring.
        reflexivity. }
      rewrite E. apply Qmult_lt_l; [apply pow2_pos|exact B2].
    + replace (la - lb - 1 + 1)%Z with (la - lb)%Z by ring. exact T'.
Qed.

Lemma ilog2_unique (q : Q) (e : Z) :
  pow2 e <= q -> q < pow2 (e + 1) -> ilog2 q = e.
Proof.
  intros H1 H2.
  assert (Hq : 0 < q) by (eapply Qlt_le_trans; [apply pow2_pos|exact H1]).
  destruct (ilog2_spec q Hq) as [S1 S2].
  assert (ilog2 q < e + 1)%Z
    by (apply pow2_lt_inv; eapply Qle_lt_trans; [exact S1|exact H2]).
  assert (e < ilog2 q + 1)%Z
    by (apply pow2_lt_inv; eapply Qle_lt_trans; [exact H1|exact S2]).
  lia.
Qed.

Lemma ilog2_mono (q1 q2 : Q) : 0 < q1 -> q1 <= q2 -> (ilog2 q1 <= ilog2 q2)%Z.
Proof.
  intros H1 H12.
  assert (H2 : 0 < q2) by (eapply Qlt_le_trans; eassumption).
  destruct (ilog2_spec q1 H1) as [A _]. destruct (ilog2_spec q2 H2) as [_ B].
  assert (ilog2 q1 < ilog2 q2 + 1)%Z; [|lia].
  apply pow2_lt_inv. eapply Qle_lt_trans; [exact A|].
  eapply Qle_lt_trans; [exact H12|exact B].
Qed.

Lemma ilog2_comp (q1 q2 : Q) : 0 < q1 -> q1 == q2 -> ilog2 q1 = ilog2 q2.
Proof.
  intros H1 E. destruct (ilog2_spec q1 H1) as [A B].
  symmetry. apply ilog2_unique; rewrite <- E; assumption.
Qed.

(** Round half to even. *)
Lemma rhe_range (m : Q) :
  rhe m = Qfloor m \/ rhe m = (Qfloor m + 1)%Z.
Proof.
  unfold rhe. destruct (Qcompare _ _); auto. destruct (Z.even _); auto.
Qed.

Lemma rhe_comp (m1 m2 : Q) : m1 == m2 -> rhe m1 = rhe m2.
Proof.
  intros E. unfold rhe. rewrite (Qfloor_comp _ _ E).
  assert (E' : m1 - inject_Z (Qfloor m2) == m2 - inject_Z (Qfloor m2))
    by (rewrite E; reflexivity).
  rewrite (Qcompare_comp _ _ E' _ _ (Qeq_refl (1 # 2))). reflexivity.
Qed.

Lemma rhe_Z (n : Z) : rhe (inject_Z n) = n.
Proof.
  unfold rhe. rewrite Qfloor_Z.
  assert (E : inject_Z n - inject_Z n == 0) by ring.
  rewrite (Qcompare_comp _ _ E _ _ (Qeq_refl (1 # 2))). reflexivity.
Qed.

Lemma rhe_mono (m1 m2 : Q) : m1 <= m2 -> (rhe m1 <= rhe m2)%Z.
Proof.
  intros H. pose proof (Qfloor_resp_le _ _ H) as Hf.
  destruct (Z.eq_dec (Qfloor m1) (Qfloor m2)) as [E|E].
  - unfold rhe. rewrite E.
    destruct (Qcompare_spec (m1 - inject_Z (Qfloor m2)) (1 # 2)) as [A|A|A];
      destruct (Qcompare_spec (m2 - inject_Z (Qfloor m2)) (1 # 2)) as [B|B|B];
      try lia; try (destruct (Z.even (Qfloor m2)); lia);
      exfalso; lra.
  - destruct (rhe_range m1) as [-> | ->], (rhe_range m2) as [-> | ->]; try lia.
    (* rhe m1 = f1 + 1, rhe m2 = f2, f1 < f2 *) 
Qed.

Lemma rp_exp_ge (q : Q) : (-1022 <= rp_exp q)%Z.
Proof. unfold rp_exp. lia. Qed.

Lemma pow2_53_unit (e : Z) : inject_Z (2 ^ 53) * pow2 (e - 52) == pow2 (e + 1).
Proof.
  rewrite <- (pow2_Z 53) by lia. rewrite <- pow2_add.
  replace (53 + (e - 52))%Z with (e + 1)%Z by ring. reflexivity.
Qed.

Lemma pow2_52_unit (e : Z) : inject_Z (2 ^ 52) * pow2 (e - 52) == pow2 e.
Proof.
  rewrite <- (pow2_Z 52) by lia. rewrite <- pow2_add.
  replace (52 + (e - 52))%Z with e by ring. reflexivity.
Qed.

(** The scaled mantissa [q / u] of a positive [q]. *)
Lemma mant_upper (q : Q) : 0 < q ->
  q / pow2 (rp_exp q - 52) <= inject_Z (2 ^ 53).
Proof.
  intros Hq. destruct (ilog2_spec q Hq) as [_ U].
  apply Qle_shift_div_r; [apply pow2_pos|].
  rewrite pow2_53_unit. apply Qlt_le_weak.
  eapply Qlt_le_trans; [exact U|]. apply pow2_le. unfold rp_exp. lia.
Qed.

Lemma mant_lower (q : Q) : 0 < q -> (-1022 <= ilog2 q)%Z ->
  inject_Z (2 ^ 52) <= q / pow2 (rp_exp q - 52).
Proof.
  intros Hq He. destruct (ilog2_spec q Hq) as [Lo _].
  apply Qle_shift_div_l; [apply pow2_pos|].
  rewrite pow2_52_unit. unfold rp_exp. rewrite Z.max_l by lia. exact Lo.
Qed.

Lemma mant_nonneg (q : Q) : 0 < q -> 0 <= q / pow2 (rp_exp q - 52).
Proof.
  intros Hq. apply Qle_shift_div_l; [apply pow2_pos|].
  rewrite Qmult_0_l. apply Qlt_le_weak, Hq.
Qed.

Lemma rhe_mant_upper (q : Q) : 0 < q ->
  (rhe (q / pow2 (rp_exp q - 52)) <= 2 ^ 53)%Z.
Proof.
  intros Hq. rewrite <- (rhe_Z (2 ^ 53)). apply rhe_mono, mant_upper, Hq.
Qed.

Lemma rhe_mant_lower (q : Q) : 0 < q -> (-1022 <= ilog2 q)%Z ->
  (2 ^ 52 <= rhe (q / pow2 (rp_exp q - 52)))%Z.
Proof.
  intros Hq He. rewrite <- (rhe_Z (2 ^ 52)). apply rhe_mono, mant_lower; assumption.
Qed.

Lemma rhe_mant_nonneg (q : Q) : 0 < q ->
  (0 <= rhe (q / pow2 (rp_exp q - 52)))%Z.
Proof.
  intros Hq. rewrite <- (rhe_Z 0). apply rhe_mono, mant_nonneg, Hq.
Qed.

Lemma rp_val_nonneg (q : Q) : 0 < q -> 0 <= rp_val q.
Proof.
  intros Hq. unfold rp_val. apply Qmult_le_0_compat.
  - rewrite <- (Zle_Qle 0). apply rhe_mant_nonneg, Hq.
  - apply Qlt_le_weak, pow2_pos.
Qed.

Lemma rp_val_upper (q : Q) : 0 < q -> rp_val q <= pow2 (rp_exp q + 1).
Proof.
  intros Hq. unfold rp_val. rewrite <- pow2_53_unit.
  apply Qmult_le_compat_r; [|apply Qlt_le_weak, pow2_pos].
  rewrite <- Zle_Qle. apply rhe_mant_upper, Hq.
Qed.

Lemma rp_val_lower (q : Q) : 0 < q -> (-1022 <= ilog2 q)%Z ->
  pow2 (rp_exp q) <= rp_val q.
Proof.
  intros Hq He. unfold rp_val. rewrite <- pow2_52_unit at 1.
  apply Qmult_le_compat_r; [|apply Qlt_le_weak, pow2_pos].
  rewrite <- Zle_Qle. apply rhe_mant_lower; assumption.
Qed.

Lemma rp_exp_mono (q1 q2 : Q) : 0 < q1 -> q1 <= q2 -> (rp_exp q1 <= rp_exp q2)%Z.
Proof.
  intros H1 H12. pose proof (ilog2_mono q1 q2 H1 H12). unfold rp_exp. lia.
Qed.

Lemma rp_val_mono (q1 q2 : Q) : 0 < q1 -> q1 <= q2 -> rp_val q1 <= rp_val q2.
Proof.
  intros H1 H12.
  assert (H2 : 0 < q2) by (eapply Qlt_le_trans; eassumption).
  pose proof (rp_exp_mono q1 q2 H1 H12) as He.
  destruct (Z.eq_dec (rp_exp q1) (rp_exp q2)) as [E|E].
  - unfold rp_val. rewrite E.
    apply Qmult_le_compat_r; [|apply Qlt_le_weak, pow2_pos].
    rewrite <- Zle_Qle. apply rhe_mono.
    apply Qmult_le_compat_r; [exact H12|].
    apply Qlt_le_weak, Qinv_lt_0_compat, pow2_pos.
  - eapply Qle_trans; [apply rp_val_upper, H1|].
    eapply Qle_trans; [apply (pow2_le _ (rp_exp q2)); lia|].
    apply rp_val_lower; [exact H2|].
    pose proof (rp_exp_ge q1). unfold rp_exp in *. lia.
Qed.

Lemma rp_exp_comp (q1 q2 : Q) : 0 < q1 -> q1 == q2 -> rp_exp q1 = rp_exp q2.
Proof. intros H E. unfold rp_exp. rewrite (ilog2_comp q1 q2 H E). reflexivity. Qed.

Lemma rp_val_comp (q1 q2 : Q) : 0 < q1 -> q1 == q2 -> rp_val q1 == rp_val q2.
Proof.
  intros H E. unfold rp_val. rewrite (rp_exp_comp q1 q2 H E).
  rewrite (rhe_comp (q1 / pow2 (rp_exp q2 - 52)) (q2 / pow2 (rp_exp q2 - 52)))
    by (rewrite E; reflexivity).
  reflexivity.
Qed.

(** A value [n * 2^(e-52)] with [e >= -1022], [0 < n <= 2^53], and
    [2^52 <= n] unless [e = -1022], is left unchanged. *)
Lemma rp_val_fixed (n e : Z) :
  (-1022 <= e)%Z -> (0 < n <= 2 ^ 53)%Z -> (2 ^ 52 <= n \/ e = -1022)%Z ->
  rp_val (inject_Z n * pow2 (e - 52)) == inject_Z n * pow2 (e - 52).
Proof.
  intros He Hn Hc. set (r := inject_Z n * pow2 (e - 52)).
  pose proof (pow2_pos (e - 52)) as Pu.
  assert (Hr : 0 < r).
  { unfold r. apply Qmult_lt_0_compat; [|exact Pu]. rewrite <- (Zlt_Qlt 0). lia. }
  destruct (Z.eq_dec n (2 ^ 53)) as [En|En].
  - (* n = 2^53: the value is 2^(e+1) *)
    assert (Er : r == pow2 (e + 1)) by (unfold r; rewrite En; apply pow2_53_unit).
    assert (Ei : ilog2 r = (e + 1)%Z).
    { apply ilog2_unique; rewrite Er; [apply Qle_refl|apply pow2_lt; lia]. }
    unfold rp_val, rp_exp. rewrite Ei, Z.max_l by lia.
    replace (e + 1 - 52)%Z with (e - 51)%Z by ring.
    assert (Em : r / pow2 (e - 51) == inject_Z (2 ^ 52)).
    { rewrite Er. rewrite <- (pow2_52_unit (e + 1)).
      replace (e + 1 - 52)%Z with (e - 51)%Z by ring.
      field. apply Qnot_eq_sym, Qlt_not_eq, pow2_pos. }
    rewrite (rhe_comp _ _ Em), rhe_Z, Er.
    rewrite <- (pow2_52_unit (e + 1)).
    replace (e + 1 - 52)%Z with (e - 51)%Z by ring. reflexivity.
  - assert (Ex : rp_exp r = e).
    { unfold rp_exp. destruct (Z_lt_le_dec n (2 ^ 52)) as [Hs|Hs].
      + assert (e = -1022)%Z by lia. subst e.
        assert (r < pow2 (-1022)).
        { unfold r. rewrite <- (pow2_52_unit (-1022)).
          apply Qmult_lt_compat_r; [exact Pu|]. rewrite <- Zlt_Qlt. exact Hs. }
        destruct (ilog2_spec r Hr) as [Lo _].
        assert (ilog2 r < -1022)%Z
          by (apply pow2_lt_inv; eapply Qle_lt_trans; eassumption).
        lia.
      + assert (Ei : ilog2 r = e).
        { apply ilog2_unique.
          - unfold r. rewrite <- (pow2_52_unit e) at 1.
            apply Qmult_le_compat_r; [|apply Qlt_le_weak, Pu].
            rewrite <- Zle_Qle. exact Hs.
          - unfold r. rewrite <- pow2_53_unit.
            apply Qmult_lt_compat_r; [exact Pu|]. rewrite <- Zlt_Qlt. lia. }
        rewrite Ei. lia. }
    unfold rp_val. rewrite Ex.
    assert (Em : r / pow2 (e - 52) == inject_Z n).
    { unfold r. field. apply Qnot_eq_sym, Qlt_not_eq, Pu. }
    rewrite (rhe_comp _ _ Em), rhe_Z. reflexivity.
Qed.

Lemma rp_val_idem (q : Q) : 0 < q -> 0 < rp_val q ->
  rp_val (rp_val q) == rp_val q.
Proof.
  intros Hq Hr. unfold rp_val at 2 3.
  set (n := rhe (q / pow2 (rp_exp q - 52))) in *.
  assert (Hn : (0 < n)%Z).
  { destruct (Z_lt_le_dec 0 n) as [H|H]; [exact H|exfalso].
    unfold rp_val in Hr. fold n in Hr.
    assert (inject_Z n * pow2 (rp_exp q - 52) <= 0); [|lra].
    rewrite <- (Qmult_0_l (pow2 (rp_exp q - 52))).
    apply Qmult_le_compat_r; [|apply Qlt_le_weak, pow2_pos].
    rewrite Zle_Qle in H. exact H. }
  apply rp_val_fixed.
  - apply rp_exp_ge.
  - split; [exact Hn|apply rhe_mant_upper, Hq].
  - destruct (Z_lt_le_dec (ilog2 q) (-1022)) as [H|H].
    + right. unfold rp_exp. lia.
    + left. apply rhe_mant_lower; assumption.
Qed.
End Rounding.

(** ** The error of one rounding *)

Section RoundingError.

Local Open Scope Q_scope.

Lemma rhe_error (m : Q) :
  inject_Z (rhe m) - m <= 1 # 2 /\ m - inject_Z (rhe m) <= 1 # 2.
Proof.
  pose proof (Qfloor_le m) as Hlo. pose proof (Qlt_floor m) as Hhi.
  rewrite inject_Z_plus in Hhi. change (inject_Z 1) with 1 in Hhi.
  unfold rhe.
  destruct (Qcompare (m - inject_Z (Qfloor m)) (1 # 2)) eqn:E.
  - apply Qeq_alt in E. destruct (Z.even (Qfloor m)).
    + split; lra.
    + rewrite inject_Z_plus. change (inject_Z 1) with 1. split; lra.
  - apply Qlt_alt in E. split; lra.
  - apply Qgt_alt in E. rewrite inject_Z_plus. change (inject_Z 1) with 1.
    split; lra.
Qed.

Lemma pow2_half (e : Z) : pow2 (e - 52) * (1 # 2) == pow2 (e - 53).
Proof.
  replace (e - 52)%Z with ((e - 53) + 1)%Z by lia. rewrite pow2_add.
  change (pow2 1) with 2. field.
Qed.

(** A positive number moves by at most half a unit in the last place. *)
Lemma rp_val_error (q : Q) : 0 < q ->
  rp_val q - q <= pow2 (rp_exp q - 53) /\ q - rp_val q <= pow2 (rp_exp q - 53).
Proof.
  intros Hq. unfold rp_val.
  set (P := pow2 (rp_exp q - 52)).
  assert (HP : 0 < P) by apply pow2_pos.
  destruct (rhe_error (q / P)) as [H1 H2].
  assert (Eq : q == (q / P) * P) by (field; lra).
  rewrite <- (pow2_half (rp_exp q)). fold P.
  set (R := inject_Z (rhe (q / P))) in *.
  set (m := q / P) in *.
  split.
  - assert (H : (R - m) * P <= (1 # 2) * P)
      by (apply Qmult_le_compat_r; lra).
    nra.
  - assert (H : (m - R) * P <= (1 # 2) * P)
      by (apply Qmult_le_compat_r; lra).
    nra.
Qed.

(** In the normal range the error is relative. *)
Lemma rp_val_relative (q : Q) : 0 < q -> (-1022 <= ilog2 q)%Z ->
  (1 - pow2 (-53)) * q <= rp_val q /\ rp_val q <= (1 + pow2 (-53)) * q.
Proof.
  intros Hq He. destruct (rp_val_error q Hq) as [H1 H2].
  assert (Ee : rp_exp q = ilog2 q) by (unfold rp_exp; lia).
  rewrite Ee in H1, H2.
  assert (Hu : pow2 (ilog2 q - 53) <= pow2 (-53) * q).
  { replace (ilog2 q - 53)%Z with (-53 + ilog2 q)%Z by lia.
    rewrite pow2_add. apply Qmult_le_l; [apply pow2_pos|].
    apply (ilog2_spec q Hq). }
  split; lra.
Qed.

(** Below the normal range the error is at most [2^-1075]. *)
Lemma rp_val_absolute (q : Q) : 0 < q -> (ilog2 q < -1022)%Z ->
  rp_val q - q <= pow2 (-1075) /\ q - rp_val q <= pow2 (-1075).
Proof.
  intros Hq He. destruct (rp_val_error q Hq) as [H1 H2].
  assert (Ee : rp_exp q = (-1022)%Z) by (unfold rp_exp; lia).
  rewrite Ee in H1, H2. exact (conj H1 H2).
Qed.

(** Rounded numbers are multiples of [2^-1074]. *)
Lemma rp_val_grid (q : Q) : 0 < q ->
  exists z : Z, rp_val q == inject_Z z * pow2 (-1074).
Proof.
  intros Hq. unfold rp_val. pose proof (rp_exp_ge q) as He.
  exists (rhe (q / pow2 (rp_exp q - 52)) * 2 ^ (rp_exp q + 1022))%Z.
  rewrite inject_Z_mult. rewrite <- (pow2_Z (rp_exp q + 1022)) by lia.
  set (A := inject_Z (rhe (q / pow2 (rp_exp q - 52)))).
  replace (rp_exp q - 52)%Z with ((rp_exp q + 1022) + -1074)%Z by lia.
  rewrite pow2_add. ring.
Qed.

(** A multiple of [2^-1074] below the normal range is not changed. *)
Lemma rp_val_small_exact (q : Q) (z : Z) :
  0 < q -> q == inject_Z z * pow2 (-1074) -> q < pow2 (-1022) ->
  rp_val q == q.
Proof.
  intros Hq E Hs.
  assert (P : 0 < pow2 (-1074)) by apply pow2_pos.
  assert (Hz : (0 < z)%Z).
  { apply Z.lt_nge. intros Hz. rewrite Zle_Qle in Hz.
    assert (inject_Z z * pow2 (-1074) <= 0).
    { rewrite <- (Qmult_0_l (pow2 (-1074))).
      apply Qmult_le_compat_r; [exact Hz|lra]. }
    lra. }
  assert (Hz2 : (z < 2 ^ 52)%Z).
  { apply Z.lt_nge. intros Hge. rewrite Zle_Qle in Hge.
    rewrite <- (pow2_Z 52) in Hge by lia.
    assert (pow2 52 * pow2 (-1074) <= inject_Z z * pow2 (-1074))
      by (apply Qmult_le_compat_r; [exact Hge|lra]).
    rewrite <- pow2_add in H. change (52 + -1074)%Z with (-1022)%Z in H.
    lra. }
  rewrite (rp_val_comp q (inject_Z z * pow2 (-1074)) Hq E).
  rewrite E. change (-1074)%Z with (-1022 - 52)%Z.
  apply rp_val_fixed; lia.
Qed.

End RoundingError.

(** ** Rounding of canonical rationals *)

Lemma this_Q2Qc (x : Q) : (this (Q2Qc x) == x)%Q.
Proof. apply Qred_correct. Qed.

Lemma Qc_pos_this (q : Qc) : 0 < q -> (0 < this q)%Q.
Proof. intros H. exact H. Qed.

Lemma Q2Qc_nonneg (x : Q) : (0 <= x)%Q -> 0 <= Q2Qc x.
Proof.
  intros H. unfold Qcle. rewrite (this_Q2Qc x). exact H.
Qed.

Lemma Q2Qc_le (x y : Q) : (x <= y)%Q -> Q2Qc x <= Q2Qc y.
Proof.
  intros H. unfold Qcle. rewrite (this_Q2Qc x), (this_Q2Qc y). exact H.
Qed.

Lemma Qle_bool_false (x y : Q) : Qle_bool x y = false -> (y < x)%Q.
Proof.
  intros H. apply Qnot_le_lt. intros L. apply Qle_bool_iff in L. congruence.
Qed.

Lemma rnd64_zero : rnd64 0 = Fin 0.
Proof. reflexivity. Qed.

Lemma rnd64_pos (q : Qc) : 0 < q -> rnd64 q = round_pos q.
Proof.
  intros H. assert (E : (q ?= 0) = Gt) by (apply Qcgt_alt; exact H).
  unfold rnd64. rewrite E. reflexivity.
Qed.

Lemma rnd64_neg (q : Qc) : q < 0 -> rnd64 q = F.neg (round_pos (- q)).
Proof.
  intros H. assert (E : (q ?= 0) = Lt) by (apply Qclt_alt; exact H).
  unfold rnd64. rewrite E. reflexivity.
Qed.

Lemma round_pos_comp (q1 q2 : Q) :
  (0 < q1)%Q -> (q1 == q2)%Q -> round_pos q1 = round_pos q2.
Proof.
  intros H0 E. pose proof (rp_val_comp q1 q2 H0 E) as Ev.
  unfold round_pos.
  destruct (Qle_bool (pow2 1024) (rp_val q1)) eqn:O1;
    destruct (Qle_bool (pow2 1024) (rp_val q2)) eqn:O2.
  - reflexivity.
  - apply Qle_bool_iff in O1. rewrite Ev in O1. apply Qle_bool_iff in O1.
    congruence.
  - apply Qle_bool_iff in O2. rewrite <- Ev in O2. apply Qle_bool_iff in O2.
    congruence.
  - f_equal. apply Q2Qc_eq_iff. exact Ev.
Qed.

(** A rounded positive number is an infinity or a non-negative number that
    rounds to itself. *)
Lemma round_pos_magnitude (q : Qc) : 0 < q -> magnitude (round_pos q).
Proof.
  intros Hq. pose proof (Qc_pos_this q Hq) as Hq'.
  unfold round_pos. destruct (Qle_bool (pow2 1024) (rp_val q)) eqn:Ov.
  - left. reflexivity.
  - right. exists (Q2Qc (rp_val q)). split; [reflexivity|].
    pose proof (rp_val_nonneg q Hq') as Hnn.
    split; [apply Q2Qc_nonneg; exact Hnn|].
    unfold b64.
    destruct (Qle_lt_or_eq _ _ Hnn) as [Hpos|Hz].
    + assert (Hr : 0 < Q2Qc (rp_val q)).
      { unfold Qclt. rewrite (this_Q2Qc (rp_val q)). exact Hpos. }
      rewrite (rnd64_pos _ Hr). unfold round_pos.
      assert (E : (rp_val (Q2Qc (rp_val q)) == rp_val q)%Q).
      { rewrite (rp_val_comp (Q2Qc (rp_val q)) (rp_val q)).
        - apply rp_val_idem; assumption.
        - exact Hr.
        - apply this_Q2Qc. }
      destruct (Qle_bool (pow2 1024) (rp_val (Q2Qc (rp_val q)))) eqn:Ov'.
      * apply Qle_bool_iff in Ov'. rewrite E in Ov'.
        apply Qle_bool_iff in Ov'. congruence.
      * f_equal. apply Q2Qc_eq_iff. exact E.
    + assert (Hr : Q2Qc (rp_val q) = 0).
      { apply Qc_is_canon. rewrite (this_Q2Qc (rp_val q)). symmetry. exact Hz. }
      rewrite Hr. reflexivity.
Qed.

Lemma rnd64_magnitude (q : Qc) : 0 <= q -> magnitude (rnd64 q).
Proof.
  intros H. destruct (Qc_eq_dec q 0) as [->|Hn].
  - right. exists 0. split; [reflexivity|].
    split; [apply Qcle_refl|reflexivity].
  - assert (Hq : 0 < q).
    { apply Qcle_lt_or_eq in H. destruct H as [H|H]; [exact H|].
      exfalso. apply Hn. symmetry. exact H. }
    rewrite (rnd64_pos q Hq). apply round_pos_magnitude. exact Hq.
Qed.

Lemma round_pos_mono (a b : Qc) :
  0 < a -> a <= b -> F.leb (round_pos a) (round_pos b) = true.
Proof.
  intros Ha Hab. pose proof (Qc_pos_this a Ha) as Ha'.
  pose proof (rp_val_mono a b Ha' Hab) as Hm.
  unfold round_pos.
  destruct (Qle_bool (pow2 1024) (rp_val b)) eqn:Ob.
  - destruct (Qle_bool (pow2 1024) (rp_val a)); reflexivity.
  - destruct (Qle_bool (pow2 1024) (rp_val a)) eqn:Oa.
    + apply Qle_bool_iff in Oa. apply Qle_bool_false in Ob.
      exfalso. apply (Qlt_irrefl (rp_val b)).
      eapply Qlt_le_trans; [exact Ob|].
      eapply Qle_trans; [exact Oa|exact Hm].
    + cbn [F.leb]. apply Qcleb_le. apply Q2Qc_le. exact Hm.
Qed.

(** Rounding is monotone on non-negative numbers. *)
Lemma rnd64_mono (a b : Qc) :
  0 <= a -> a <= b -> F.leb (rnd64 a) (rnd64 b) = true.
Proof.
  intros Ha Hab. destruct (Qc_eq_dec a 0) as [->|Hn].
  - destruct (rnd64_magnitude b Hab) as [E|(r & E & Hr & _)]; rewrite E.
    + reflexivity.
    + rewrite rnd64_zero. cbn [F.leb]. apply Qcleb_le. exact Hr.
  - assert (Hq : 0 < a).
    { apply Qcle_lt_or_eq in Ha. destruct Ha as [H|H]; [exact H|].
      exfalso. apply Hn. symmetry. exact H. }
    assert (Hb : 0 < b) by (eapply Qclt_le_trans; eassumption).
    rewrite (rnd64_pos a Hq), (rnd64_pos b Hb).
    apply round_pos_mono; assumption.
Qed.

Lemma F_neg_involutive (x : float) : F.neg (F.neg x) = x.
Proof. destruct x; cbn; try reflexivity. f_equal. apply Qcopp_involutive. Qed.

(** The absolute value of a binary64 number is a binary64 number. *)
Lemma b64_abs (q : Qc) : b64 q -> b64 (Qcabs q).
Proof.
  unfold b64. intros H. destruct (Qclt_le_dec q 0) as [Hneg|Hpos].
  - rewrite (Qcabs_neg q) by (apply Qclt_le_weak; exact Hneg).
    rewrite (rnd64_neg q Hneg) in H.
    assert (Hp : 0 < - q).
    { apply Qclt_minus_iff in Hneg. rewrite Qcplus_0_l in Hneg. exact Hneg. }
    rewrite (rnd64_pos _ Hp).
    apply (f_equal F.neg) in H. rewrite F_neg_involutive in H.
    etransitivity; [|exact H].
    apply round_pos_comp; [exact Hp|]. apply Qred_correct.
  - rewrite (Qcabs_pos q Hpos). exact H.
Qed.

Lemma feqb_eq (x y : float) : feqb x y = true <-> x = y.
Proof.
  split.
  - destruct x as [a| | |], y as [b| | |]; cbn; try discriminate; try reflexivity.
    intros H. f_equal. apply Qc_is_canon. apply Qeq_bool_iff. exact H.
  - intros <-. destruct x as [a| | |]; cbn; try reflexivity.
    apply Qeq_bool_iff. reflexivity.
Qed.

Lemma list_feqb_eq (l1 l2 : list float) : list_feqb l1 l2 = true <-> l1 = l2.
Proof.
  revert l2. induction l1 as [|x r1 IH]; intros [|y r2]; cbn;
    try (split; [discriminate|discriminate]); try (split; reflexivity).
  rewrite andb_true_iff, feqb_eq, IH. split.
  - intros [-> ->]. reflexivity.
  - intros E. injection E as -> ->. split; reflexivity.
Qed.

Lemma list_feqb_neq (l1 l2 : list float) : list_feqb l1 l2 = false -> l1 <> l2.
Proof.
  intros H E. apply list_feqb_eq in E. congruence.
Qed.

Lemma b64_feqb (q : Qc) : feqb (rnd64 q) (Fin q) = true -> b64 q.
Proof. apply feqb_eq. Qed.

Lemma b64_zero : b64 0.
Proof. reflexivity. Qed.

Lemma b64_one : b64 1.
Proof. apply b64_feqb. vm_compute. reflexivity. Qed.

(** ** Agreement with the IEEE 754 operations of the standard library *)

(** On every pair of [operands], addition, multiplication and division of
    [F64] return what [SFadd], [SFmul] and [SFdiv] return for binary64. *)
Lemma F64_agrees_with_SpecFloat :
  forallb (agree F64.add (SFadd 53 1024)) operands = true /\
  forallb (agree F64.mul (SFmul 53 1024)) operands = true /\
  forallb (agree F64.div (SFdiv 53 1024)) operands = true.
Proof. repeat split; vm_compute; reflexivity. Qed.

(** ** Sums of magnitudes *)

Lemma magnitude_fin (q : Qc) : 0 <= q -> b64 q -> magnitude (Fin q).
Proof. intros H B. right. exists q. auto. Qed.

Lemma magnitude_leb_refl (x : float) : magnitude x -> F.leb x x = true.
Proof.
  intros [->|(q & -> & _)]; [reflexivity|]. cbn. apply Qcleb_refl.
Qed.

Lemma magnitude_nonneg (x : float) : magnitude x -> F.leb (Fin 0) x = true.
Proof.
  intros [->|(q & -> & H & _)]; [reflexivity|]. cbn. apply Qcleb_le. exact H.
Qed.

(** A magnitude above a positive number is positive. *)
Lemma magnitude_above_positive (x : float) (q : Qc) :
  magnitude x -> 0 < q -> F.leb (Fin q) x = true -> positive64 x.
Proof.
  intros [->|(r & -> & _ & B)] Hq L; [left; reflexivity|].
  right. exists r. split; [reflexivity|]. split; [|exact B].
  cbn in L. apply Qcleb_le in L. eapply Qclt_le_trans; eassumption.
Qed.

Lemma F64_add_zero_l (x : float) : magnitude x -> F64.add (Fin 0) x = x.
Proof.
  intros [->|(q & -> & _ & B)]; [reflexivity|].
  cbn. rewrite Qcplus_0_l. exact B.
Qed.

(** Adding two magnitudes gives a magnitude that is not below either. *)
Lemma F64_add_magnitude (a b : float) :
  magnitude a -> magnitude b ->
  magnitude (F64.add a b) /\
  F.leb a (F64.add a b) = true /\ F.leb b (F64.add a b) = true.
Proof.
  intros [->|(x & -> & Hx & Bx)] [->|(y & -> & Hy & By)];
    cbn [F64.add F.add].
  - split; [left; reflexivity|]. split; reflexivity.
  - split; [left; reflexivity|]. split; reflexivity.
  - split; [left; reflexivity|]. split; reflexivity.
  - split; [apply rnd64_magnitude, Qcplus_nonneg; assumption|].
    unfold b64 in Bx, By. split.
    + rewrite <- Bx at 1. apply rnd64_mono; [exact Hx|].
      apply Qcle_plus_nonneg. exact Hy.
    + rewrite <- By at 1. apply rnd64_mono; [exact Hy|].
      rewrite Qcplus_comm. apply Qcle_plus_nonneg. exact Hx.
Qed.

Lemma sum_loop_dominates (l : list float) (acc : float) :
  magnitude acc -> Forall magnitude l ->
  magnitude (sum_loop acc l) /\
  F.leb acc (sum_loop acc l) = true /\
  Forall (fun y => F.leb y (sum_loop acc l) = true) l.
Proof.
  unfold sum_loop. revert acc. induction l as [|x l IH]; intros acc Ha Hl; cbn.
  - split; [exact Ha|]. split; [apply magnitude_leb_refl; exact Ha|constructor].
  - apply Forall_cons_iff in Hl. destruct Hl as [Hx Hl].
    destruct (F64_add_magnitude acc x Ha Hx) as (Hm & La & Lx).
    destruct (IH _ Hm Hl) as (Hm' & L' & Hall).
    split; [exact Hm'|]. split.
    + eapply F_leb_trans; eassumption.
    + constructor; [eapply F_leb_trans; eassumption|exact Hall].
Qed.

Lemma covered_refl (l : list float) : Forall magnitude l -> covered l l.
Proof.
  intros H. unfold covered. apply Forall_forall. intros y Hy.
  apply Exists_exists. exists y. split; [exact Hy|].
  apply magnitude_leb_refl. rewrite Forall_forall in H. apply H, Hy.
Qed.

Lemma covered_trans (l m r : list float) :
  covered l m -> covered m r -> covered l r.
Proof.
  unfold covered. rewrite !Forall_forall. intros H1 H2 y Hy.
  destruct (proj1 (Exists_exists _ _) (H1 y Hy)) as (x & Hx & Lx).
  destruct (proj1 (Exists_exists _ _) (H2 x Hx)) as (z & Hz & Lz).
  apply Exists_exists. exists z. split; [exact Hz|].
  eapply F_leb_trans; eassumption.
Qed.

Lemma covered_app (l1 l2 r : list float) :
  covered l1 r -> covered l2 r -> covered (l1 ++ l2) r.
Proof. unfold covered. intros H1 H2. apply Forall_app. split; assumption. Qed.

Lemma covered_incl (l r r' : list float) :
  covered l r -> incl r r' -> covered l r'.
Proof.
  unfold covered. rewrite !Forall_forall. intros H I y Hy.
  destruct (proj1 (Exists_exists _ _) (H y Hy)) as (x & Hx & Lx).
  apply Exists_exists. exists x. split; [apply I, Hx|exact Lx].
Qed.

Lemma add_lanes_dominates (r a : list float) :
  length r = length a -> Forall magnitude r -> Forall magnitude a ->
  length (add_lanes r a) = length r /\
  Forall magnitude (add_lanes r a) /\
  covered (r ++ a) (add_lanes r a).
Proof.
  revert a. induction r as [|x r IH]; intros [|y a] E Hr Ha; cbn in E;
    try discriminate.
  - cbn. split; [reflexivity|]. split; constructor.
  - apply Forall_cons_iff in Hr. destruct Hr as [Hx Hr].
    apply Forall_cons_iff in Ha. destruct Ha as [Hy Ha].
    injection E as E.
    destruct (IH a E Hr Ha) as (EL & HM & HC).
    destruct (F64_add_magnitude x y Hx Hy) as (Hm & Lx & Ly).
    cbn [add_lanes]. split; [cbn; rewrite EL; reflexivity|].
    split; [constructor; assumption|].
    unfold covered in *. rewrite Forall_forall in *. intros z Hz.
    cbn in Hz. destruct Hz as [<-|Hz].
    + left. exact Lx.
    + apply in_app_iff in Hz. destruct Hz as [Hz|Hz].
      * right. apply HC. apply in_app_iff. left. exact Hz.
      * cbn in Hz. destruct Hz as [<-|Hz].
        -- left. exact Ly.
        -- right. apply HC. apply in_app_iff. right. exact Hz.
Qed.

Lemma Forall_firstn {A : Type} (P : A -> Prop) (n : nat) (l : list A) :
  Forall P l -> Forall P (firstn n l).
Proof.
  intros H. rewrite Forall_forall in *. intros x Hx. apply H.
  rewrite <- (firstn_skipn n l). apply in_app_iff. left. exact Hx.
Qed.

Lemma Forall_skipn {A : Type} (P : A -> Prop) (n : nat) (l : list A) :
  Forall P l -> Forall P (skipn n l).
Proof.
  intros H. rewrite Forall_forall in *. intros x Hx. apply H.
  rewrite <- (firstn_skipn n l). apply in_app_iff. right. exact Hx.
Qed.

Lemma block_loop_dominates (fuel : nat) (r a : list float) :
  length r = 8%nat -> Forall magnitude r -> Forall magnitude a ->
  length (fst (block_loop fuel r a)) = 8%nat /\
  Forall magnitude (fst (block_loop fuel r a)) /\
  Forall magnitude (snd (block_loop fuel r a)) /\
  covered (r ++ a)
    (fst (block_loop fuel r a) ++ snd (block_loop fuel r a)).
Proof.
  revert r a. induction fuel as [|f IH]; intros r a Er Hr Ha.
  - cbn. repeat split; try assumption.
    apply covered_refl. apply Forall_app. split; assumption.
  - cbn [block_loop]. destruct (8 <=? length a)%nat eqn:E8.
    + apply Nat.leb_le in E8.
      assert (E1 : length r = length (firstn 8 a)).
      { rewrite length_firstn. lia. }
      destruct (add_lanes_dominates r (firstn 8 a) E1 Hr
                  (Forall_firstn _ 8 a Ha)) as (EL & HM & HC).
      destruct (IH (add_lanes r (firstn 8 a)) (skipn 8 a)
                  ltac:(lia) HM (Forall_skipn _ 8 a Ha))
        as (EL' & HM' & HR' & HC').
      repeat split; try assumption.
      eapply covered_trans; [|exact HC'].
      rewrite <- (firstn_skipn 8 a) at 1. rewrite app_assoc.
      apply covered_app.
      * eapply covered_incl; [exact HC|]. apply incl_appl, incl_refl.
      * eapply covered_incl;
          [apply covered_refl, Forall_skipn, Ha|apply incl_appr, incl_refl].
    + cbn. repeat split; try assumption.
      apply covered_refl. apply Forall_app. split; assumption.
Qed.

Lemma lane_tree_dominates (r : list float) :
  length r = 8%nat -> Forall magnitude r ->
  magnitude (lane_tree r) /\
  Forall (fun y => F.leb y (lane_tree r) = true) r.
Proof.
  intros E H.
  destruct r as [|r0 [|r1 [|r2 [|r3 [|r4 [|r5 [|r6 [|r7 [|r8 r]]]]]]]]];
    try discriminate E.
  repeat match goal with
         | H : Forall _ (_ :: _) |- _ =>
             apply Forall_cons_iff in H; destruct H as [? H]
         end.
  cbn [lane_tree].
  destruct (F64_add_magnitude r0 r1) as (M01 & L0 & L1); try assumption.
  destruct (F64_add_magnitude r2 r3) as (M23 & L2 & L3); try assumption.
  destruct (F64_add_magnitude r4 r5) as (M45 & L4 & L5); try assumption.
  destruct (F64_add_magnitude r6 r7) as (M67 & L6 & L7); try assumption.
  destruct (F64_add_magnitude _ _ M01 M23) as (Ma & La1 & La2).
  destruct (F64_add_magnitude _ _ M45 M67) as (Mb & Lb1 & Lb2).
  destruct (F64_add_magnitude _ _ Ma Mb) as (Mt & Lt1 & Lt2).
  split; [exact Mt|].
  repeat constructor;
    repeat (first [eassumption | eapply F_leb_trans; [eassumption|]]).
Qed.

Lemma Forall_covered_below (l r : list float) (x : float) :
  covered l r -> Forall (fun y => F.leb y x = true) r ->
  Forall (fun y => F.leb y x = true) l.
Proof.
  unfold covered. rewrite !Forall_forall. intros HC HR y Hy.
  destruct (proj1 (Exists_exists _ _) (HC y Hy)) as (z & Hz & Lz).
  eapply F_leb_trans; [exact Lz|]. apply HR, Hz.
Qed.

(** The pairwise sum of magnitudes is a magnitude that is not below any of
    the summands, whenever the fuel is at least the length. *)
Lemma pairwise_sum_dominates (fuel : nat) (a : list float) :
  (length a <= fuel)%nat -> Forall magnitude a ->
  magnitude (pairwise_sum fuel a) /\
  Forall (fun y => F.leb y (pairwise_sum fuel a) = true) a.
Proof.
  revert a. induction fuel as [|f IH]; intros a Hf Ha.
  - destruct a; [|cbn in Hf; lia]. cbn. split; [|constructor].
    apply magnitude_fin; [apply Qcle_refl|apply b64_zero].
  - cbn [pairwise_sum]. destruct (length a <? 8)%nat eqn:E8.
    + destruct (sum_loop_dominates a (Fin 0)) as (M & _ & L);
        [apply magnitude_fin; [apply Qcle_refl|apply b64_zero]|exact Ha|].
      split; assumption.
    + apply Nat.ltb_ge in E8. destruct (length a <=? 128)%nat eqn:E128.
      * destruct (block_loop_dominates (length a) (firstn 8 a) (skipn 8 a))
          as (EL & HM & HR & HC);
          [rewrite length_firstn; lia|apply Forall_firstn, Ha
          |apply Forall_skipn, Ha|].
        rewrite firstn_skipn in HC.
        destruct (block_loop (length a) (firstn 8 a) (skipn 8 a)) as [r rest].
        cbn [fst snd] in *.
        destruct (lane_tree_dominates r EL HM) as (Mt & Lt).
        destruct (sum_loop_dominates rest (lane_tree r) Mt HR)
          as (Ms & Ls & Lrest).
        split; [exact Ms|].
        eapply Forall_covered_below; [exact HC|].
        apply Forall_app. split; [|exact Lrest].
        revert Lt. apply Forall_impl. intros y Ly.
        eapply F_leb_trans; eassumption.
      * apply Nat.leb_gt in E128.
        set (n2 := (length a / 2 - (length a / 2) mod 8)%nat).
        assert (Hn2 : (8 <= n2 < length a)%nat).
        { unfold n2. pose proof (Nat.mod_upper_bound (length a / 2) 8).
          pose proof (Nat.div_mod_eq (length a) 2).
          pose proof (Nat.mod_upper_bound (length a) 2). lia. }
        destruct (IH (firstn n2 a)) as (M1 & L1);
          [rewrite length_firstn; lia|apply Forall_firstn, Ha|].
        destruct (IH (skipn n2 a)) as (M2 & L2);
          [rewrite length_skipn; lia|apply Forall_skipn, Ha|].
        destruct (F64_add_magnitude _ _ M1 M2) as (Mt & Lt1 & Lt2).
        split; [exact Mt|].
        rewrite <- (firstn_skipn n2 a) at 1. apply Forall_app. split.
        -- revert L1. apply Forall_impl. intros y Ly.
           eapply F_leb_trans; eassumption.
        -- revert L2. apply Forall_impl. intros y Ly.
           eapply F_leb_trans; eassumption.
Qed.

(** [np.sum] of magnitudes: a magnitude, not below any summand. *)
Lemma np_sum64_dominates (a : list float) :
  Forall magnitude a ->
  magnitude (np_sum64 a) /\
  Forall (fun y => F.leb y (np_sum64 a) = true) a.
Proof.
  intros Ha. unfold np_sum64.
  destruct (pairwise_sum_dominates (length a) a (Nat.le_refl _) Ha) as (M & L).
  rewrite (F64_add_zero_l _ M). split; assumption.
Qed.

(** The fuel given by [np_sum64] is enough: more changes nothing. *)
Lemma pairwise_sum_fuel (f1 f2 : nat) (a : list float) :
  (length a <= f1)%nat -> (length a <= f2)%nat ->
  pairwise_sum f1 a = pairwise_sum f2 a.
Proof.
  revert f2 a. induction f1 as [|f1 IH]; intros f2 a H1 H2.
  - destruct a; [|cbn in H1; lia]. destruct f2; reflexivity.
  - destruct f2 as [|f2].
    + destruct a; [reflexivity|cbn in H2; lia].
    + cbn [pairwise_sum]. destruct (length a <? 8)%nat; [reflexivity|].
      destruct (length a <=? 128)%nat eqn:E128; [reflexivity|].
      apply Nat.leb_gt in E128.
      set (n2 := (length a / 2 - (length a / 2) mod 8)%nat).
      assert (Hn2 : (8 <= n2 < length a)%nat).
      { unfold n2. pose proof (Nat.mod_upper_bound (length a / 2) 8).
        pose proof (Nat.div_mod_eq (length a) 2).
        pose proof (Nat.mod_upper_bound (length a) 2). lia. }
      f_equal; apply IH; rewrite ?length_firstn, ?length_skipn; lia.
Qed.

(** ** Error bounds on canonical rationals *)

(** Inequalities between canonical rationals, read as inequalities
    between the fractions they hold. *)
Ltac qc_unfold :=
  unfold Qcle, Qclt, Qcminus, Qcdiv, u64, eta64 in *;
  cbn [this Qcplus Qcmult Qcopp Q2Qc] in *;
  repeat rewrite Qred_correct in *.

Lemma u64_bounds : 0 < u64 /\ u64 < 1.
Proof. split; reflexivity. Qed.

Lemma Qcpower_S (q : Qc) (k : nat) : q ^ (S k) = q * q ^ k.
Proof. reflexivity. Qed.

Lemma Qcpower_ge_1 (q : Qc) (k : nat) : 1 <= q -> 1 <= q ^ k.
Proof.
  intros H. induction k as [|k IH]; [apply Qcle_refl|].
  rewrite Qcpower_S. qc_unfold. nra.
Qed.

Lemma Qcpower_le_1 (q : Qc) (k : nat) : 0 <= q -> q <= 1 -> 0 <= q ^ k /\ q ^ k <= 1.
Proof.
  intros H0 H1. induction k as [|k [IH0 IH1]].
  - split; [discriminate|apply Qcle_refl].
  - rewrite Qcpower_S. qc_unfold. split; nra.
Qed.

Lemma Qcpower_grow (q : Qc) (k k' : nat) :
  1 <= q -> (k <= k')%nat -> q ^ k <= q ^ k'.
Proof.
  intros H Hk. induction Hk as [|k' Hk IH]; [apply Qcle_refl|].
  rewrite Qcpower_S. pose proof (Qcpower_ge_1 q k' H) as H1.
  pose proof (Qcpower_ge_1 q k H) as H2. qc_unfold. nra.
Qed.

Lemma Qcpower_shrink (q : Qc) (k k' : nat) :
  0 <= q -> q <= 1 -> (k <= k')%nat -> q ^ k' <= q ^ k.
Proof.
  intros H0 H1 Hk. induction Hk as [|k' Hk IH]; [apply Qcle_refl|].
  rewrite Qcpower_S. destruct (Qcpower_le_1 q k' H0 H1) as [A B].
  destruct (Qcpower_le_1 q k H0 H1) as [A' B']. qc_unfold. nra.
Qed.

Lemma low_bounds : 0 <= 1 - u64 /\ 1 - u64 <= 1.
Proof. split; discriminate. Qed.

Lemma high_bound : 1 <= 1 + u64.
Proof. discriminate. Qed.

Lemma within_weaken (k k' : nat) (s r : Qc) :
  (k <= k')%nat -> 0 <= s -> within k s r -> within k' s r.
Proof.
  intros Hk Hs [H1 H2]. destruct low_bounds as [L0 L1].
  pose proof (Qcpower_shrink _ k k' L0 L1 Hk) as HL.
  pose proof (Qcpower_grow _ k k' high_bound Hk) as HU.
  destruct (Qcpower_le_1 _ k' L0 L1) as [A B].
  unfold within. split.
  - apply Qcle_trans with ((1 - u64) ^ k * s); [|exact H1].
    apply Qcmult_le_compat_r; assumption.
  - apply Qcle_trans with ((1 + u64) ^ k * s); [exact H2|].
    apply Qcmult_le_compat_r; assumption.
Qed.

Lemma within_add (k : nat) (s1 s2 r1 r2 : Qc) :
  within k s1 r1 -> within k s2 r2 -> within k (s1 + s2) (r1 + r2).
Proof.
  intros [A1 B1] [A2 B2]. unfold within.
  rewrite !Qcmult_plus_distr_r. split; apply Qcplus_le_compat; assumption.
Qed.

Lemma within_step (k : nat) (s q r : Qc) :
  within k s q -> (1 - u64) * q <= r -> r <= (1 + u64) * q ->
  within (S k) s r.
Proof.
  intros [A B] H1 H2. unfold within. rewrite !Qcpower_S.
  destruct low_bounds as [L0 L1]. split.
  - apply Qcle_trans with ((1 - u64) * q); [|exact H1].
    rewrite <- Qcmult_assoc. rewrite !(Qcmult_comm (1 - u64)).
    apply Qcmult_le_compat_r; assumption.
  - apply Qcle_trans with ((1 + u64) * q); [exact H2|].
    rewrite <- Qcmult_assoc. rewrite !(Qcmult_comm (1 + u64)).
    apply Qcmult_le_compat_r; [exact B|discriminate].
Qed.

Lemma within_zero (k : nat) (r : Qc) : within k 0 r -> r = 0.
Proof.
  intros [A B]. rewrite Qcmult_0_r in A, B. apply Qcle_antisym; assumption.
Qed.

Lemma Qcpower_one_r (q : Qc) : q ^ 1 = q.
Proof. rewrite Qcpower_S. apply Qcmult_1_r. Qed.

Lemma within_refl (s : Qc) : 0 <= s -> within 1 s s.
Proof.
  intros H. unfold within. rewrite !Qcpower_one_r. qc_unfold.
  assert (0 < pow2 (-53))%Q by reflexivity. split; nra.
Qed.

(** Binary64 numbers are multiples of [2^-1074]. *)
Lemma b64_grid (r : Qc) :
  0 <= r -> b64 r -> exists z : Z, (r == inject_Z z * pow2 (-1074))%Q.
Proof.
  intros H0 B. destruct (Qc_eq_dec r 0) as [->|Hn].
  - exists 0%Z. reflexivity.
  - assert (Hr : 0 < r).
    { apply Qcle_lt_or_eq in H0. destruct H0 as [H|H]; [exact H|].
      exfalso. apply Hn. symmetry. exact H. }
    unfold b64 in B. rewrite (rnd64_pos r Hr) in B. unfold round_pos in B.
    destruct (Qle_bool (pow2 1024) (rp_val r)); [discriminate B|].
    injection B as B. destruct (rp_val_grid r Hr) as (z & Ez).
    exists z. rewrite <- Ez. rewrite <- B at 1. apply this_Q2Qc.
Qed.

(** One rounding of a positive number, as a canonical rational. *)
Lemma round_pos_error (q r : Qc) :
  0 < q -> round_pos q = Fin r ->
  ((-1022 <= ilog2 q)%Z ->
   (1 - u64) * q <= r /\ r <= (1 + u64) * q) /\
  ((ilog2 q < -1022)%Z ->
   q - eta64 <= r /\ r <= q + eta64).
Proof.
  intros Hq E. unfold round_pos in E.
  destruct (Qle_bool (pow2 1024) (rp_val q)); [discriminate E|].
  injection E as <-. pose proof (Qc_pos_this q Hq) as Hq'. split; intros He.
  - destruct (rp_val_relative q Hq' He) as [A B]. qc_unfold. split; lra.
  - destruct (rp_val_absolute q Hq' He) as [A B]. qc_unfold. split; lra.
Qed.

(** A rounding overflows only from [2^1023] on. *)
Lemma rnd64_overflow (q : Qc) : 0 <= q -> rnd64 q = PInf -> big64 <= q.
Proof.
  intros H0 E. destruct (Qc_eq_dec q 0) as [Ez|Hn].
  - rewrite Ez, rnd64_zero in E. discriminate E.
  - assert (Hq : 0 < q).
    { apply Qcle_lt_or_eq in H0. destruct H0 as [H|H]; [exact H|].
      exfalso. apply Hn. symmetry. exact H. }
    rewrite (rnd64_pos _ Hq) in E. unfold round_pos in E.
    destruct (Qle_bool (pow2 1024) (rp_val q)) eqn:Ov; [|discriminate E].
    apply Qle_bool_iff in Ov. pose proof (Qc_pos_this q Hq) as Hq'.
    pose proof (rp_val_upper q Hq') as Hup.
    assert (He : (1023 <= rp_exp q)%Z).
    { assert (H : (pow2 1024 <= pow2 (rp_exp q + 1))%Q)
        by (eapply Qle_trans; eassumption).
      destruct (Z_le_gt_dec 1023 (rp_exp q)) as [Hc|Hc]; [exact Hc|].
      exfalso. assert (Hlt : (pow2 (rp_exp q + 1) < pow2 1024)%Q)
        by (apply pow2_lt; lia).
      apply (Qlt_irrefl (pow2 1024)). eapply Qle_lt_trans; eassumption. }
    assert (Hi : (1023 <= ilog2 q)%Z) by (unfold rp_exp in He; lia).
    destruct (ilog2_spec q Hq') as [Hlo _].
    unfold big64, Qcle. rewrite (this_Q2Qc (pow2 1023)).
    eapply Qle_trans; [apply pow2_le; exact Hi|exact Hlo].
Qed.

(** Adding two non-negative binary64 numbers: an overflow, or a relative
    error of at most [2^-53].  Below the normal range the sum is exact. *)
Lemma F64_add_error (a b : Qc) :
  0 <= a -> 0 <= b -> b64 a -> b64 b ->
  (F64.add (Fin a) (Fin b) = PInf /\ big64 <= a + b) \/
  exists r, F64.add (Fin a) (Fin b) = Fin r /\ b64 r /\ 0 <= r /\
            (1 - u64) * (a + b) <= r /\ r <= (1 + u64) * (a + b).
Proof.
  intros Ha Hb Ba Bb. cbn [F64.add].
  assert (Hq0 : 0 <= a + b) by (apply Qcplus_nonneg; assumption).
  destruct (rnd64_magnitude (a + b) Hq0) as [E|(r & E & Hr & Br)];
    [left; split; [exact E|apply rnd64_overflow; assumption]|right].
  exists r. split; [exact E|]. split; [exact Br|]. split; [exact Hr|].
  destruct (Qc_eq_dec (a + b) 0) as [Ez|Hn].
  - rewrite Ez in *. rewrite rnd64_zero in E. injection E as <-.
    rewrite !Qcmult_0_r. split; apply Qcle_refl.
  - assert (Hq : 0 < a + b).
    { apply Qcle_lt_or_eq in Hq0. destruct Hq0 as [H|H]; [exact H|].
      exfalso. apply Hn. symmetry. exact H. }
    rewrite (rnd64_pos _ Hq) in E.
    destruct (round_pos_error _ _ Hq E) as [Hnorm Hsub].
    remember (a + b) as q eqn:Eq.
    destruct (Z_le_gt_dec (-1022) (ilog2 q)) as [He|He].
    + exact (Hnorm He).
    + assert (He' : (ilog2 q < -1022)%Z) by lia.
      destruct (b64_grid a Ha Ba) as (za & Eza).
      destruct (b64_grid b Hb Bb) as (zb & Ezb).
      assert (Eg : (q == inject_Z (za + zb) * pow2 (-1074))%Q).
      { rewrite inject_Z_plus, Eq. cbn [this Qcplus Q2Qc].
        rewrite Qred_correct, Eza, Ezb. ring. }
      assert (Hs : (q < pow2 (-1022))%Q).
      { destruct (ilog2_spec q (Qc_pos_this _ Hq)) as [_ Hup].
        eapply Qlt_le_trans; [exact Hup|]. apply pow2_le. lia. }
      pose proof (rp_val_small_exact _ _ (Qc_pos_this _ Hq) Eg Hs) as Ex.
      unfold round_pos in E.
      destruct (Qle_bool (pow2 1024) (rp_val q)); [discriminate E|].
      injection E as <-.
      assert (Er : Q2Qc (rp_val q) = q).
      { apply Qc_is_canon. rewrite (this_Q2Qc (rp_val q)). exact Ex. }
      rewrite Er.
      pose proof (Qc_pos_this q Hq) as Hq'.
      clear - Hq'. qc_unfold.
      assert (0 < pow2 (-53))%Q by reflexivity. split; nra.
Qed.

(** One rounding of a non-negative number: an overflow, or a relative
    error of at most [2^-53] and an absolute error of at most [2^-1075]. *)
Lemma rnd64_error (q : Qc) :
  0 <= q ->
  (rnd64 q = PInf /\ big64 <= q) \/
  exists r, rnd64 q = Fin r /\ b64 r /\ 0 <= r /\
            (1 - u64) * q - eta64 <= r /\ r <= (1 + u64) * q + eta64.
Proof.
  intros Hq0.
  destruct (rnd64_magnitude q Hq0) as [E|(r & E & Hr & Br)];
    [left; split; [exact E|apply rnd64_overflow; assumption]|right].
  exists r. split; [exact E|]. split; [exact Br|]. split; [exact Hr|].
  destruct (Qc_eq_dec q 0) as [Ez|Hn].
  - rewrite Ez in *. rewrite rnd64_zero in E. injection E as <-.
    rewrite !Qcmult_0_r. split; discriminate.
  - assert (Hq : 0 < q).
    { apply Qcle_lt_or_eq in Hq0. destruct Hq0 as [H|H]; [exact H|].
      exfalso. apply Hn. symmetry. exact H. }
    rewrite (rnd64_pos _ Hq) in E.
    destruct (round_pos_error _ _ Hq E) as [Hnorm Hsub].
    pose proof (Qc_pos_this q Hq) as Hq'.
    assert (Hu : (0 < pow2 (-53))%Q) by reflexivity.
    assert (He : (0 < pow2 (-1075))%Q) by reflexivity.
    destruct (Z_le_gt_dec (-1022) (ilog2 q)) as [Hc|Hc].
    + destruct (Hnorm Hc) as [A B]. clear Hnorm Hsub E Br.
      qc_unfold. split; lra.
    + destruct (Hsub ltac:(lia)) as [A B]. clear Hnorm Hsub E Br.
      qc_unfold. split; nra.
Qed.

(** ** Sums with accumulated error *)

Lemma approx_leaf (d : Qc) : 0 <= d -> b64 d -> approx (Fin d) d 1.
Proof.
  intros H B. split; [discriminate|]. right. exists d.
  repeat split; try assumption; apply within_refl; exact H.
Qed.

Lemma approx_zero : approx (Fin 0) 0 0.
Proof.
  split; [reflexivity|]. right. exists 0. split; [reflexivity|].
  split; [apply b64_zero|]. split; [apply Qcle_refl|].
  split; rewrite Qcmult_0_r; apply Qcle_refl.
Qed.

Lemma approx_magnitude (x : float) (s : Qc) (k : nat) :
  approx x s k -> magnitude x.
Proof.
  intros [_ [[-> _]|(r & -> & B & H & _)]]; [left; reflexivity|].
  apply magnitude_fin; assumption.
Qed.

Lemma high_power_nonneg (k : nat) : 0 <= (1 + u64) ^ k.
Proof.
  apply Qcle_trans with 1; [discriminate|].
  apply Qcpower_ge_1, high_bound.
Qed.

Lemma overflow_grow (k k' : nat) (s s' : Qc) :
  (k <= k')%nat -> 0 <= s -> s <= s' ->
  big64 <= (1 + u64) ^ k * s -> big64 <= (1 + u64) ^ k' * s'.
Proof.
  intros Hk Hs Hss H. eapply Qcle_trans; [exact H|].
  apply Qcle_trans with ((1 + u64) ^ k' * s).
  - apply Qcmult_le_compat_r; [|exact Hs].
    apply Qcpower_grow; [apply high_bound|exact Hk].
  - rewrite !(Qcmult_comm ((1 + u64) ^ k')).
    apply Qcmult_le_compat_r; [exact Hss|apply high_power_nonneg].
Qed.

Lemma approx_add (x y : float) (s1 s2 : Qc) (k1 k2 : nat) :
  0 <= s1 -> 0 <= s2 -> approx x s1 k1 -> approx y s2 k2 ->
  approx (F64.add x y) (s1 + s2) (k1 + k2).
Proof.
  intros Hs1 Hs2 Ax Ay.
  pose proof (approx_magnitude _ _ _ Ax) as Mx.
  pose proof (approx_magnitude _ _ _ Ay) as My.
  destruct Ax as [Zx Ax], Ay as [Zy Ay]. split.
  { intros Hk. rewrite Zx, Zy by lia. reflexivity. }
  destruct Ax as [[-> O1]|(r1 & -> & B1 & H1 & W1)].
  { left. split; [destruct My as [->|(r & -> & _)]; reflexivity|].
    apply (overflow_grow k1 _ s1); [lia|exact Hs1| |exact O1].
    rewrite <- (Qcplus_0_r s1) at 1.
    apply Qcplus_le_compat; [apply Qcle_refl|exact Hs2]. }
  destruct Ay as [[-> O2]|(r2 & -> & B2 & H2 & W2)].
  { left. split; [reflexivity|].
    apply (overflow_grow k2 _ s2); [lia|exact Hs2| |exact O2].
    rewrite <- (Qcplus_0_l s2) at 1.
    apply Qcplus_le_compat; [exact Hs1|apply Qcle_refl]. }
  destruct k1 as [|k1].
  { rewrite (Zx eq_refl) in *. apply within_zero in W1. subst r1.
    rewrite (F64_add_zero_l _ My), Qcplus_0_l. right. exists r2. auto. }
  destruct k2 as [|k2].
  { rewrite (Zy eq_refl) in *. apply within_zero in W2. subst r2.
    cbn [F64.add]. rewrite !Qcplus_0_r, Nat.add_0_r. unfold b64 in B1.
    rewrite B1. right. exists r1. auto. }
  assert (Wsum : within (k1 + S k2) (s1 + s2) (r1 + r2)).
  { apply within_add.
    - apply (within_weaken (S k1)); [lia|exact Hs1|exact W1].
    - apply (within_weaken (S k2)); [lia|exact Hs2|exact W2]. }
  replace (S k1 + S k2)%nat with (S (k1 + S k2)) by lia.
  destruct (F64_add_error r1 r2 H1 H2 B1 B2)
    as [[E O]|(r & E & Br & Hr & A & B)]; [left|right].
  - split; [exact E|]. eapply Qcle_trans; [exact O|].
    eapply Qcle_trans; [apply (proj2 Wsum)|].
    apply Qcmult_le_compat_r; [|apply Qcplus_nonneg; assumption].
    apply Qcpower_grow; [apply high_bound|lia].
  - exists r. split; [exact E|]. split; [exact Br|]. split; [exact Hr|].
    apply (within_step _ _ (r1 + r2)); assumption.
Qed.

(** ** The error of [np.sum] *)

Lemma qsum_app (l1 l2 : list Qc) : qsum (l1 ++ l2) = qsum l1 + qsum l2.
Proof.
  induction l1 as [|x l1 IH]; cbn [app].
  - rewrite qsum_nil, Qcplus_0_l. reflexivity.
  - rewrite !qsum_cons, IH. ring.
Qed.

Lemma firstn_fin (n : nat) (l : list Qc) : firstn n (fin l) = fin (firstn n l).
Proof. unfold fin. apply firstn_map. Qed.

Lemma skipn_fin (n : nat) (l : list Qc) : skipn n (fin l) = fin (skipn n l).
Proof. unfold fin. apply skipn_map. Qed.

Lemma summands_nonneg (ds : list Qc) :
  Forall summand ds -> Forall (fun q => 0 <= q) ds.
Proof. apply Forall_impl. intros d [H _]. exact H. Qed.

Lemma approx_eq (x : float) (s s' : Qc) (k k' : nat) :
  s = s' -> k = k' -> approx x s k -> approx x s' k'.
Proof. intros -> ->. auto. Qed.

Lemma sum_loop_approx (ds : list Qc) (acc : float) (s : Qc) (k : nat) :
  0 <= s -> approx acc s k -> Forall summand ds ->
  approx (sum_loop acc (fin ds)) (s + qsum ds) (k + length ds).
Proof.
  unfold sum_loop. revert acc s k.
  induction ds as [|d ds IH]; intros acc s k Hs Ha Hd.
  - cbn [fin map fold_left length].
    rewrite qsum_nil, Qcplus_0_r, Nat.add_0_r. exact Ha.
  - apply Forall_cons_iff in Hd. destruct Hd as [[H0 B] Hd].
    cbn [fin map fold_left].
    eapply approx_eq;
      [| |apply (IH (F64.add acc (Fin d)) (s + d) (k + 1)%nat)].
    + rewrite qsum_cons. ring.
    + cbn [length]. lia.
    + apply Qcplus_nonneg; assumption.
    + apply approx_add; [exact Hs|exact H0|exact Ha|].
      apply approx_leaf; assumption.
    + exact Hd.
Qed.

Lemma length_add_lanes (r a : list float) :
  length (add_lanes r a) = length r.
Proof.
  revert a. induction r as [|x r IH]; intros [|y a]; cbn; try reflexivity.
  rewrite IH. reflexivity.
Qed.

Lemma approx_lanes_start (ds : list Qc) :
  Forall summand ds -> approx_lanes (fin ds) (qsum ds) (length ds).
Proof.
  intros H. exists (map (fun d => (d, 1%nat)) ds). split; [|split].
  - induction H as [|d ds [H0 B] _ IH]; cbn; constructor; [|exact IH].
    split; [exact H0|]. apply approx_leaf; assumption.
  - rewrite map_map. cbn [fst]. rewrite map_id. reflexivity.
  - rewrite map_map. cbn [snd]. clear H.
    induction ds as [|d ds IH]; [reflexivity|].
    cbn [map length]. rewrite <- IH. reflexivity.
Qed.

Lemma approx_lanes_add (r : list float) (ds : list Qc) (s : Qc) (k : nat) :
  length r = length ds -> approx_lanes r s k -> Forall summand ds ->
  approx_lanes (add_lanes r (fin ds)) (s + qsum ds) (k + length ds).
Proof.
  intros E (sks & HF & <- & <-) Hd. revert ds E Hd.
  induction HF as [|x [sx kx] r sks [Hsx Ax] HF IH]; intros ds E Hd.
  - destruct ds; [|discriminate E]. exists [].
    split; [constructor|]. cbn [map]. rewrite !qsum_nil, Qcplus_0_r.
    split; reflexivity.
  - destruct ds as [|d ds]; [discriminate E|]. injection E as E.
    apply Forall_cons_iff in Hd. destruct Hd as [[H0 B] Hd].
    destruct (IH ds E Hd) as (sks' & HF' & Es & Ek).
    exists ((sx + d, (kx + 1)%nat) :: sks'). cbn [fst snd] in *.
    split; [|split].
    + cbn [fin map add_lanes]. constructor; [|exact HF'].
      cbn [fst snd]. split; [apply Qcplus_nonneg; assumption|].
      apply approx_add; [exact Hsx|exact H0|exact Ax|].
      apply approx_leaf; assumption.
    + cbn [map fst]. rewrite !qsum_cons, Es. ring.
    + cbn [map snd length].
      change (list_sum (?a :: ?l)) with (a + list_sum l)%nat.
      rewrite Ek. lia.
Qed.

Lemma approx_lanes_length (r : list float) (s : Qc) (k : nat) :
  approx_lanes r s k -> forall n, length r = n ->
  exists sks : list (Qc * nat),
    length sks = n /\
    Forall2 (fun x sk => 0 <= fst sk /\ approx x (fst sk) (snd sk)) r sks /\
    qsum (map fst sks) = s /\ list_sum (map snd sks) = k.
Proof.
  intros (sks & HF & Es & Ek) n En. exists sks.
  split; [|auto]. rewrite <- (Forall2_length HF). exact En.
Qed.

Lemma lane_tree_approx (r : list float) (s : Qc) (k : nat) :
  length r = 8%nat -> approx_lanes r s k -> approx (lane_tree r) s k.
Proof.
  intros E HL. destruct (approx_lanes_length r s k HL 8%nat E)
    as (sks & El & HF & <- & <-).
  destruct r as [|r0 [|r1 [|r2 [|r3 [|r4 [|r5 [|r6 [|r7 [|r8 r]]]]]]]]];
    try discriminate E.
  destruct sks as [|[s0 k0] [|[s1 k1] [|[s2 k2] [|[s3 k3] [|[s4 k4]
    [|[s5 k5] [|[s6 k6] [|[s7 k7] [|s8 sks]]]]]]]]]; try discriminate El.
  apply Forall2_cons_iff in HF. destruct HF as [[P0 A0] HF].
  apply Forall2_cons_iff in HF. destruct HF as [[P1 A1] HF].
  apply Forall2_cons_iff in HF. destruct HF as [[P2 A2] HF].
  apply Forall2_cons_iff in HF. destruct HF as [[P3 A3] HF].
  apply Forall2_cons_iff in HF. destruct HF as [[P4 A4] HF].
  apply Forall2_cons_iff in HF. destruct HF as [[P5 A5] HF].
  apply Forall2_cons_iff in HF. destruct HF as [[P6 A6] HF].
  apply Forall2_cons_iff in HF. destruct HF as [[P7 A7] _].
  cbn [fst snd] in *. cbn [lane_tree].
  pose proof (approx_add _ _ _ _ _ _ P0 P1 A0 A1) as A01.
  pose proof (approx_add _ _ _ _ _ _ P2 P3 A2 A3) as A23.
  pose proof (approx_add _ _ _ _ _ _ P4 P5 A4 A5) as A45.
  pose proof (approx_add _ _ _ _ _ _ P6 P7 A6 A7) as A67.
  pose proof (Qcplus_nonneg _ _ P0 P1) as P01.
  pose proof (Qcplus_nonneg _ _ P2 P3) as P23.
  pose proof (Qcplus_nonneg _ _ P4 P5) as P45.
  pose proof (Qcplus_nonneg _ _ P6 P7) as P67.
  pose proof (approx_add _ _ _ _ _ _ P01 P23 A01 A23) as Aa.
  pose proof (approx_add _ _ _ _ _ _ P45 P67 A45 A67) as Ab.
  pose proof (approx_add _ _ _ _ _ _ (Qcplus_nonneg _ _ P01 P23)
                (Qcplus_nonneg _ _ P45 P67) Aa Ab) as At.
  eapply approx_eq; [| |exact At].
  - cbn [map fst]. rewrite !qsum_cons, qsum_nil. ring.
  - cbn [map snd list_sum fold_right]. lia.
Qed.

Lemma block_loop_approx (fuel : nat) (r : list float) (ds : list Qc)
      (s : Qc) (k : nat) :
  length r = 8%nat -> approx_lanes r s k -> Forall summand ds ->
  exists r' rest s' k',
    block_loop fuel r (fin ds) = (r', fin rest) /\
    length r' = 8%nat /\ Forall summand rest /\
    approx_lanes r' s' k' /\
    s' + qsum rest = s + qsum ds /\
    (k' + length rest = k + length ds)%nat.
Proof.
  revert r ds s k. induction fuel as [|f IH]; intros r ds s k Er HL Hd.
  - exists r, ds, s, k. cbn. repeat split; assumption.
  - cbn [block_loop]. rewrite length_fin.
    destruct (8 <=? length ds)%nat eqn:E8.
    + apply Nat.leb_le in E8. rewrite firstn_fin, skipn_fin.
      assert (El : length r = length (firstn 8 ds))
        by (rewrite length_firstn; lia).
      pose proof (approx_lanes_add r (firstn 8 ds) s k El HL
                    (Forall_firstn _ 8 ds Hd)) as HL'.
      destruct (IH (add_lanes r (fin (firstn 8 ds))) (skipn 8 ds)
                  (s + qsum (firstn 8 ds)) (k + length (firstn 8 ds))%nat)
        as (r' & rest & s' & k' & Eb & Er' & Hrest & HL'' & Es & Ek);
        [|exact HL'|apply Forall_skipn, Hd|].
      * rewrite length_add_lanes. exact Er.
      * exists r', rest, s', k'. split; [exact Eb|]. split; [exact Er'|].
        split; [exact Hrest|]. split; [exact HL''|]. split.
        -- rewrite Es. rewrite <- (firstn_skipn 8 ds) at 3.
           rewrite qsum_app. ring.
        -- rewrite Ek. rewrite <- (firstn_skipn 8 ds) at 3.
           rewrite length_app. lia.
    + exists r, ds, s, k. repeat split; assumption.
Qed.

Lemma pairwise_sum_approx (fuel : nat) (ds : list Qc) :
  (length ds <= fuel)%nat -> Forall summand ds ->
  approx (pairwise_sum fuel (fin ds)) (qsum ds) (length ds).
Proof.
  revert ds. induction fuel as [|f IH]; intros ds Hf Hd.
  - destruct ds; [|cbn in Hf; lia]. exact approx_zero.
  - cbn [pairwise_sum]. rewrite length_fin.
    destruct (length ds <? 8)%nat eqn:E8.
    + eapply approx_eq; [| |apply (sum_loop_approx ds (Fin 0) 0 0%nat)].
      * apply Qcplus_0_l.
      * reflexivity.
      * apply Qcle_refl.
      * exact approx_zero.
      * exact Hd.
    + apply Nat.ltb_ge in E8. destruct (length ds <=? 128)%nat eqn:E128.
      * rewrite firstn_fin, skipn_fin.
        destruct (block_loop_approx (length ds) (fin (firstn 8 ds))
                    (skipn 8 ds) (qsum (firstn 8 ds)) (length (firstn 8 ds)))
          as (r' & rest & s' & k' & Eb & Er' & Hrest & HL & Es & Ek).
        -- rewrite length_fin, length_firstn. lia.
        -- apply approx_lanes_start, Forall_firstn, Hd.
        -- apply Forall_skipn, Hd.
        -- rewrite Eb.
           pose proof (lane_tree_approx r' s' k' Er' HL) as Ht.
           assert (Hs' : 0 <= s').
           { destruct HL as (sks & HF & <- & _). apply qsum_nonneg.
             clear - HF. induction HF as [|x sk r sks [H _] _ IH]; cbn;
               constructor; assumption. }
           eapply approx_eq; [| |apply (sum_loop_approx rest _ s' k' Hs' Ht Hrest)].
           ++ rewrite Es. rewrite <- (firstn_skipn 8 ds) at 3.
              rewrite qsum_app. reflexivity.
           ++ rewrite Ek. rewrite <- (firstn_skipn 8 ds) at 3.
              rewrite length_app. reflexivity.
      * apply Nat.leb_gt in E128.
        set (n2 := (length ds / 2 - (length ds / 2) mod 8)%nat).
        assert (Hn2 : (8 <= n2 < length ds)%nat).
        { unfold n2. pose proof (Nat.mod_upper_bound (length ds / 2) 8).
          pose proof (Nat.div_mod_eq (length ds) 2).
          pose proof (Nat.mod_upper_bound (length ds) 2). lia. }
        rewrite firstn_fin, skipn_fin.
        eapply approx_eq; [| |apply approx_add; [| |apply IH|apply IH]].
        -- rewrite <- qsum_app, firstn_skipn. reflexivity.
        -- rewrite <- length_app, firstn_skipn. reflexivity.
        -- apply qsum_nonneg, summands_nonneg, Forall_firstn, Hd.
        -- apply qsum_nonneg, summands_nonneg, Forall_skipn, Hd.
        -- rewrite length_firstn. lia.
        -- apply Forall_firstn, Hd.
        -- rewrite length_skipn. lia.
        -- apply Forall_skipn, Hd.
Qed.

(** [np.sum] of [n] non-negative binary64 numbers: an overflow, or a
    binary64 number within [n] relative errors of their exact sum. *)
Lemma np_sum64_approx (ds : list Qc) :
  Forall summand ds -> approx (np_sum64 (fin ds)) (qsum ds) (length ds).
Proof.
  intros Hd. unfold np_sum64. rewrite length_fin.
  pose proof (pairwise_sum_approx (length ds) ds (Nat.le_refl _) Hd) as H.
  rewrite (F64_add_zero_l _ (approx_magnitude _ _ _ H)). exact H.
Qed.

(** ** [percvar64] on a finite array *)

(** The array that [percvar] normalises: the absolute values, largest
    first. *)
Lemma sorted_abs_fin (qs : list Qc) :
  exists d, rev (np_sort (np_abs (fin qs))) = fin d /\
            Permutation d (map Qcabs qs) /\ descending d.
Proof.
  rewrite np_abs_fin.
  destruct (np_sort_fin (map Qcabs qs)) as (a & Ea & Pa & Sa).
  exists (rev a). split; [rewrite Ea; apply rev_fin|]. split.
  - eapply Permutation_trans; [apply Permutation_sym, Permutation_rev|exact Pa].
  - apply (StronglySorted_rev Qcle). exact Sa.
Qed.

Lemma percvar64_fin (qs : list Qc) :
  exists d,
    Permutation d (map Qcabs qs) /\ descending d /\
    percvar64 (fin qs) =
      (np_div64 (fin d) (np_sum64 (fin d)),
       np_cumsum64 (np_div64 (fin d) (np_sum64 (fin d)))).
Proof.
  destruct (sorted_abs_fin qs) as (d & E & Pd & Sd).
  exists d. split; [exact Pd|]. split; [exact Sd|].
  unfold percvar64. rewrite E. reflexivity.
Qed.

(** Arrays that are already non-negative and sorted from largest to
    smallest pass through [abs], [sort] and the reversal unchanged. *)
Lemma sorted_abs_fixed (p : list Qc) :
  Forall (fun q => 0 <= q) p -> descending p ->
  rev (np_sort (np_abs (fin p))) = fin p.
Proof.
  intros Hnn Hd. destruct (sorted_abs_fin p) as (d & E & Pd & Sd).
  rewrite E. f_equal. rewrite (abs_nonneg_id p Hnn) in Pd.
  apply descending_perm_unique; assumption.
Qed.

(** ** Running sums in binary64 *)

Lemma length_cumsum64_from (s : list float) (a : float) :
  length (cumsum64_from a s) = length s.
Proof.
  revert a. induction s as [|x r IH]; intros a; cbn; [reflexivity|].
  rewrite IH. reflexivity.
Qed.

Lemma length_np_cumsum64 (s : list float) :
  length (np_cumsum64 s) = length s.
Proof.
  destruct s as [|x r]; cbn; [reflexivity|].
  rewrite length_cumsum64_from. reflexivity.
Qed.

Lemma nth_cumsum64_from (s : list float) (a : float) (i : nat) :
  (i < length s)%nat ->
  nth i (cumsum64_from a s) NaN
  = F64.add (nth i (a :: cumsum64_from a s) NaN) (nth i s NaN).
Proof.
  revert a i. induction s as [|x r IH]; intros a i Hi; cbn in Hi; [lia|].
  destruct i as [|j]; [reflexivity|].
  cbn [cumsum64_from nth]. rewrite IH by lia. reflexivity.
Qed.

Lemma np_cumsum64_running (s : list float) : running (np_cumsum64 s) s.
Proof.
  unfold running. split; [apply length_np_cumsum64|].
  destruct s as [|x r]; cbn [np_cumsum64].
  - split; [reflexivity|]. intros i Hi. cbn in Hi. lia.
  - split; [reflexivity|]. intros i Hi. cbn in Hi.
    cbn [nth]. apply nth_cumsum64_from. lia.
Qed.

Lemma cumsum64_from_sorted (s : list float) (a : float) :
  magnitude a -> Forall magnitude s ->
  Forall magnitude (cumsum64_from a s) /\
  Forall (fun y => F.leb a y = true) (cumsum64_from a s) /\
  StronglySorted (fun x y => F.leb x y = true) (cumsum64_from a s).
Proof.
  revert a. induction s as [|x r IH]; intros a Ha Hs; cbn.
  - repeat split; constructor.
  - apply Forall_cons_iff in Hs. destruct Hs as [Hx Hr].
    destruct (F64_add_magnitude a x Ha Hx) as (Hm & La & _).
    destruct (IH _ Hm Hr) as (HM & HL & HS).
    split; [constructor; assumption|]. split.
    + constructor; [exact La|]. revert HL. apply Forall_impl.
      intros y Ly. eapply F_leb_trans; eassumption.
    + constructor; assumption.
Qed.

Lemma np_cumsum64_sorted (s : list float) :
  Forall magnitude s ->
  Forall magnitude (np_cumsum64 s) /\
  StronglySorted (fun x y => F.leb x y = true) (np_cumsum64 s).
Proof.
  intros Hs. destruct s as [|x r]; cbn [np_cumsum64].
  - split; constructor.
  - apply Forall_cons_iff in Hs. destruct Hs as [Hx Hr].
    destruct (cumsum64_from_sorted r x Hx Hr) as (HM & HL & HS).
    split; constructor; assumption.
Qed.

(** ** Division by a positive sum *)

Lemma Qcsgn_pos (s : Qc) : 0 < s -> Qcsgn s = Gt.
Proof. intros H. apply Qcgt_alt. exact H. Qed.

Lemma Qcdiv_le_one (x s : Qc) : 0 < s -> x <= s -> x / s <= 1.
Proof.
  intros Hs Hx. replace 1 with (s / s).
  - apply Qcdiv_le_compat; assumption.
  - unfold Qcdiv. apply Qcmult_inv_r. intros E. rewrite E in Hs.
    discriminate Hs.
Qed.

Lemma F64_div_positive (x : Qc) (S : float) :
  positive64 S -> 0 <= x -> F.leb (Fin x) S = true ->
  exists r, F64.div (Fin x) S = Fin r /\ 0 <= r /\ r <= 1 /\ b64 r.
Proof.
  intros [->|(s & -> & Hs & Bs)] Hx L.
  - exists 0. cbn. repeat split; try apply Qcle_refl.
    + discriminate.
  - cbn [F64.div]. rewrite (Qcsgn_pos s Hs).
    cbn in L. apply Qcleb_le in L.
    assert (H0 : 0 <= x / s) by (apply Qcdiv_nonneg; assumption).
    assert (H1 : x / s <= 1) by (apply Qcdiv_le_one; assumption).
    pose proof (rnd64_mono _ _ H0 H1) as M.
    rewrite b64_one in M.
    destruct (rnd64_magnitude _ H0) as [E|(r & E & Hr & Br)];
      rewrite E in *; [discriminate M|].
    exists r. split; [reflexivity|]. split; [exact Hr|].
    split; [|exact Br]. cbn in M. apply Qcleb_le. exact M.
Qed.

Lemma F64_div_mono (x y : Qc) (S : float) :
  positive64 S -> 0 <= x -> x <= y ->
  F.leb (F64.div (Fin x) S) (F64.div (Fin y) S) = true.
Proof.
  intros [->|(s & -> & Hs & Bs)] Hx Hxy.
  - reflexivity.
  - cbn [F64.div]. rewrite (Qcsgn_pos s Hs).
    apply rnd64_mono; [apply Qcdiv_nonneg; assumption|].
    apply Qcdiv_le_compat; assumption.
Qed.

Lemma np_div64_positive (d : list Qc) (S : float) :
  positive64 S ->
  Forall (fun x => 0 <= x /\ F.leb (Fin x) S = true) d -> descending d ->
  exists P, np_div64 (fin d) S = fin P /\
            Forall (fun r => 0 <= r /\ r <= 1 /\ b64 r) P /\ descending P.
Proof.
  intros HS. induction d as [|x d IH]; intros Hd Sd.
  - exists []. repeat split; constructor.
  - apply Forall_cons_iff in Hd. destruct Hd as [[Hx Lx] Hd].
    apply StronglySorted_inv in Sd. destruct Sd as [Sd Hxd].
    destruct (IH Hd Sd) as (P & EP & HP & SP).
    destruct (F64_div_positive x S HS Hx Lx) as (r & Er & Hr).
    exists (r :: P). split.
    { change (F64.div (Fin x) S :: np_div64 (fin d) S = Fin r :: fin P).
      rewrite Er, EP. reflexivity. }
    split; [constructor; assumption|].
    constructor; [exact SP|].
    assert (HL : Forall (fun y => F.leb y (Fin r) = true) (fin P)).
    { rewrite <- EP, <- Er. unfold np_div64, fin. rewrite map_map.
      rewrite Forall_map. rewrite Forall_forall in *. intros y Hy.
      apply F64_div_mono; [exact HS|apply (Hd y Hy)|apply (Hxd y Hy)]. }
    unfold fin in HL. rewrite Forall_map in HL. revert HL.
    apply Forall_impl. intros y Ly. cbn in Ly. apply Qcleb_le. exact Ly.
Qed.

(** ** The shape of the result of [percvar64] *)

Lemma Forall_b64_abs (qs : list Qc) :
  Forall b64 qs -> Forall (fun q => 0 <= q /\ b64 q) (map Qcabs qs).
Proof.
  intros H. rewrite Forall_map. revert H. apply Forall_impl.
  intros q B. split; [apply Qcabs_nonneg|apply b64_abs, B].
Qed.

Lemma Exists_abs_pos (qs : list Qc) :
  Exists (fun q => q <> 0) qs -> Exists (fun q => 0 < q) (map Qcabs qs).
Proof.
  intros H. apply Exists_exists in H. destruct H as (q & Hq & Hn).
  apply Exists_exists. exists (Qcabs q). split; [apply in_map, Hq|].
  apply Qcabs_pos_nonzero, Hn.
Qed.

(** The float64 sum of the absolute values of binary64 numbers, one of
    them not zero: positive, and not below any of them. *)
Lemma np_sum64_abs (d : list Qc) :
  Forall (fun q => 0 <= q /\ b64 q) d -> Exists (fun q => 0 < q) d ->
  positive64 (np_sum64 (fin d)) /\
  Forall (fun x => 0 <= x /\ F.leb (Fin x) (np_sum64 (fin d)) = true) d.
Proof.
  intros Hd Hex.
  assert (Hm : Forall magnitude (fin d)).
  { unfold fin. rewrite Forall_map. revert Hd. apply Forall_impl.
    intros q [H B]. apply magnitude_fin; assumption. }
  destruct (np_sum64_dominates _ Hm) as (M & L).
  unfold fin in L. rewrite Forall_map in L. split.
  - apply Exists_exists in Hex. destruct Hex as (q & Hq & Hpos).
    apply (magnitude_above_positive _ q M Hpos).
    rewrite Forall_forall in L. apply L, Hq.
  - rewrite Forall_forall in *. intros x Hx. split; [apply Hd, Hx|apply L, Hx].
Qed.

Lemma percvar64_fin_shape (qs : list Qc) :
  Forall b64 qs -> Exists (fun q => q <> 0) qs ->
  exists P,
    percvar64 (fin qs) = (fin P, np_cumsum64 (fin P)) /\
    length P = length qs /\
    Forall (fun r => 0 <= r /\ r <= 1 /\ b64 r) P /\ descending P.
Proof.
  intros HB Hex. destruct (percvar64_fin qs) as (d & Pd & Sd & E).
  assert (Hd : Forall (fun q => 0 <= q /\ b64 q) d).
  { eapply Permutation_Forall; [apply Permutation_sym, Pd|].
    apply Forall_b64_abs, HB. }
  assert (Hp : Exists (fun q => 0 < q) d).
  { eapply Permutation_Exists; [apply Permutation_sym, Pd|].
    apply Exists_abs_pos, Hex. }
  destruct (np_sum64_abs d Hd Hp) as (HS & HL).
  destruct (np_div64_positive d _ HS HL Sd) as (P & EP & HP & SP).
  exists P. rewrite E, EP. split; [reflexivity|].
  split; [|split; assumption].
  apply (f_equal (@length float)) in EP. unfold np_div64, fin in EP.
  rewrite !length_map in EP. rewrite <- EP, (Permutation_length Pd).
  apply length_map.
Qed.

Lemma magnitude_percents (P : list Qc) :
  Forall (fun r => 0 <= r /\ r <= 1 /\ b64 r) P -> Forall magnitude (fin P).
Proof.
  intros H. unfold fin. rewrite Forall_map. revert H. apply Forall_impl.
  intros r (H0 & _ & B). apply magnitude_fin; assumption.
Qed.

(** ** The error of the normalisation *)

Section Tolerance.

Local Open Scope Q_scope.

(** The arithmetic of the bound: [T] the exact sum, [s] its float64 value,
    [a = T/s], [p] the exact sum of the percents, [r] their float64 sum;
    [L] and [U] bound the accumulated relative error, [x] is [n * 2^-53]
    and [e] the accumulated error of underflows. *)
Lemma percents_bound (T s a p L U x u e : Q) :
  0 < s -> 0 <= T -> a * s == T ->
  L * T <= s -> s <= U * T ->
  (1 - u) * a - e <= p -> p <= (1 + u) * a + e ->
  1 - x <= L -> L <= 1 -> 1 <= U -> U <= 1 + 2 * x ->
  0 < u -> u <= x -> 0 <= e -> 4 * e <= x -> x <= 1 # 1000 ->
  1 - 4 * x <= p /\ p <= 1 + 4 * x.
Proof.
  intros Hs HT Ea HL HU Hp1 Hp2 L1 L2 U1 U2 Hu Hux He Hex Hx.
  assert (Ha0 : 0 <= a).
  { destruct (Qlt_le_dec a 0) as [Hn|Hn]; [|exact Hn].
    assert (a * s < 0) by nra. lra. }
  assert (A1 : L * a <= 1).
  { destruct (Qlt_le_dec 1 (L * a)) as [Hn|Hn]; [|exact Hn].
    assert (s < (L * a) * s) by nra. nra. }
  assert (A2 : 1 <= U * a).
  { destruct (Qlt_le_dec (U * a) 1) as [Hn|Hn]; [|exact Hn].
    assert ((U * a) * s < s) by nra. nra. }
  assert (A3 : a <= 1 + 2 * x) by nra.
  assert (A4 : 1 - 2 * x <= a) by nra.
  split; nra.
Qed.

Lemma normalisation_bound (p r L U x : Q) :
  1 - 4 * x <= p -> p <= 1 + 4 * x ->
  L * p <= r -> r <= U * p ->
  1 - x <= L -> L <= 1 -> 1 <= U -> U <= 1 + 2 * x ->
  0 <= x -> x <= 1 # 1000 ->
  1 - 8 * x <= r /\ r <= 1 + 8 * x.
Proof. intros. split; nra. Qed.

End Tolerance.

Lemma count_0 : count 0 = 0.
Proof. reflexivity. Qed.

Lemma count_S (n : nat) : count (S n) = count n + 1.
Proof.
  unfold count. apply Qc_is_canon. cbn [this Qcplus Q2Qc].
  rewrite !Qred_correct. rewrite Nat2Z.inj_succ, <- Z.add_1_r.
  rewrite inject_Z_plus. reflexivity.
Qed.

Lemma count_nonneg (n : nat) : 0 <= count n.
Proof.
  induction n as [|n IH]; [discriminate|]. rewrite count_S.
  apply Qcplus_nonneg; [exact IH|discriminate].
Qed.

Lemma count_le (n m : nat) : (n <= m)%nat -> count n <= count m.
Proof.
  intros H. induction H as [|m H IH]; [apply Qcle_refl|].
  rewrite count_S. eapply Qcle_trans; [exact IH|].
  apply Qcle_plus_nonneg. discriminate.
Qed.

(** [(1 + u)^n <= 1 + 2nu] and [1 - nu <= (1 - u)^n] while [nu <= 1/2]. *)
Lemma high_power_linear (n : nat) :
  count n * u64 <= Q2Qc (1 # 2) ->
  (1 + u64) ^ n <= 1 + Q2Qc 2 * (count n * u64).
Proof.
  induction n as [|n IH]; intros H.
  - rewrite count_0, Qcmult_0_l, Qcmult_0_r, Qcplus_0_r. apply Qcle_refl.
  - rewrite count_S in *. rewrite Qcpower_S.
    pose proof (count_nonneg n) as Hn.
    assert (H' : count n * u64 <= Q2Qc (1 # 2)).
    { clear IH. qc_unfold. assert (0 < pow2 (-53))%Q by reflexivity. nra. }
    specialize (IH H'). pose proof (high_power_nonneg n) as Hp.
    set (A := (1 + u64) ^ n) in *. clearbody A.
    clear H'. qc_unfold. assert (0 < pow2 (-53))%Q by reflexivity. nra.
Qed.

Lemma low_power_linear (n : nat) :
  1 - count n * u64 <= (1 - u64) ^ n.
Proof.
  induction n as [|n IH].
  - rewrite count_0, Qcmult_0_l. discriminate.
  - rewrite count_S, Qcpower_S. pose proof (count_nonneg n) as Hn.
    destruct (Qcpower_le_1 _ n (proj1 low_bounds) (proj2 low_bounds)) as [A0 A1].
    set (A := (1 - u64) ^ n) in *. clearbody A.
    qc_unfold. assert (0 < pow2 (-53))%Q by reflexivity.
    assert (pow2 (-53) < 1)%Q by reflexivity. nra.
Qed.

Lemma last_cumsum64_from (s : list float) (a d : float) :
  last (a :: cumsum64_from a s) d = sum_loop a s.
Proof.
  unfold sum_loop. revert a. induction s as [|x s IH]; intros a; [reflexivity|].
  cbn [cumsum64_from fold_left]. rewrite <- IH. reflexivity.
Qed.

(** The last cumulative entry is the left-to-right float64 sum. *)
Lemma last_np_cumsum64 (x : float) (s : list float) (d : float) :
  last (np_cumsum64 (x :: s)) d = sum_loop x s.
Proof. apply last_cumsum64_from. Qed.

Lemma last_cumsum64_approx (P : list Qc) :
  P <> [] -> Forall summand P ->
  approx (last (np_cumsum64 (fin P)) NaN) (qsum P) (length P).
Proof.
  intros Hne HP. destruct P as [|p P]; [contradiction|].
  apply Forall_cons_iff in HP. destruct HP as [[H0 B] HP].
  cbn [fin map]. rewrite last_np_cumsum64. rewrite qsum_cons.
  apply (sum_loop_approx P (Fin p) p 1 H0 (approx_leaf p H0 B) HP).
Qed.

(** The exact sum of the percents against the exact quotient of the sums. *)
Lemma percents_sum_error (ds P : list Qc) (s : Qc) :
  0 < s -> Forall summand ds ->
  np_div64 (fin ds) (Fin s) = fin P ->
  (1 - u64) * (qsum ds / s) - count (length ds) * eta64 <= qsum P /\
  qsum P <= (1 + u64) * (qsum ds / s) + count (length ds) * eta64.
Proof.
  intros Hs. revert P. induction ds as [|d ds IH]; intros P Hd E.
  - destruct P; [|discriminate E]. cbn [length]. rewrite count_0.
    unfold Qcdiv. rewrite !qsum_nil, !Qcmult_0_l, !Qcmult_0_r.
    split; discriminate.
  - destruct P as [|p P]; [discriminate E|].
    apply Forall_cons_iff in Hd. destruct Hd as [[H0 B] Hd].
    cbn [fin map np_div64] in E. injection E as Ep EP.
    destruct (IH P Hd EP) as [I1 I2]. clear IH.
    cbn [F64.div] in Ep. rewrite (Qcsgn_pos s Hs) in Ep.
    assert (Hq : 0 <= d / s) by (apply Qcdiv_nonneg; assumption).
    destruct (rnd64_error (d / s) Hq) as [[E _]|(r & E & _ & _ & R1 & R2)];
      [rewrite E in Ep; discriminate Ep|].
    rewrite E in Ep. injection Ep as ->.
    cbn [length]. rewrite count_S, !qsum_cons.
    assert (Ed : (d + qsum ds) / s = d / s + qsum ds / s)
      by (unfold Qcdiv; ring).
    rewrite Ed. set (a := d / s) in *. set (b := qsum ds / s) in *.
    set (N := count (length ds)) in *. set (S := qsum P) in *.
    clearbody a b N S. clear - I1 I2 R1 R2.
    qc_unfold. split; lra.
Qed.

Lemma count_bound (n : nat) :
  (Z.of_nat n <= 2 ^ 25)%Z -> count n <= Q2Qc (inject_Z (2 ^ 25)).
Proof.
  intros H. unfold count, Qcle.
  rewrite (this_Q2Qc (inject_Z (Z.of_nat n))),
          (this_Q2Qc (inject_Z (2 ^ 25))).
  rewrite <- Zle_Qle. exact H.
Qed.

Lemma Qc_mult_eq (a s T : Qc) : a * s = T -> (a * s == T)%Q.
Proof. intros <-. cbn [this Qcmult Q2Qc]. symmetry. apply Qred_correct. Qed.

(** A float64 sum of [n] percents, each at most [1/s] times a summand of
    the sum it was normalised by, is within [n * 2^-50] of [1.0]. *)
Lemma normalised_sum_near_one (ds P : list Qc) (s : Qc) (x : float) :
  ds <> [] -> (Z.of_nat (length ds) <= 2 ^ 25)%Z ->
  Forall summand ds -> 0 < qsum ds -> b64 s ->
  within (length ds) (qsum ds) s ->
  np_div64 (fin ds) (Fin s) = fin P ->
  approx x (qsum P) (length ds) ->
  exists r, x = Fin r /\
            1 - tolerance (length ds) <= r /\ r <= 1 + tolerance (length ds).
Proof.
  intros Hne Hn Hd HT Bs [W1 W2] EP Ax.
  set (n := length ds) in *.
  pose proof (count_bound n Hn) as HN.
  assert (HN1 : 1 <= count n).
  { destruct ds as [|d ds]; [contradiction|]. subst n. cbn [length].
    rewrite count_S. rewrite <- (Qcplus_0_l 1) at 1.
    apply Qcplus_le_compat; [apply count_nonneg|apply Qcle_refl]. }
  assert (Hx : count n * u64 <= Q2Qc (1 # 2)).
  { clear - HN. pose proof (count_nonneg n). qc_unfold.
    assert (pow2 (-53) == 1 # 9007199254740992)%Q by reflexivity.
    change (inject_Z (2 ^ 25)) with (33554432 # 1)%Q in HN. nra. }
  pose proof (high_power_linear n Hx) as HU.
  pose proof (low_power_linear n) as HL.
  pose proof (Qcpower_ge_1 (1 + u64) n high_bound) as HU1.
  destruct (Qcpower_le_1 (1 - u64) n (proj1 low_bounds) (proj2 low_bounds))
    as [HL0 HL1].
  assert (Hs : 0 < s).
  { apply Qclt_le_trans with ((1 - u64) ^ n * qsum ds); [|exact W1].
    assert (HLp : 0 < (1 - u64) ^ n).
    { apply Qclt_le_trans with (1 - count n * u64); [|exact HL].
      clear - Hx. qc_unfold. lra. }
    rewrite <- (Qcmult_0_l (qsum ds)).
    apply Qcmult_lt_compat_r; assumption. }
  destruct (percents_sum_error ds P s Hs Hd EP) as [S1 S2]. fold n in S1, S2.
  assert (Ea : qsum ds / s * s = qsum ds).
  { unfold Qcdiv. rewrite <- Qcmult_assoc, (Qcmult_comm (/ s)).
    rewrite Qcmult_inv_r; [apply Qcmult_1_r|].
    intros E. rewrite E in Hs. discriminate Hs. }
  apply Qc_mult_eq in Ea.
  assert (HP : 1 - Q2Qc 4 * (count n * u64) <= qsum P /\
               qsum P <= 1 + Q2Qc 4 * (count n * u64)).
  { set (a := qsum ds / s) in *. set (T := qsum ds) in *.
    set (p := qsum P) in *. set (N := count n) in *.
    set (L := (1 - u64) ^ n) in *. set (U := (1 + u64) ^ n) in *.
    clearbody a T p N L U.
    clear - Ea S1 S2 Hs HT W1 W2 HU HL HU1 HL0 HL1 HN HN1.
    qc_unfold.
    assert (Eu : (pow2 (-53) == 1 # 9007199254740992)%Q) by reflexivity.
    assert (Ee : (4 * pow2 (-1075) <= pow2 (-53))%Q)
      by (vm_compute; discriminate).
    assert (Ee0 : (0 <= pow2 (-1075))%Q) by (vm_compute; discriminate).
    change (inject_Z (2 ^ 25)) with (33554432 # 1)%Q in HN.
    apply (percents_bound T s a p L U (N * pow2 (-53))
             (pow2 (-53)) (N * pow2 (-1075)));
      try assumption; try lra; try nra. }
  destruct HP as [HP1 HP2].
  destruct Ax as [_ [[-> O]|(r & -> & _ & _ & R1 & R2)]].
  - exfalso.
    set (p := qsum P) in *. set (N := count n) in *.
    set (U := (1 + u64) ^ n) in *. clearbody p N U.
    clear - HP1 HP2 O HU HU1 HN HN1.
    unfold big64 in O. qc_unfold.
    assert (Eu : (pow2 (-53) == 1 # 9007199254740992)%Q) by reflexivity.
    assert (Eb : (4 <= pow2 1023)%Q) by (vm_compute; discriminate).
    change (inject_Z (2 ^ 25)) with (33554432 # 1)%Q in HN.
    assert (X : (N * pow2 (-53) <= 1 # 1000)%Q) by nra.
    assert (X0 : (0 <= N * pow2 (-53))%Q) by nra.
    nra.
  - exists r. split; [reflexivity|]. unfold tolerance.
    set (p := qsum P) in *. set (N := count n) in *.
    set (L := (1 - u64) ^ n) in *. set (U := (1 + u64) ^ n) in *.
    clearbody p N L U.
    clear - HP1 HP2 R1 R2 HU HL HU1 HL0 HL1 HN HN1.
    qc_unfold.
    assert (Eu : (pow2 (-53) == 1 # 9007199254740992)%Q) by reflexivity.
    assert (E50 : (pow2 (-50) == 8 * pow2 (-53))%Q) by reflexivity.
    change (inject_Z (2 ^ 25)) with (33554432 # 1)%Q in HN.
    assert (X : (N * pow2 (-53) <= 1 # 1000)%Q) by nra.
    assert (X0 : (0 <= N * pow2 (-53))%Q) by nra.
    destruct (normalisation_bound p r L U (N * pow2 (-53))) as [B1 B2];
      try assumption; try lra.
    rewrite E50. split; lra.
Qed.

(** For every vector [v] of at most [2^25] binary64 numbers with at least
    one non-zero entry, if the float64 sum of the absolute values did not
    overflow to [inf], then the last cumulative entry returned by
    [percvar v] and the float64 sum [np.sum] of the percents are binary64
    numbers within [n * 2^-50] of [1.0], [n] the length of [v]. *)
Lemma percvar64_tolerance (qs : list Qc) :
  Forall b64 qs -> Exists (fun q => q <> 0) qs ->
  (Z.of_nat (length qs) <= 2 ^ 25)%Z ->
  np_sum64 (rev (np_sort (np_abs (fin qs)))) <> PInf ->
  exists c t,
    last (snd (percvar64 (fin qs))) NaN = Fin c /\
    np_sum64 (fst (percvar64 (fin qs))) = Fin t /\
    1 - tolerance (length qs) <= c /\ c <= 1 + tolerance (length qs) /\
    1 - tolerance (length qs) <= t /\ t <= 1 + tolerance (length qs).
Proof.
  intros HB Hex Hn Hfin.
  destruct (sorted_abs_fin qs) as (d & E & Pd & Sd).
  assert (HL : length d = length qs).
  { rewrite (Permutation_length Pd). apply length_map. }
  assert (Hd : Forall (fun q => 0 <= q /\ b64 q) d).
  { eapply Permutation_Forall; [apply Permutation_sym, Pd|].
    apply Forall_b64_abs, HB. }
  assert (Hp : Exists (fun q => 0 < q) d).
  { eapply Permutation_Exists; [apply Permutation_sym, Pd|].
    apply Exists_abs_pos, Hex. }
  assert (HT : 0 < qsum d).
  { rewrite (qsum_perm _ _ Pd). apply abs_sum_pos.
    apply abs_sum_nonzero_iff. exact Hex. }
  assert (Hne : d <> []).
  { intros Ed. rewrite Ed in Hp. inversion Hp. }
  destruct (np_sum64_abs d Hd Hp) as (HS & HLe).
  pose proof (np_sum64_approx d Hd) as AS.
  rewrite E in Hfin.
  destruct AS as [_ [[ES _]|(s & ES & Bs & Hs0 & Ws)]]; [contradiction|].
  destruct (np_div64_positive d _ HS HLe Sd) as (P & EP & HP & SP).
  assert (HPs : Forall summand P).
  { revert HP. apply Forall_impl. intros r (H0 & _ & B). split; assumption. }
  assert (HLP : length P = length d).
  { apply (f_equal (@length float)) in EP. unfold np_div64, fin in EP.
    rewrite !length_map in EP. symmetry. exact EP. }
  assert (HPne : P <> []).
  { intros EPn. rewrite EPn in HLP. destruct d; [contradiction|discriminate]. }
  assert (Epv : percvar64 (fin qs) = (fin P, np_cumsum64 (fin P))).
  { unfold percvar64. rewrite E, EP. reflexivity. }
  rewrite Epv. cbn [fst snd]. rewrite ES in EP. rewrite <- HL in *.
  pose proof (last_cumsum64_approx P HPne HPs) as Ac.
  pose proof (np_sum64_approx P HPs) as At.
  rewrite HLP in Ac, At.
  destruct (normalised_sum_near_one d P s _ Hne Hn Hd HT Bs Ws EP Ac)
    as (c & Ec & C1 & C2).
  destruct (normalised_sum_near_one d P s _ Hne Hn Hd HT Bs Ws EP At)
    as (t & Et & T1 & T2).
  exists c, t. auto 10.
Qed.

(** ** Reading sorted arrays and the result of [perck] *)

Lemma StronglySorted_nth {A : Type} (R : A -> A -> Prop) (l : list A) (d : A)
      (i j : nat) :
  StronglySorted R l -> (i < j < length l)%nat -> R (nth i l d) (nth j l d).
Proof.
  intros H. revert i j. induction H as [|x l Hs IH Hx]; intros i j Hij.
  - cbn in Hij. lia.
  - cbn in Hij. destruct j as [|j]; [lia|]. destruct i as [|i]; cbn [nth].
    + rewrite Forall_forall in Hx. apply Hx, nth_In. lia.
    + apply IH. lia.
Qed.

Lemma perck_below (s : list float) (p : float) (k : nat) :
  (perck s p <= k)%nat -> (k < length s)%nat ->
  exists i, (i < k)%nat /\ reaches s p i = true.
Proof.
  unfold perck. intros Hk Hn.
  destruct (perck_for s p (seq 0 (length s))) as [m|] eqn:E; [|lia].
  apply perck_for_Some in E. destruct E as (Hm & Hr & _).
  exists (m - 1)%nat. split; [lia|exact Hr].
Qed.

Lemma Qcdiv_1_r (r : Qc) : r / 1 = r.
Proof. field. discriminate. Qed.

Lemma Qcsgn_scale (k s : Qc) : 0 < k -> Qcsgn (k * s) = Qcsgn s.
Proof.
  intros Hk. unfold Qcsgn.
  destruct (s ?= 0) eqn:E.
  - apply Qceq_alt in E. subst s. rewrite Qcmult_0_r. reflexivity.
  - apply Qclt_alt in E. apply Qclt_alt.
    rewrite <- (Qcmult_0_r k). rewrite !(Qcmult_comm k).
    apply Qcmult_lt_compat_r; assumption.
  - apply Qcgt_alt in E. apply Qcgt_alt.
    rewrite <- (Qcmult_0_r k). rewrite !(Qcmult_comm k).
    apply Qcmult_lt_compat_r; assumption.
Qed.

Lemma Qcdiv_scale (k x s : Qc) : k <> 0 -> s <> 0 -> (k * x) / (k * s) = x / s.
Proof. intros Hk Hs. field. split; assumption. Qed.

(** Division of a scaled number by a sum scaled in the same way. *)
Lemma F64_div_scale (k x : Qc) (S : float) :
  0 < k ->
  F64.div (Fin (k * x)) (F.mul (Fin k) S) = F64.div (Fin x) S.
Proof.
  intros Hk.
  assert (Hk' : k <> 0).
  { intros E. rewrite E in Hk. discriminate Hk. }
  destruct S as [s| | |]; cbn [F.mul F64.div F.div].
  - rewrite !(Qcsgn_scale k _ Hk). destruct (Qcsgn s) eqn:E; try reflexivity.
    + rewrite Qcdiv_scale; [reflexivity|exact Hk'|].
      intros Es. subst s. discriminate E.
    + rewrite Qcdiv_scale; [reflexivity|exact Hk'|].
      intros Es. subst s. discriminate E.
  - rewrite (Qcsgn_pos k Hk). reflexivity.
  - rewrite (Qcsgn_pos k Hk). reflexivity.
  - reflexivity.
Qed.

(** ** Where the two arithmetics agree

    The statements proved about [percvar] that do not depend on rounding,
    proved again about [percvar64]. *)

Lemma percvar64_empty : percvar64 [] = ([], []).
Proof. reflexivity. Qed.

Lemma percvar64_length (v : list float) :
  length (fst (percvar64 v)) = length v /\
  length (snd (percvar64 v)) = length v.
Proof.
  unfold percvar64. cbn [fst snd].
  rewrite length_np_cumsum64. unfold np_div64, np_abs.
  rewrite length_map, length_rev, length_np_sort, length_map. split; reflexivity.
Qed.

Lemma percvar64_permutation (v w : list float) :
  Permutation v w -> percvar64 v = percvar64 w.
Proof.
  intros H. unfold percvar64.
  rewrite (np_sort_permutation (np_abs v) (np_abs w)); [reflexivity|].
  apply Permutation_map. exact H.
Qed.

Lemma percvar64_sign_blind (v : list float) :
  percvar64 (np_abs v) = percvar64 v /\
  percvar64 (map F.neg v) = percvar64 v.
Proof.
  unfold percvar64, np_abs. rewrite !map_map. split.
  - rewrite (map_ext _ F.abs F_abs_idem). reflexivity.
  - rewrite (map_ext _ F.abs F_abs_neg). reflexivity.
Qed.

(** A predicate that holds of [0.0] and is preserved by addition holds of
    every float64 sum. *)
Lemma sum_loop_closed (Q : float -> Prop) (l : list float) (acc : float) :
  (forall a b, Q a -> Q b -> Q (F64.add a b)) ->
  Q acc -> Forall Q l -> Q (sum_loop acc l).
Proof.
  intros HQ. unfold sum_loop. revert acc.
  induction l as [|x l IH]; intros acc Ha Hl; cbn; [exact Ha|].
  apply Forall_cons_iff in Hl. destruct Hl as [Hx Hl].
  apply IH; [apply HQ; assumption|exact Hl].
Qed.

Lemma add_lanes_closed (Q : float -> Prop) (r a : list float) :
  (forall a b, Q a -> Q b -> Q (F64.add a b)) ->
  Forall Q r -> Forall Q a -> Forall Q (add_lanes r a).
Proof.
  intros HQ. revert a. induction r as [|x r IH]; intros a Hr Ha; cbn;
    [constructor|].
  destruct a as [|y a]; [exact Hr|].
  apply Forall_cons_iff in Hr. destruct Hr as [Hx Hr].
  apply Forall_cons_iff in Ha. destruct Ha as [Hy Ha].
  constructor; [apply HQ; assumption|apply IH; assumption].
Qed.

Lemma block_loop_closed (Q : float -> Prop) (fuel : nat) (r a : list float) :
  (forall a b, Q a -> Q b -> Q (F64.add a b)) ->
  length r = 8%nat -> Forall Q r -> Forall Q a ->
  length (fst (block_loop fuel r a)) = 8%nat /\
  Forall Q (fst (block_loop fuel r a)) /\
  Forall Q (snd (block_loop fuel r a)).
Proof.
  intros HQ. revert r a. induction fuel as [|f IH]; intros r a Er Hr Ha.
  - cbn. repeat split; assumption.
  - cbn [block_loop]. destruct (8 <=? length a)%nat eqn:E8.
    + apply Nat.leb_le in E8. apply IH.
      * clear IH Hr Ha. revert Er E8.
        destruct r as [|r0 [|r1 [|r2 [|r3 [|r4 [|r5 [|r6 [|r7 [|r8 r]]]]]]]]];
          try discriminate.
        destruct a as [|a0 [|a1 [|a2 [|a3 [|a4 [|a5 [|a6 [|a7 a]]]]]]]];
          cbn; intros; try lia; reflexivity.
      * apply add_lanes_closed; [exact HQ|exact Hr|].
        apply Forall_firstn, Ha.
      * apply Forall_skipn, Ha.
    + cbn. repeat split; assumption.
Qed.

Lemma lane_tree_closed (Q : float -> Prop) (r : list float) :
  (forall a b, Q a -> Q b -> Q (F64.add a b)) ->
  length r = 8%nat -> Forall Q r -> Q (lane_tree r).
Proof.
  intros HQ E H.
  destruct r as [|r0 [|r1 [|r2 [|r3 [|r4 [|r5 [|r6 [|r7 [|r8 r]]]]]]]]];
    try discriminate E.
  repeat match goal with
         | H : Forall _ (_ :: _) |- _ =>
             apply Forall_cons_iff in H; destruct H as [? H]
         end.
  cbn [lane_tree]. repeat apply HQ; assumption.
Qed.

Lemma pairwise_sum_closed (Q : float -> Prop) (fuel : nat) (a : list float) :
  (forall a b, Q a -> Q b -> Q (F64.add a b)) -> Q (Fin 0) ->
  (length a <= fuel)%nat -> Forall Q a -> Q (pairwise_sum fuel a).
Proof.
  intros HQ H0. revert a. induction fuel as [|f IH]; intros a Hf Ha.
  - destruct a; [|cbn in Hf; lia]. exact H0.
  - cbn [pairwise_sum]. destruct (length a <? 8)%nat eqn:E8.
    + apply sum_loop_closed; assumption.
    + apply Nat.ltb_ge in E8. destruct (length a <=? 128)%nat eqn:E128.
      * destruct (block_loop_closed Q (length a) (firstn 8 a) (skipn 8 a) HQ)
          as (EL & HR & HT);
          [rewrite length_firstn; lia|apply Forall_firstn, Ha
          |apply Forall_skipn, Ha|].
        destruct (block_loop (length a) (firstn 8 a) (skipn 8 a)) as [r rest].
        cbn [fst snd] in *.
        apply sum_loop_closed; [exact HQ| |exact HT].
        apply lane_tree_closed; assumption.
      * apply Nat.leb_gt in E128.
        set (n2 := (length a / 2 - (length a / 2) mod 8)%nat).
        assert (Hn2 : (8 <= n2 < length a)%nat).
        { unfold n2. pose proof (Nat.mod_upper_bound (length a / 2) 8).
          pose proof (Nat.div_mod_eq (length a) 2).
          pose proof (Nat.mod_upper_bound (length a) 2). lia. }
        apply HQ; apply IH;
          rewrite ?length_firstn, ?length_skipn;
          try lia; [apply Forall_firstn, Ha|apply Forall_skipn, Ha].
Qed.

Lemma np_sum64_closed (Q : float -> Prop) (a : list float) :
  (forall a b, Q a -> Q b -> Q (F64.add a b)) -> Q (Fin 0) ->
  Forall Q a -> Q (np_sum64 a).
Proof.
  intros HQ H0 Ha. unfold np_sum64. apply HQ; [exact H0|].
  apply pairwise_sum_closed; auto.
Qed.

Lemma np_sum64_zeros (n : nat) : np_sum64 (repeat (Fin 0) n) = Fin 0.
Proof.
  apply (np_sum64_closed (fun x => x = Fin 0)).
  - intros a b -> ->. reflexivity.
  - reflexivity.
  - apply Forall_forall. intros x Hx. apply repeat_spec in Hx. exact Hx.
Qed.

Lemma cumsum64_from_nans (n : nat) :
  cumsum64_from NaN (repeat NaN n) = repeat NaN n.
Proof. induction n as [|n IH]; cbn; [reflexivity|]. rewrite IH. reflexivity. Qed.

(** An all-zero vector: every entry of both results is [nan]. *)
Lemma percvar64_zeros (n : nat) :
  percvar64 (repeat (Fin 0) n) = (repeat NaN n, repeat NaN n).
Proof.
  unfold percvar64, np_abs. rewrite map_repeat.
  assert (E : F.abs (Fin 0) = Fin 0)
    by (cbn; f_equal; apply Qcabs_pos, Qcle_refl).
  rewrite E, np_sort_repeat, rev_repeat, np_sum64_zeros.
  unfold np_div64. rewrite map_repeat.
  change (F64.div (Fin 0) (Fin 0)) with NaN.
  f_equal. destruct n as [|n]; [reflexivity|].
  cbn [repeat np_cumsum64]. rewrite cumsum64_from_nans. reflexivity.
Qed.

(** A single non-zero binary64 number: [[1.0]] twice. *)
Lemma percvar64_singleton (x : Qc) :
  b64 x -> x <> 0 -> percvar64 [Fin x] = ([Fin 1]%list, [Fin 1]%list).
Proof.
  intros B Hx. pose proof (b64_abs x B) as Ba.
  pose proof (Qcabs_pos_nonzero x Hx) as Hp.
  unfold percvar64. cbn [np_abs map np_sort fold_right sort_insert rev app F.abs].
  assert (ES : np_sum64 [Fin (Qcabs x)] = Fin (Qcabs x)).
  { unfold np_sum64. cbn [length pairwise_sum Nat.ltb Nat.leb sum_loop fold_left].
    assert (M : magnitude (Fin (Qcabs x)))
      by (apply magnitude_fin; [apply Qcabs_nonneg|exact Ba]).
    rewrite (F64_add_zero_l _ M). apply F64_add_zero_l, M. }
  rewrite ES. cbn [np_div64 map F64.div]. rewrite (Qcsgn_pos _ Hp).
  assert (E1 : Qcabs x / Qcabs x = 1).
  { unfold Qcdiv. apply Qcmult_inv_r. intros E. rewrite E in Hp.
    discriminate Hp. }
  rewrite E1, b64_one. reflexivity.
Qed.

(** The worked example, with every decimal read as the nearest binary64
    number: the same counts as in [wine_scenario]. *)
Lemma wine_scenario64 :
  let v := map (fun n => lit n 100)
               [473; 251; 145; 92; 86; 65; 55; 10; 35; 17; 29; 23; 25]%Z in
  perck (snd (percvar64 v)) (lit 80 100) = 5%nat /\
  perck (snd (percvar64 v)) (lit 95 100) = 10%nat.
Proof. split; vm_compute; reflexivity. Qed.

(** * The claims about the arithmetic of [percvar] *)









(** C7 (amended): for every vector [v] of [n] binary64 numbers with at
    least one non-zero entry and [cumulative] the second component of
    [percvar v]: [perck(cumulative, 0)] is 1; [perck(cumulative, 1.0)] lies
    between 1 and [n]; and for every [k] with [1 <= k < n],
    [perck(cumulative, 1.0) <= k] exactly when [cumulative[k-1] >= 1.0].
    So the result is [n] exactly when [n = 1] or the entry before the last
    is still below [1.0]. *)
Theorem perck64_endpoints (qs : list Qc) :
  Forall b64 qs -> Exists (fun q => q <> 0) qs ->
  length (snd (percvar64 (fin qs))) = length qs /\
  perck (snd (percvar64 (fin qs))) (Fin 0) = 1%nat /\
  (1 <= perck (snd (percvar64 (fin qs))) (Fin 1) <= length qs)%nat /\
  forall k, (1 <= k < length qs)%nat ->
    ((perck (snd (percvar64 (fin qs))) (Fin 1) <= k)%nat <->
     F.geb (nth (k - 1) (snd (percvar64 (fin qs))) NaN) (Fin 1) = true).
Proof.
  intros HB Hex.
  destruct (percvar64_fin_shape qs HB Hex) as (P & E & HL & HP & SP).
  rewrite E. cbn [snd].
  destruct (np_cumsum64_sorted (fin P) (magnitude_percents P HP)) as (HM & HS).
  assert (Hn : length (np_cumsum64 (fin P)) = length qs).
  { rewrite length_np_cumsum64, length_fin. exact HL. }
  assert (Hpos : (0 < length qs)%nat).
  { destruct Hex; cbn; lia. }
  set (c := np_cumsum64 (fin P)) in *.
  split; [exact Hn|]. split; [|split].
  - apply perck_first; [lia| |intros j Hj; lia].
    unfold reaches, F.geb. apply magnitude_nonneg.
    rewrite Forall_forall in HM. apply HM, nth_In. lia.
  - split; [apply perck_nonempty_pos|rewrite <- Hn; apply perck_le_length].
    intros Ec. rewrite Ec in Hn. cbn in Hn. lia.
  - intros k Hk. split.
    + intros Hle. destruct (perck_below c (Fin 1) k Hle) as (i & Hi & Hr);
        [lia|].
      unfold reaches, F.geb in Hr. unfold F.geb.
      destruct (Nat.eq_dec i (k - 1)) as [->|Hne]; [exact Hr|].
      eapply F_leb_trans; [exact Hr|].
      apply (StronglySorted_nth _ c NaN i (k - 1) HS). lia.
    + intros Hr.
      destruct (perck_reached c (Fin 1) (k - 1)) as (Hle & _);
        [lia|exact Hr|]. lia.
Qed.

Lemma perck64_endpoints_witness :
  let qs := [1; Q2Qc 2; Q2Qc 3; 0] in
  Forall b64 qs /\ Exists (fun q => q <> 0) qs /\
  length (snd (percvar64 (fin qs))) = length qs /\
  perck (snd (percvar64 (fin qs))) (Fin 0) = 1%nat /\
  (1 <= perck (snd (percvar64 (fin qs))) (Fin 1) <= length qs)%nat /\
  forall k, (1 <= k < length qs)%nat ->
    ((perck (snd (percvar64 (fin qs))) (Fin 1) <= k)%nat <->
     F.geb (nth (k - 1) (snd (percvar64 (fin qs))) NaN) (Fin 1) = true).
Proof.
  cbv zeta.
  assert (HB : Forall b64 [1; Q2Qc 2; Q2Qc 3; 0])
    by (repeat constructor; apply b64_feqb; vm_compute; reflexivity).
  assert (Hex : Exists (fun q => q <> 0) [1; Q2Qc 2; Q2Qc 3; 0])
    by (left; discriminate).
  split; [exact HB|]. split; [exact Hex|].
  exact (perck64_endpoints _ HB Hex).
Defined.

(** What [perck(cumulative, 1.0)] is on four small vectors: the full
    length by the fallback when rounding leaves the last cumulative entry
    below [1.0], and an earlier position when an early entry is already
    [1.0]. *)
Lemma perck64_target_one_examples :
  perck (snd (percvar64 (fin [1; Q2Qc 2; Q2Qc 3; 0]))) (Fin 1) = 4%nat /\
  perck (snd (percvar64 (fin [1; Q2Qc 2; Q2Qc 3]))) (Fin 1) = 3%nat /\
  perck (snd (percvar64 (fin [1; 0]))) (Fin 1) = 1%nat /\
  perck (snd (percvar64 [Fin 1; lit 1 100000000000000000])) (Fin 1) = 1%nat /\
  perck (snd (percvar64 (fin [1; Q2Qc 3]))) (Fin 1) = 2%nat.
Proof. repeat split; vm_compute; reflexivity. Qed.

(** C8 (counterexample): the percents of [v = [1, 2, 3]] are
    [[0.5, 0.3333333333333333, 0.16666666666666666]]; they sum to
    [0.9999999999999999], and applying [percvar] to them returns
    [[0.5000000000000001, 0.33333333333333337, 0.16666666666666669]]:
    every entry changes. *)
Lemma percvar64_second_pass_changes :
  Forall b64 [1; Q2Qc 2; Q2Qc 3] /\ qsum (map Qcabs [1; Q2Qc 2; Q2Qc 3]) <> 0 /\
  fst (percvar64 (fin [1; Q2Qc 2; Q2Qc 3]))
    = [Fin (Q2Qc (1 # 2));
       Fin (Q2Qc (6004799503160661 # 18014398509481984));
       Fin (Q2Qc (6004799503160661 # 36028797018963968))] /\
  fst (percvar64 (fst (percvar64 (fin [1; Q2Qc 2; Q2Qc 3]))))
    = [Fin (Q2Qc (4503599627370497 # 9007199254740992));
       Fin (Q2Qc (3002399751580331 # 9007199254740992));
       Fin (Q2Qc (3002399751580331 # 18014398509481984))] /\
  fst (percvar64 (fst (percvar64 (fin [1; Q2Qc 2; Q2Qc 3]))))
    <> fst (percvar64 (fin [1; Q2Qc 2; Q2Qc 3])).
Proof.
  split; [repeat constructor; apply b64_feqb; vm_compute; reflexivity|].
  split; [discriminate|].
  split; [apply list_feqb_eq; vm_compute; reflexivity|].
  split; [apply list_feqb_eq; vm_compute; reflexivity|].
  apply list_feqb_neq. vm_compute. reflexivity.
Qed.

(** C8 (amended): for every vector [v] of binary64 numbers with at least
    one non-zero entry and [percents] the first component of [percvar v],
    the percents output of [percvar percents] is [percents] divided
    elementwise by the float64 sum [np.sum percents] (taking absolute
    values and re-sorting change nothing); it equals [percents] whenever
    that sum is exactly [1.0]. *)
Theorem percvar64_second_pass (qs : list Qc) :
  Forall b64 qs -> Exists (fun q => q <> 0) qs ->
  fst (percvar64 (fst (percvar64 (fin qs))))
    = np_div64 (fst (percvar64 (fin qs)))
               (np_sum64 (fst (percvar64 (fin qs)))) /\
  (np_sum64 (fst (percvar64 (fin qs))) = Fin 1 ->
   fst (percvar64 (fst (percvar64 (fin qs)))) = fst (percvar64 (fin qs))).
Proof.
  intros HB Hex.
  destruct (percvar64_fin_shape qs HB Hex) as (P & E & HL & HP & SP).
  rewrite E. cbn [fst].
  assert (E2 : fst (percvar64 (fin P)) = np_div64 (fin P) (np_sum64 (fin P))).
  { unfold percvar64. cbn [fst]. rewrite sorted_abs_fixed; [reflexivity| |exact SP].
    revert HP. apply Forall_impl. intros r (H0 & _). exact H0. }
  split; [exact E2|]. intros H1. rewrite E2, H1.
  unfold np_div64, fin. rewrite map_map.
  apply map_ext_in. intros r Hr. rewrite Forall_forall in HP.
  destruct (HP r Hr) as (_ & _ & Br).
  cbn. rewrite Qcdiv_1_r. exact Br.
Qed.

Lemma percvar64_second_pass_witness :
  let qs := [1; Q2Qc 3] in
  Forall b64 qs /\ Exists (fun q => q <> 0) qs /\
  fst (percvar64 (fst (percvar64 (fin qs))))
    = np_div64 (fst (percvar64 (fin qs)))
               (np_sum64 (fst (percvar64 (fin qs)))) /\
  (np_sum64 (fst (percvar64 (fin qs))) = Fin 1 ->
   fst (percvar64 (fst (percvar64 (fin qs)))) = fst (percvar64 (fin qs))).
Proof.
  cbv zeta.
  assert (HB : Forall b64 [1; Q2Qc 3])
    by (repeat constructor; apply b64_feqb; vm_compute; reflexivity).
  assert (Hex : Exists (fun q => q <> 0) [1; Q2Qc 3]) by (left; discriminate).
  split; [exact HB|]. split; [exact Hex|].
  exact (percvar64_second_pass _ HB Hex).
Defined.

(** * Properties of the text-classification notebook *)

(** ** [select_feature] and the vocabulary *)

Lemma select_feature_row_in (rows : list string) (feature : set string) (f : string) :
  In f (select_feature_row rows feature) <-> In f rows \/ In f feature.
Proof.
  revert feature. induction rows as [|g rows IH]; intros feature; cbn.
  - tauto.
  - rewrite IH, set_add_iff. intuition congruence.
Qed.

Lemma select_feature_row_nodup (rows : list string) (feature : set string) :
  NoDup feature -> NoDup (select_feature_row rows feature).
Proof.
  revert feature. induction rows as [|g rows IH]; intros feature H; cbn.
  - exact H.
  - apply IH, set_add_nodup, H.
Qed.

Lemma select_feature_rows_in (data : list (list string)) (feature : set string)
    (f : string) :
  In f (select_feature_rows data feature) <->
  (exists rows, In rows data /\ In f rows) \/ In f feature.
Proof.
  revert feature. induction data as [|r data IH]; intros feature; cbn.
  - split; [auto|]. intros [(rows & [] & _)|H]; exact H.
  - rewrite IH, select_feature_row_in. split.
    + intros [(rows & Hr & Hf)|[Hf|Hf]]; eauto.
    + intros [(rows & [<-|Hr] & Hf)|Hf]; eauto.
Qed.

Lemma select_feature_rows_nodup (data : list (list string)) (feature : set string) :
  NoDup feature -> NoDup (select_feature_rows data feature).
Proof.
  revert feature. induction data as [|r data IH]; intros feature H; cbn.
  - exact H.
  - apply IH, select_feature_row_nodup, H.
Qed.

Lemma select_feature_in (data : list (list string)) (f : string) :
  In f (select_feature data) <-> exists rows, In rows data /\ In f rows.
Proof.
  unfold select_feature. rewrite select_feature_rows_in. cbn. tauto.
Qed.

Lemma select_feature_nodup (data : list (list string)) :
  NoDup (select_feature data).
Proof. apply select_feature_rows_nodup. constructor. Qed.

(** X13: [select_feature] returns each token once, and a token is in
    the result exactly when it occurs in some row of the data. *)
Theorem select_feature_spec (data : list (list string)) :
  NoDup (select_feature data) /\
  forall f, In f (select_feature data) <->
            exists rows, In rows data /\ In f rows.
Proof. split; [apply select_feature_nodup|apply select_feature_in]. Qed.

(** X14: the vocabulary [features] built from the two token tables holds
    each token once, and a token is in it exactly when it occurs in some
    training document and in some test document. *)
Theorem features_spec (training testing : list (list string)) :
  NoDup (set_inter string_dec (select_feature training) (select_feature testing)) /\
  forall f,
    In f (set_inter string_dec (select_feature training) (select_feature testing))
    <-> (exists rows, In rows training /\ In f rows) /\
        (exists rows, In rows testing /\ In f rows).
Proof.
  split.
  - apply set_inter_nodup; apply select_feature_nodup.
  - intros f. rewrite set_inter_iff, !select_feature_in. tauto.
Qed.

(** ** [countValues] *)

Lemma countValues_loop_counts (output : list string) (one zero : nat) :
  countValues_loop output one zero
  = ((one + count_occ string_dec output "1"%string)%nat,
     (zero + (length output - count_occ string_dec output "1"%string))%nat).
Proof.
  revert one zero. induction output as [|i output IH]; intros one zero.
  - cbn. f_equal; lia.
  - cbn [countValues_loop]. pose proof (count_occ_bound string_dec "1"%string output).
    destruct (String.eqb i "1"%string) eqn:E.
    + apply String.eqb_eq in E. rewrite IH, (count_occ_cons_eq _ _ E).
      cbn [length]. f_equal; lia.
    + apply String.eqb_neq in E. rewrite IH, (count_occ_cons_neq _ _ E).
      cbn [length]. f_equal; lia.
Qed.

(** X15: [countValues] prints two numbers: the number of entries equal
    to the string ['1'], then the number of all other entries; together
    they account for every entry. *)
Theorem countValues_partition (output : list string) :
  exists one zero,
    countValues output = [one; zero] /\
    one = count_occ string_dec output "1"%string /\
    (one + zero = length output)%nat.
Proof.
  unfold countValues. rewrite countValues_loop_counts.
  pose proof (count_occ_bound string_dec "1"%string output).
  eexists _, _. split; [reflexivity|]. split; lia.
Qed.

(** ** [outputToFile] *)

Lemma append_assoc (a b c : string) :
  String.append (String.append a b) c = String.append a (String.append b c).
Proof. induction a as [|x a IH]; cbn; [|rewrite IH]; reflexivity. Qed.

Lemma append_empty_r (a : string) : String.append a EmptyString = a.
Proof. induction a as [|x a IH]; cbn; [|rewrite IH]; reflexivity. Qed.

Lemma count_char_append (c : ascii) (a b : string) :
  count_char c (String.append a b) = (count_char c a + count_char c b)%nat.
Proof. induction a as [|x a IH]; cbn; [|rewrite IH]; lia. Qed.

Lemma py_split_nonempty (sep : ascii) (s : string) : py_split sep s <> [].
Proof.
  destruct s as [|c r]; cbn; [discriminate|].
  destruct (ascii_dec c sep); [discriminate|].
  destruct (py_split sep r); discriminate.
Qed.

(** Splitting a text that starts with a separator-free piece [x] followed by
    a separator. *)
Lemma py_split_piece (sep : ascii) (x rest : string) :
  count_char sep x = 0%nat ->
  py_split sep (String.append x (String sep rest)) = x :: py_split sep rest.
Proof.
  induction x as [|c x IH]; intros Hx; cbn [String.append py_split].
  - destruct (ascii_dec sep sep); [reflexivity|congruence].
  - cbn [count_char] in Hx. destruct (ascii_dec c sep) as [E|E]; [discriminate|].
    rewrite IH by lia. reflexivity.
Qed.

(** The text written for [output]: every entry followed by a newline. *)
Lemma outputToFile_loop_text (output : list string) (log : string) :
  outputToFile_loop output log
  = String.append log
      (fold_right (fun x acc => String.append x (String newline acc))
                  EmptyString output).
Proof.
  revert log. induction output as [|x output IH]; intros log; cbn.
  - symmetry. apply append_empty_r.
  - rewrite IH, !append_assoc. reflexivity.
Qed.

(** X16: when no entry contains a newline, the file written by
    [outputToFile] holds one newline per entry, and splitting its content
    at newlines gives back the entries, in order, followed by one empty
    piece. *)
Theorem outputToFile_lines (output : list string) :
  Forall (fun x => count_char newline x = 0%nat) output ->
  count_char newline (outputToFile output) = length output /\
  py_split newline (outputToFile output) = output ++ [EmptyString].
Proof.
  intros H. unfold outputToFile. rewrite outputToFile_loop_text.
  cbn [String.append]. induction H as [|x output Hx _ [IH1 IH2]]; cbn.
  - split; reflexivity.
  - split.
    + rewrite count_char_append, Hx. cbn [count_char].
      destruct (ascii_dec newline newline); [|congruence]. rewrite IH1. lia.
    + rewrite (py_split_piece _ _ _ Hx), IH2. reflexivity.
Qed.

Lemma outputToFile_lines_witness :
  Forall (fun x => count_char newline x = 0%nat) ["1"%string; "0"%string] /\
  count_char newline (outputToFile ["1"%string; "0"%string]) = 2%nat /\
  py_split newline (outputToFile ["1"%string; "0"%string])
  = ["1"%string; "0"%string; EmptyString].
Proof.
  assert (H : Forall (fun x => count_char newline x = 0%nat)
                     ["1"%string; "0"%string])
    by (repeat constructor).
  split; [exact H|]. exact (outputToFile_lines _ H).
Defined.

(** ** The cells that read the files and build the lists *)

Lemma read_train_spec (lines printed : list string)
    (training_data : list (list string)) :
  read_train lines printed training_data = (printed ++ lines, training_data).
Proof.
  revert printed. induction lines as [|l lines IH]; intros printed; cbn.
  - rewrite app_nil_r. reflexivity.
  - rewrite IH, <- app_assoc. reflexivity.
Qed.

Lemma read_test_spec (lines : list string) (testing_data : list (list string)) :
  read_test lines testing_data = testing_data ++ map (py_split tab) lines.
Proof.
  revert testing_data. induction lines as [|l lines IH]; intros td; cbn.
  - rewrite app_nil_r. reflexivity.
  - rewrite IH, <- app_assoc. reflexivity.
Qed.

Lemma testing_loop_nonempty (testing_data : list (list string)) (st : test_lists) :
  Forall (fun td => td <> []) testing_data ->
  testing_loop testing_data st
  = ({| test_list := test_list st ++ map (hd EmptyString) testing_data;
        testing_list := testing_list st
                        ++ map (fun td => py_split space (hd EmptyString td))
                               testing_data |},
     None).
Proof.
  intros H. revert st. induction H as [|td data Htd _ IH]; intros st; cbn.
  - rewrite !app_nil_r. destruct st; reflexivity.
  - destruct td as [|td0 td]; [congruence|]. cbn.
    rewrite IH. cbn. rewrite <- !app_assoc. reflexivity.
Qed.

(** X17: on the records that the reading cell produces from the lines
    of the test file, the test loop never raises: each line has a first
    field, [test_list] receives it (the text before the first tab) and
    [testing_list] its space-separated tokens, one entry per line. *)
Theorem testing_loop_never_raises (lines : list string) :
  testing_loop (read_test lines []) no_test_lists
  = ({| test_list := map (fun l => hd EmptyString (py_split tab l)) lines;
        testing_list :=
          map (fun l => py_split space (hd EmptyString (py_split tab l))) lines |},
     None).
Proof.
  rewrite read_test_spec. cbn [app].
  rewrite testing_loop_nonempty.
  - cbn. rewrite !map_map. reflexivity.
  - apply Forall_map, Forall_forall. intros l _. apply py_split_nonempty.
Qed.

Lemma training_loop_complete (training_data : list (list string)) (st : train_lists) :
  Forall (fun td => (2 <= length td)%nat) training_data ->
  training_loop training_data st
  = ({| given_class := given_class st
                       ++ map (fun td => nth 0 td EmptyString) training_data;
        training_list := training_list st
                         ++ map (fun td => py_split space (nth 1 td EmptyString))
                                training_data;
        train_list := train_list st
                      ++ map (fun td => nth 1 td EmptyString) training_data |},
     None).
Proof.
  intros H. revert st. induction H as [|td data Htd _ IH]; intros st; cbn.
  - rewrite !app_nil_r. destruct st; reflexivity.
  - destruct td as [|td0 [|td1 td]]; cbn in Htd; try lia. cbn.
    rewrite IH. cbn. rewrite <- !app_assoc. reflexivity.
Qed.

(** X18: when every training record has at least two fields, the
    training loop raises nothing and fills the three lists in step: the
    classes are the first fields, the documents the second fields, and the
    token lists the space-separated pieces of the documents. *)
Theorem training_loop_success (training_data : list (list string)) :
  Forall (fun td => (2 <= length td)%nat) training_data ->
  training_loop training_data no_train_lists
  = ({| given_class := map (fun td => nth 0 td EmptyString) training_data;
        training_list :=
          map (fun td => py_split space (nth 1 td EmptyString)) training_data;
        train_list := map (fun td => nth 1 td EmptyString) training_data |},
     None).
Proof. intros H. rewrite (training_loop_complete _ _ H). reflexivity. Qed.

Lemma training_loop_success_witness :
  let data := [["1"%string; "a b"%string]; ["0"%string; "c"%string]] in
  Forall (fun td => (2 <= length td)%nat) data /\
  training_loop data no_train_lists
  = ({| given_class := ["1"%string; "0"%string];
        training_list := [["a"%string; "b"%string]; ["c"%string]%list];
        train_list := ["a b"%string; "c"%string] |},
     None).
Proof.
  assert (H : Forall (fun td => (2 <= length td)%nat)
                [["1"%string; "a b"%string]; ["0"%string; "c"%string]])
    by (repeat constructor).
  split; [exact H|].
  exact (training_loop_success _ H).
Defined.

Lemma training_loop_short (training_data : list (list string)) (st : train_lists) :
  Exists (fun td => (length td < 2)%nat) training_data ->
  exists st' k,
    training_loop training_data st = (st', Some IndexError) /\
    (k < length training_data)%nat /\
    length (train_list st') = (length (train_list st) + k)%nat /\
    length (training_list st') = (length (training_list st) + k)%nat /\
    (length (given_class st') = (length (given_class st) + k)%nat \/
     length (given_class st') = (length (given_class st) + k + 1)%nat).
Proof.
  revert st. induction training_data as [|td data IH]; intros st Hex.
  - inversion Hex.
  - destruct td as [|td0 [|td1 td]].
    + exists st, 0%nat. cbn [training_loop nth_error length].
      split; [reflexivity|]. split; [lia|]. split; [lia|]. split; [lia|].
      left. lia.
    + eexists _, 0%nat. cbn [training_loop nth_error length].
      split; [reflexivity|]. cbn [train_list training_list given_class].
      split; [lia|]. split; [lia|]. split; [lia|].
      right. rewrite length_app. cbn [length]. lia.
    + inversion_clear Hex as [? ? Hh|? ? Ht]; [cbn in Hh; lia|].
      cbn [training_loop nth_error].
      match goal with
      | |- context [training_loop data ?s] =>
          destruct (IH s Ht) as (st' & k & E & Hk & H1 & H2 & H3)
      end.
      exists st', (S k). cbn [train_list training_list given_class] in *.
      rewrite !length_app in *. cbn [length] in *.
      split; [exact E|]. split; [lia|]. split; [lia|]. split; [lia|].
      destruct H3 as [H3|H3]; [left|right]; lia.
Qed.

(** X19: when some training record has fewer than two fields, the
    training loop stops with [IndexError].  The document and token lists
    are then equally long and shorter than the data, and [given_class] has
    either as many entries or one more: the class of a record without a
    second field is appended before [td[1]] raises. *)
Theorem training_loop_index_error (training_data : list (list string)) :
  Exists (fun td => (length td < 2)%nat) training_data ->
  exists st,
    training_loop training_data no_train_lists = (st, Some IndexError) /\
    length (train_list st) = length (training_list st) /\
    (length (train_list st) < length training_data)%nat /\
    (length (train_list st) <= length (given_class st)
     <= length (train_list st) + 1)%nat.
Proof.
  intros H.
  destruct (training_loop_short _ no_train_lists H)
    as (st & k & E & Hk & H1 & H2 & H3).
  exists st. cbn in H1, H2, H3. split; [exact E|]. repeat split; lia.
Qed.

Lemma training_loop_index_error_witness :
  let data := [["1"%string; "a b"%string]; ["0"%string]%list] in
  Exists (fun td => (length td < 2)%nat) data /\
  exists st,
    training_loop data no_train_lists = (st, Some IndexError) /\
    length (train_list st) = length (training_list st) /\
    (length (train_list st) < length data)%nat /\
    (length (train_list st) <= length (given_class st)
     <= length (train_list st) + 1)%nat.
Proof.
  assert (H : Exists (fun td => (length td < 2)%nat)
                [["1"%string; "a b"%string]; ["0"%string]%list])
    by (right; left; cbn; lia).
  split; [exact H|]. exact (training_loop_index_error _ H).
Defined.

(** X20: as the reading cell is written, the lines of the training file
    are only printed and [training_data] stays empty; so, whatever the two
    files contain, the notebook reaches [features] without an exception and
    [features] is the empty set. *)
Theorem notebook_features_empty (train_lines test_lines : list string) :
  snd (read_train train_lines [] []) = [] /\
  notebook_features train_lines test_lines = Returns (empty_set string).
Proof.
  unfold notebook_features. rewrite read_train_spec. cbn [snd]. split;
    [reflexivity|].
  cbn [training_loop]. rewrite testing_loop_never_raises. reflexivity.
Qed.
